(** * networkteam/filestore: content-addressed blob stores

    A shallow embedding of the Go packages [filestore], [filestore/memory],
    [filestore/local], [filestore/s3] and [filestore/imgproxy], together
    with the properties of the storage protocol: content addressing,
    batched iteration, removal, sizing, the imgproxy locator strings and
    the signed imgproxy URLs.

    Go strings are byte strings, so [string] (a list of 8-bit characters)
    models them exactly: [String.length] is Go's [len] and [substring] is
    Go's slice expression.  Byte slices are [list byte].  Go's [int] is
    modelled by [Z]. *)

From Stdlib Require Import ZArith List Lia Bool.
From Stdlib.Strings Require Import Ascii String Byte.
From Stdlib Require Import DecimalString.
From stdpp Require Import base option list gmap strings sorting.

Import ListNotations.
Local Open Scope Z_scope.
Local Open Scope string_scope.
Local Open Scope list_scope.

(** ** crypto/sha256 and encoding/hex

    The two standard-library functions every [Store] goes through.  They
    are written out (FIPS 180-4 and the hex table of encoding/hex) so that
    the hash of a concrete blob can be evaluated. *)

Module sha256.

Definition w32 (x : Z) : Z := Z.land x 4294967295.

Definition rotr (n x : Z) : Z :=
  Z.lor (Z.shiftr x n) (w32 (Z.shiftl x (32 - n))).

Definition add32 (x y : Z) : Z := w32 (x + y).

Definition Ch (x y z : Z) : Z :=
  Z.lxor (Z.land x y) (Z.land (Z.lxor x 4294967295) z).
Definition Maj (x y z : Z) : Z :=
  Z.lxor (Z.lxor (Z.land x y) (Z.land x z)) (Z.land y z).
Definition bsig0 (x : Z) : Z :=
  Z.lxor (Z.lxor (rotr 2 x) (rotr 13 x)) (rotr 22 x).
Definition bsig1 (x : Z) : Z :=
  Z.lxor (Z.lxor (rotr 6 x) (rotr 11 x)) (rotr 25 x).
Definition ssig0 (x : Z) : Z :=
  Z.lxor (Z.lxor (rotr 7 x) (rotr 18 x)) (Z.shiftr x 3).
Definition ssig1 (x : Z) : Z :=
  Z.lxor (Z.lxor (rotr 17 x) (rotr 19 x)) (Z.shiftr x 10).

(** The round constants are the first 32 bits of the fractional parts of
    the cube roots of the first 64 primes, the initial chaining values
    those of the square roots of the first 8 primes. *)
Definition primes : list Z :=
  [2; 3; 5; 7; 11; 13; 17; 19; 23; 29; 31; 37; 41; 43; 47; 53; 59; 61; 67;
   71; 73; 79; 83; 89; 97; 101; 103; 107; 109; 113; 127; 131; 137; 139; 149;
   151; 157; 163; 167; 173; 179; 181; 191; 193; 197; 199; 211; 223; 227;
   229; 233; 239; 241; 251; 257; 263; 269; 271; 277; 281; 283; 293; 307; 311].

(** Integer cube root, bit by bit from the top. *)
Fixpoint icbrt (bits : nat) (n acc : Z) : Z :=
  match bits with
  | O => acc
  | Datatypes.S b =>
      let c := acc + 2 ^ Z.of_nat b in
      if (c * c * c <=? n)%Z then icbrt b n c else icbrt b n acc
  end.

Definition frac_cbrt (p : Z) : Z := w32 (icbrt 36 (p * 2 ^ 96) 0).
Definition frac_sqrt (p : Z) : Z := w32 (Z.sqrt (p * 2 ^ 64)).

Definition K : list Z := map frac_cbrt primes.

(** The eight working variables / chaining values. *)
Record regs := Regs { ra : Z; rb : Z; rc : Z; rd : Z;
                      re : Z; rf : Z; rg : Z; rh : Z }.

Definition init : regs :=
  Regs (frac_sqrt 2) (frac_sqrt 3) (frac_sqrt 5) (frac_sqrt 7)
       (frac_sqrt 11) (frac_sqrt 13) (frac_sqrt 17) (frac_sqrt 19).

Definition byteZ (b : byte) : Z := Z.of_N (Byte.to_N b).

Definition Zbyte (z : Z) : byte :=
  match Byte.of_N (Z.to_N (Z.land z 255)) with
  | Some b => b
  | None => x00
  end.

(** Big-endian words of a block. *)
Fixpoint words (bs : list Z) : list Z :=
  match bs with
  | b0 :: b1 :: b2 :: b3 :: rest =>
      (Z.shiftl b0 24 + Z.shiftl b1 16 + Z.shiftl b2 8 + b3) :: words rest
  | _ => []
  end.

Definition wnth (w : list Z) (i : nat) : Z := nth i w 0.

(** Message schedule: extend the 16 block words to 64. *)
Fixpoint schedule (n : nat) (w : list Z) : list Z :=
  match n with
  | O => w
  | S n' =>
      let t := length w in
      let x := add32 (add32 (ssig1 (wnth w (t - 2))) (wnth w (t - 7)))
                     (add32 (ssig0 (wnth w (t - 15))) (wnth w (t - 16))) in
      schedule n' (w ++ [x])
  end.

Definition round (s : regs) (kw : Z * Z) : regs :=
  let t1 := add32 (add32 (add32 (rh s) (bsig1 (re s)))
                         (add32 (Ch (re s) (rf s) (rg s)) (fst kw))) (snd kw) in
  let t2 := add32 (bsig0 (ra s)) (Maj (ra s) (rb s) (rc s)) in
  Regs (add32 t1 t2) (ra s) (rb s) (rc s) (add32 (rd s) t1) (re s) (rf s) (rg s).

Definition block (h : regs) (bs : list Z) : regs :=
  let w := schedule 48 (words bs) in
  let s := fold_left round (combine K w) h in
  Regs (add32 (ra h) (ra s)) (add32 (rb h) (rb s))
       (add32 (rc h) (rc s)) (add32 (rd h) (rd s))
       (add32 (re h) (re s)) (add32 (rf h) (rf s))
       (add32 (rg h) (rg s)) (add32 (rh h) (rh s)).

Fixpoint blocks (n : nat) (h : regs) (bs : list Z) : regs :=
  match n with
  | O => h
  | S n' => blocks n' (block h (firstn 64 bs)) (skipn 64 bs)
  end.

Definition be (nbytes : nat) (x : Z) : list Z :=
  map (fun i => Z.land (Z.shiftr x (8 * Z.of_nat i)) 255)
      (rev (seq 0 nbytes)).

(** Padding: 0x80, zeros up to 56 mod 64, then the bit length on 8 bytes. *)
Definition pad (msg : list Z) : list Z :=
  let len := Z.of_nat (length msg) in
  let zeros := Z.to_nat ((55 - len) mod 64) in
  msg ++ [128] ++ repeat 0 zeros ++ be 8 (8 * len).

Definition out (h : regs) : list Z :=
  be 4 (ra h) ++ be 4 (rb h) ++ be 4 (rc h) ++ be 4 (rd h) ++
  be 4 (re h) ++ be 4 (rf h) ++ be 4 (rg h) ++ be 4 (rh h).

(** [h := sha256.New(); h.Write(data); h.Sum(nil)] *)
Definition Sum (data : list byte) : list byte :=
  let p := pad (map byteZ data) in
  map Zbyte (out (blocks (length p / 64)%nat init p)).

End sha256.

Module hex.

(** [const hextable = "0123456789abcdef"] *)
Definition hextable : string := "0123456789abcdef".

Definition digit (n : N) : ascii :=
  match String.get (N.to_nat n) hextable with
  | Some c => c
  | None => "0"%char
  end.

(** [hex.EncodeToString]: two table characters per byte, high nibble
    first. *)
Fixpoint EncodeToString (src : list byte) : string :=
  match src with
  | [] => EmptyString
  | b :: rest =>
      String (digit (N.shiftr (Byte.to_N b) 4))
        (String (digit (N.land (Byte.to_N b) 15)) (EncodeToString rest))
  end.

Definition is_lower_hex (c : ascii) : bool :=
  let n := N_of_ascii c in
  (((48 <=? n) && (n <=? 57)) || ((97 <=? n) && (n <=? 102)))%N.

Fixpoint all_lower_hex (s : string) : bool :=
  match s with
  | EmptyString => true
  | String c rest => is_lower_hex c && all_lower_hex rest
  end.

(** The errors of the decoder: [hex.ErrLength] and [hex.InvalidByteError]. *)
Inductive error := ErrLength | InvalidByteError (c : ascii).

(** [fromHexChar]: the value of a hex digit of either case. *)
Definition fromHexChar (c : ascii) : option N :=
  let n := N_of_ascii c in
  if ((48 <=? n) && (n <=? 57))%N then Some (n - 48)%N
  else if ((97 <=? n) && (n <=? 102))%N then Some (n - 97 + 10)%N
  else if ((65 <=? n) && (n <=? 70))%N then Some (n - 65 + 10)%N
  else None.

Definition N_byte (n : N) : byte :=
  match Byte.of_N n with
  | Some b => b
  | None => x00
  end.

(** [hex.DecodeString]: pairs of digits are decoded from the left; the
    bytes decoded before an error are returned with it.  A trailing single
    character is reported as an invalid byte if it is one, and as
    [ErrLength] otherwise. *)
Fixpoint DecodeString (s : string) : list byte * option error :=
  match s with
  | EmptyString => ([], None)
  | String p EmptyString =>
      match fromHexChar p with
      | None => ([], Some (InvalidByteError p))
      | Some _ => ([], Some ErrLength)
      end
  | String p (String q rest) =>
      match fromHexChar p with
      | None => ([], Some (InvalidByteError p))
      | Some a =>
          match fromHexChar q with
          | None => ([], Some (InvalidByteError q))
          | Some b =>
              let '(bs, err) := DecodeString rest in
              (N_byte (N.lor (N.shiftl a 4) b) :: bs, err)
          end
      end
  end.

Definition is_hex (c : ascii) : bool :=
  match fromHexChar c with
  | Some _ => true
  | None => false
  end.

Fixpoint all_hex (s : string) : bool :=
  match s with
  | EmptyString => true
  | String c rest => is_hex c && all_hex rest
  end.

End hex.

Definition bytes_of (s : string) : list byte := list_byte_of_string s.

(** The digest every backend uses as blob identifier:
    [hex.EncodeToString(digest.Sum(nil))]. *)
Definition hashHex (data : list byte) : string :=
  hex.EncodeToString (sha256.Sum data).

(** ** Go errors

    Package-level error values are compared by identity ([==] and
    [errors.Is]); they are the constructors of [sentinel].  [User n] stands
    for an error value created by the caller ([errors.New] in a test, a
    failing reader, a callback error). *)

Inductive sentinel :=
| filestore_ErrNotExist   (* filestore.ErrNotExist = errors.New("file does not exist") *)
| local_errInvalidHash    (* local.errInvalidHash = errors.New("invalid hash") *)
| os_ErrNotExist          (* os.ErrNotExist *)
| os_ErrClosed            (* os.ErrClosed *)
| io_EOF                  (* io.EOF *)
| filepath_SkipDir        (* filepath.SkipDir *)
| filepath_SkipAll        (* filepath.SkipAll (Go 1.20 and later) *)
| User (n : nat).

Inductive errno := ENOENT | EEXIST | ENOTEMPTY | EACCES | EPERM | EIO | ENOSPC.

#[warnings="-register-all"]
Inductive error :=
| Sentinel (s : sentinel)
| Errno (e : errno)                               (* syscall.Errno *)
| PathError (op path : string) (inner : error)    (* *fs.PathError *)
| ErrorNew (msg : string)                         (* errors.New(msg) at the call site *)
| Errorf (msg : string) (inner : error)           (* fmt.Errorf(msg + ": %w", inner) *)
| ErrorResponse (code : string)                   (* minio.ErrorResponse{Code: code} *)
| Multi (errs : list error).                      (* *multierror.Error *)

#[global] Instance sentinel_eq_dec : EqDecision sentinel.
Proof. solve_decision. Defined.
#[global] Instance errno_eq_dec : EqDecision errno.
Proof. solve_decision. Defined.

(** [Errno.Is]: the only kernel error the code tests for is ENOENT, which
    matches [os.ErrNotExist]. *)
Definition errno_Is (e : errno) (target : sentinel) : bool :=
  match e, target with
  | ENOENT, os_ErrNotExist => true
  | _, _ => false
  end.

(** [errors.Is(err, target)] for a sentinel target: walk the Unwrap chain. *)
Fixpoint errors_Is (err : error) (target : sentinel) : bool :=
  match err with
  | Sentinel s => bool_decide (s = target)
  | Errno e => errno_Is e target
  | PathError _ _ inner => errors_Is inner target
  | ErrorNew _ => false
  | ErrorResponse _ => false
  | Errorf _ inner => errors_Is inner target
  | Multi errs =>
      (fix any (l : list error) : bool :=
         match l with
         | [] => false
         | e :: l' => errors_Is e target || any l'
         end) errs
  end.

(** [multierror.Append(err, e)] with [err] a possibly nil, non-multi error. *)
Definition multierror_Append (err : option error) (e : error) : error :=
  match err with
  | None => Multi [e]
  | Some (Multi es) => Multi (es ++ [e])
  | Some e0 => Multi [e0; e]
  end.

(** The store's NotFound condition: [errors.Is(err, filestore.ErrNotExist)]. *)
Definition NotFound (err : option error) : Prop :=
  exists e, err = Some e /\ errors_Is e filestore_ErrNotExist = true.

(** ** io.Reader

    A reader is the bytes it still has to deliver and how the stream ends:
    [None] for io.EOF, [Some e] for a read error after the data. *)

Record Reader := mkReader { rd_data : list byte; rd_err : option error }.

Definition bytes_Reader (data : list byte) : Reader := mkReader data None.

(** [io.ReadAll(r)]: everything up to the end or the first error; the
    reader is left drained. *)
Definition io_ReadAll (r : Reader) : list byte * option error * Reader :=
  (rd_data r, rd_err r, mkReader [] (rd_err r)).

(** ** Batched iteration

    All three [Iterate] methods run the same loop body over the hashes the
    backend enumerates.  A callback is a Go closure: it is modelled by a
    function on the state [S] it captures. *)

Section Batching.
Context {S : Type}.
Variable maxBatch : Z.
Variable callback : S -> list string -> S * option error.

(** [for hash := range keys { hashes = append(hashes, hash); if
    len(hashes) == maxBatch { if err := callback(hashes); err != nil
    { return err }; hashes = hashes[:0] } }].  Result: the batch under
    construction, the closure state and the error that ended the loop. *)
Fixpoint range_loop (keys : list string) (hashes : list string) (s : S)
  : list string * S * option error :=
  match keys with
  | [] => (hashes, s, None)
  | hash :: rest =>
      let hashes := hashes ++ [hash] in
      if (Z.of_nat (length hashes) =? maxBatch)%Z then
        match callback s hashes with
        | (s', Some err) => (hashes, s', Some err)
        | (s', None) => range_loop rest [] s'
        end
      else range_loop rest hashes s
  end.

(** [if len(hashes) > 0 { return callback(hashes) }; return nil] *)
Definition flush (hashes : list string) (s : S) : S * option error :=
  if (0 <? Z.of_nat (length hashes))%Z then callback s hashes else (s, None).

Definition iterate_over (keys : list string) (s : S) : S * option error :=
  match range_loop keys [] s with
  | (_, s', Some err) => (s', Some err)
  | (hashes, s', None) => flush hashes s'
  end.
End Batching.

(** Instrumentation: a callback that also records, for every invocation,
    the batch it was given (a copy, as the tests take with [append]) and
    what it returned. *)
Definition call := (list string * option error)%type.

Definition logged {S : Type} (cb : S -> list string -> S * option error)
  : S * list call -> list string -> (S * list call) * option error :=
  fun st hashes =>
    let '(s', r) := cb (fst st) hashes in
    ((s', snd st ++ [(hashes, r)]), r).

(** ** Package memory *)

Module memory.

(** [type Filestore struct { mx sync.RWMutex; files map[string][]byte }];
    every method holds the lock for its whole body, so the sequential
    model is the map. *)
Record Filestore := mk { files : gmap string (list byte) }.

Definition NewFilestore : Filestore := mk ∅.

Definition Store (f : Filestore) (r : Reader)
  : string * option error * Filestore * Reader :=
  let '(data, err, r') := io_ReadAll r in
  match err with
  | Some e => (EmptyString, Some e, f, r')
  | None =>
      let hash := hashHex data in
      (hash, None, mk (<[hash := data]> (files f)), r')
  end.

Definition StoreHashed (f : Filestore) (r : Reader) (hash : string)
  : option error * Filestore * Reader :=
  match files f !! hash with
  | Some _ => (None, f, r)
  | None =>
      let '(data, err, r') := io_ReadAll r in
      match err with
      | Some e => (Some e, f, r')
      | None => (None, mk (<[hash := data]> (files f)), r')
      end
  end.

Definition Exists (f : Filestore) (hash : string) : bool * option error :=
  (bool_decide (is_Some (files f !! hash)), None).

Definition Fetch (f : Filestore) (hash : string) : option Reader * option error :=
  match files f !! hash with
  | None => (None, Some (Sentinel filestore_ErrNotExist))
  | Some data => (Some (bytes_Reader data), None)
  end.

Definition keys (f : Filestore) : list string := (map_to_list (files f)).*1.

(** [for hash := range f.files]: Go enumerates a map in an unspecified
    order; [pick] is the arrangement of the keys the runtime chooses for
    this call. *)
Definition Iterate {S : Type} (f : Filestore) (pick : list string -> list string)
    (maxBatch : Z) (callback : S -> list string -> S * option error) (s : S)
  : S * option error :=
  iterate_over maxBatch callback (pick (keys f)) s.

Definition Remove (f : Filestore) (hash : string) : option error * Filestore :=
  match files f !! hash with
  | None => (Some (Sentinel filestore_ErrNotExist), f)
  | Some _ => (None, mk (delete hash (files f)))
  end.

Definition Size (f : Filestore) (hash : string) : Z * option error :=
  match files f !! hash with
  | None => (0, Some (Sentinel filestore_ErrNotExist))
  | Some data => (Z.of_nat (length data), None)
  end.

Definition ImgproxyURLSource (hash : string) : string * option error :=
  ("memory://" +:+ hash, None).

(** Histories of the store: sequences of [Store] and [Remove] calls. *)
Inductive op := OpStore (r : Reader) | OpRemove (hash : string).

Definition step (f : Filestore) (o : op) : Filestore :=
  match o with
  | OpStore r => (Store f r).1.2
  | OpRemove h => (Remove f h).2
  end.

Definition run (ops : list op) : Filestore := fold_left step ops NewFilestore.

(** Content addressing: every key is the digest of what it holds. *)
Definition content_addressed (f : Filestore) : Prop :=
  forall k data, files f !! k = Some data -> k = hashHex data.

End memory.

(** ** Go runtime panics

    A slice expression out of range aborts the call; [Panic] is that
    outcome (the state a panicking call leaves behind is not tracked). *)

Inductive result (A : Type) :=
| Ret (a : A)
| Panic (msg : string).
Arguments Ret {A} a.
Arguments Panic {A} msg.

Definition len (s : string) : Z := Z.of_nat (String.length s).

(** [s[0:hi]] on a string: panics unless [0 <= hi <= len(s)]. *)
Definition slice_to (s : string) (hi : Z) : result string :=
  if ((0 <=? hi) && (hi <=? len s))%Z
  then Ret (substring 0 (Z.to_nat hi) s)
  else Panic "slice bounds out of range".

(** ** Package local *)

Module local.

Definition DefaultPrefixSize : Z := 2.
Definition DefaultTargetFileMode : Z := 420 (* 0644 *).

Record Filestore := mk {
  tmpPath : string;
  assetsPath : string;
  TargetFileMode : Z;
  PrefixSize : Z
}.

(** [NewFilestore] also creates both directories; in the file-system
    model below they always exist. *)
Definition NewFilestore (tmpPath assetsPath : string) : Filestore :=
  mk tmpPath assetsPath DefaultTargetFileMode DefaultPrefixSize.

Definition errInvalidHash : error := Sentinel local_errInvalidHash.

Definition prefixPath (f : Filestore) (hash : string)
  : result (string * option error) :=
  if (len hash <? PrefixSize f)%Z then Ret (EmptyString, Some errInvalidHash)
  else match slice_to hash (PrefixSize f) with
       | Ret p => Ret (p, None)
       | Panic m => Panic m
       end.

Definition ImgproxyURLSource (f : Filestore) (hash : string)
  : result (string * option error) :=
  match prefixPath f hash with
  | Panic m => Panic m
  | Ret (_, Some err) => Ret (EmptyString, Some err)
  | Ret (prefixPath, None) =>
      Ret ("local:///" +:+ prefixPath +:+ "/" +:+ hash, None)
  end.

(** *** The file system the store runs on

    The staging directory holds plain files; the assets directory holds
    one directory per shard, each holding plain files.  Path components
    are the map keys, so the model covers the paths
    [assetsPath/<prefix>/<hash>] whose prefix is non-empty and whose
    components contain no separator and are not the names [.] and [..]:
    hex digests with [PrefixSize >= 1].  The tree has two levels: no file
    lies directly in the assets directory and no directory lies in a
    shard, which is what [Store] and [Remove] build. *)

Record file := File { f_data : list byte; f_mode : Z }.

Record fsys := FS {
  tmp : gmap string file;
  assets : gmap string (gmap string file)
}.

Definition empty_fs : fsys := FS ∅ ∅.

(** What the operating system may do to one call: the random part of
    the temporary name, an error injected at a system call, and how many
    bytes a failing write still gets through. *)
Inductive syscall :=
| SysCreateTemp | SysWrite | SysClose | SysStat | SysMkdirAll | SysRename
| SysChmod | SysRemove | SysOpen | SysReaddirnames | SysRemoveDir.

Record env := Env {
  temp_suffix : string;
  fault : syscall -> option errno;
  short_write : nat
}.

Definition no_faults (suffix : string) : env := Env suffix (fun _ => None) 0.

Definition join (dir name : string) : string := dir +:+ "/" +:+ name.

Definition file_at (fs : fsys) (dir name : string) : option file :=
  assets fs !! dir ≫= fun d => d !! name.

(** [os.CreateTemp(dir, "image-upload-*")]: a new empty file of mode 0600. *)
Definition os_CreateTemp (e : env) (f : Filestore) (fs : fsys)
  : error + (string * fsys) :=
  let name := "image-upload-" +:+ temp_suffix e in
  match fault e SysCreateTemp with
  | Some en => inl (PathError "open" (join (tmpPath f) name) (Errno en))
  | None =>
      match tmp fs !! name with
      | Some _ => inl (PathError "open" (join (tmpPath f) name) (Errno EEXIST))
      | None => inr (name, FS (<[name := File [] 384]> (tmp fs)) (assets fs))
      end
  end.

Definition set_tmp_data (fs : fsys) (name : string) (data : list byte) : fsys :=
  FS (alter (fun fl => File data (f_mode fl)) name (tmp fs)) (assets fs).

(** [io.Copy(digest, io.TeeReader(r, tempFile))]: every chunk read from
    [r] is written to the temporary file, then hashed.  Returns the copy
    error, the bytes that reached the digest, and the file system. *)
Definition io_Copy_tee (e : env) (f : Filestore) (r : Reader) (name : string)
    (fs : fsys) : option error * list byte * fsys :=
  match rd_data r, fault e SysWrite with
  | _ :: _, Some en =>
      let written := take (short_write e) (rd_data r) in
      (Some (PathError "write" (join (tmpPath f) name) (Errno en)),
       written, set_tmp_data fs name written)
  | _, _ => (rd_err r, rd_data r, set_tmp_data fs name (rd_data r))
  end.

(** [tempFile.Close()]; a second Close always fails with os.ErrClosed. *)
Definition File_Close (e : env) (f : Filestore) (closed : bool) (name : string)
  : option error :=
  if closed then Some (PathError "close" (join (tmpPath f) name) (Sentinel os_ErrClosed))
  else match fault e SysClose with
       | Some en => Some (PathError "close" (join (tmpPath f) name) (Errno en))
       | None => None
       end.

Definition targetPath (f : Filestore) (dir name : string) : string :=
  join (join (assetsPath f) dir) name.

Definition os_Stat (e : env) (f : Filestore) (fs : fsys) (dir name : string)
  : error + file :=
  match fault e SysStat with
  | Some en => inl (PathError "stat" (targetPath f dir name) (Errno en))
  | None =>
      match file_at fs dir name with
      | Some fl => inr fl
      | None => inl (PathError "stat" (targetPath f dir name) (Errno ENOENT))
      end
  end.

Definition os_MkdirAll (e : env) (f : Filestore) (fs : fsys) (dir : string)
  : error + fsys :=
  match fault e SysMkdirAll with
  | Some en => inl (PathError "mkdir" (join (assetsPath f) dir) (Errno en))
  | None =>
      match assets fs !! dir with
      | Some _ => inr fs
      | None => inr (FS (tmp fs) (<[dir := ∅]> (assets fs)))
      end
  end.

(** [os.Rename(tmp/name, assets/dir/target)]: atomic, replaces the target. *)
Definition os_Rename (e : env) (f : Filestore) (fs : fsys)
    (name dir target : string) : error + fsys :=
  match fault e SysRename with
  | Some en => inl (PathError "rename" (join (tmpPath f) name) (Errno en))
  | None =>
      match tmp fs !! name, assets fs !! dir with
      | Some fl, Some d =>
          inr (FS (delete name (tmp fs)) (<[dir := <[target := fl]> d]> (assets fs)))
      | _, _ => inl (PathError "rename" (join (tmpPath f) name) (Errno ENOENT))
      end
  end.

Definition os_Chmod (e : env) (f : Filestore) (fs : fsys)
    (dir name : string) (mode : Z) : error + fsys :=
  match fault e SysChmod with
  | Some en => inl (PathError "chmod" (targetPath f dir name) (Errno en))
  | None =>
      match assets fs !! dir ≫= fun d => (fun fl => (d, fl)) <$> d !! name with
      | Some (d, fl) =>
          inr (FS (tmp fs) (<[dir := <[name := File (f_data fl) mode]> d]> (assets fs)))
      | None => inl (PathError "chmod" (targetPath f dir name) (Errno ENOENT))
      end
  end.

(** [os.Remove(tempFile.Name())] *)
Definition os_Remove_tmp (e : env) (f : Filestore) (fs : fsys) (name : string)
  : error + fsys :=
  match fault e SysRemove with
  | Some en => inl (PathError "remove" (join (tmpPath f) name) (Errno en))
  | None =>
      match tmp fs !! name with
      | Some _ => inr (FS (delete name (tmp fs)) (assets fs))
      | None => inl (PathError "remove" (join (tmpPath f) name) (Errno ENOENT))
      end
  end.

(** *** Store *)

(** The named results and the locals of [Store] when its body returns. *)
Record frame := Frame {
  fr_hash : string;
  fr_err : option error;
  tmpWasRenamed : bool;
  tmpWasClosed : bool;
  fr_closed : bool;      (* Close has already been called on tempFile *)
  fr_fs : fsys
}.

(** The body of [Store] after [os.CreateTemp] succeeded. *)
Definition Store_body (f : Filestore) (e : env) (r : Reader) (name : string)
    (fs : fsys) : result frame :=
  let '(copyErr, data, fs1) := io_Copy_tee e f r name fs in
  match copyErr with
  | Some err => Ret (Frame EmptyString (Some (Errorf "copying reader" err)) false false false fs1)
  | None =>
      let hashHex := hashHex data in
      match prefixPath f hashHex with
      | Panic m => Panic m
      | Ret (_, Some err) => Ret (Frame EmptyString (Some err) false false false fs1)
      | Ret (pathPrefix, None) =>
          match File_Close e f false name with
          | Some err =>
              Ret (Frame EmptyString (Some (Errorf "closing temp file" err)) false false true fs1)
          | None =>
              match os_Stat e f fs1 pathPrefix hashHex with
              | inr _ => Ret (Frame hashHex None false true true fs1)
              | inl _ =>
                  match os_MkdirAll e f fs1 pathPrefix with
                  | inl err =>
                      Ret (Frame EmptyString (Some (Errorf "creating asset subdirectory" err))
                             false true true fs1)
                  | inr fs2 =>
                      match os_Rename e f fs2 name pathPrefix hashHex with
                      | inl err =>
                          Ret (Frame EmptyString (Some (Errorf "renaming temp file" err))
                                 false true true fs2)
                      | inr fs3 =>
                          match os_Chmod e f fs3 pathPrefix hashHex (TargetFileMode f) with
                          | inl err =>
                              Ret (Frame EmptyString (Some (Errorf "setting file mode" err))
                                     true true true fs3)
                          | inr fs4 => Ret (Frame hashHex None true true true fs4)
                          end
                      end
                  end
              end
          end
      end
  end.

(** The deferred function: close if not yet closed, remove the temporary
    file if it was not renamed; a failure is appended to [err] and ends
    the cleanup. *)
Definition Store_deferred (f : Filestore) (e : env) (name : string) (fr : frame)
  : string * option error * fsys :=
  let closeErr :=
    if tmpWasClosed fr then None else File_Close e f (fr_closed fr) name in
  match closeErr with
  | Some closeErr =>
      (fr_hash fr,
       Some (multierror_Append (fr_err fr)
               (Errorf "closing temporary file (with previous error)" closeErr)),
       fr_fs fr)
  | None =>
      if tmpWasRenamed fr then (fr_hash fr, fr_err fr, fr_fs fr)
      else match os_Remove_tmp e f (fr_fs fr) name with
           | inl removeErr =>
               (fr_hash fr,
                Some (multierror_Append (fr_err fr)
                        (Errorf "removing temporary file (with previous error)" removeErr)),
                fr_fs fr)
           | inr fs' => (fr_hash fr, fr_err fr, fs')
           end
  end.

Definition Store (f : Filestore) (e : env) (r : Reader) (fs : fsys)
  : result (string * option error * fsys) :=
  match os_CreateTemp e f fs with
  | inl err => Ret (EmptyString, Some (Errorf "creating temp file" err), fs)
  | inr (name, fs0) =>
      match Store_body f e r name fs0 with
      | Panic m => Panic m
      | Ret fr => Ret (Store_deferred f e name fr)
      end
  end.

(** *** Fetch, Size, Remove *)

Definition os_Open (e : env) (f : Filestore) (fs : fsys) (dir name : string)
  : error + file :=
  match fault e SysOpen with
  | Some en => inl (PathError "open" (targetPath f dir name) (Errno en))
  | None =>
      match file_at fs dir name with
      | Some fl => inr fl
      | None => inl (PathError "open" (targetPath f dir name) (Errno ENOENT))
      end
  end.

Definition Fetch (f : Filestore) (e : env) (fs : fsys) (hash : string)
  : result (option Reader * option error) :=
  match prefixPath f hash with
  | Panic m => Panic m
  | Ret (_, Some err) => Ret (None, Some err)
  | Ret (prefixPath, None) =>
      match os_Open e f fs prefixPath hash with
      | inl err =>
          if errors_Is err os_ErrNotExist
          then Ret (None, Some (Sentinel filestore_ErrNotExist))
          else Ret (None, Some (Errorf "opening file" err))
      | inr fl => Ret (Some (bytes_Reader (f_data fl)), None)
      end
  end.

Definition Size (f : Filestore) (e : env) (fs : fsys) (hash : string)
  : result (Z * option error) :=
  match prefixPath f hash with
  | Panic m => Panic m
  | Ret (_, Some err) => Ret (0%Z, Some err)
  | Ret (prefixPath, None) =>
      match os_Stat e f fs prefixPath hash with
      | inl err => Ret (0%Z, Some err)
      | inr stat => Ret (Z.of_nat (length (f_data stat)), None)
      end
  end.

(** [os.Remove(fileName)] on a file of the asset tree. *)
Definition os_Remove_file (e : env) (f : Filestore) (fs : fsys) (dir name : string)
  : error + fsys :=
  match fault e SysRemove with
  | Some en => inl (PathError "remove" (targetPath f dir name) (Errno en))
  | None =>
      match assets fs !! dir ≫= fun d => (fun fl => (d, fl)) <$> d !! name with
      | Some (d, _) => inr (FS (tmp fs) (<[dir := delete name d]> (assets fs)))
      | None => inl (PathError "remove" (targetPath f dir name) (Errno ENOENT))
      end
  end.

Definition os_Open_dir (e : env) (f : Filestore) (fs : fsys) (dir : string)
  : error + gmap string file :=
  match fault e SysOpen with
  | Some en => inl (PathError "open" (join (assetsPath f) dir) (Errno en))
  | None =>
      match assets fs !! dir with
      | Some d => inr d
      | None => inl (PathError "open" (join (assetsPath f) dir) (Errno ENOENT))
      end
  end.

(** [dir.Readdirnames(1)]: io.EOF on an empty directory. *)
Definition Readdirnames1 (e : env) (d : gmap string file) : error + list string :=
  match fault e SysReaddirnames with
  | Some en => inl (PathError "readdirent" EmptyString (Errno en))
  | None =>
      match map_to_list d with
      | [] => inl (Sentinel io_EOF)
      | (n, _) :: _ => inr [n]
      end
  end.

Definition os_Remove_dir (e : env) (f : Filestore) (fs : fsys) (dir : string)
  : error + fsys :=
  match fault e SysRemoveDir with
  | Some en => inl (PathError "remove" (join (assetsPath f) dir) (Errno en))
  | None =>
      match assets fs !! dir with
      | Some d =>
          if bool_decide (d = ∅)
          then inr (FS (tmp fs) (delete dir (assets fs)))
          else inl (PathError "remove" (join (assetsPath f) dir) (Errno ENOTEMPTY))
      | None => inl (PathError "remove" (join (assetsPath f) dir) (Errno ENOENT))
      end
  end.

Definition Remove (f : Filestore) (e : env) (fs : fsys) (hash : string)
  : result (option error * fsys) :=
  match prefixPath f hash with
  | Panic m => Panic m
  | Ret (_, Some err) => Ret (Some err, fs)
  | Ret (prefixPath, None) =>
      match os_Remove_file e f fs prefixPath hash with
      | inl err => Ret (Some (Errorf "removing file" err), fs)
      | inr fs1 =>
          match os_Open_dir e f fs1 prefixPath with
          | inl err => Ret (Some (Errorf "opening directory" err), fs1)
          | inr dir =>
              match Readdirnames1 e dir with
              | inl err =>
                  if errors_Is err io_EOF then
                    match os_Remove_dir e f fs1 prefixPath with
                    | inl err => Ret (Some (Errorf "removing empty directory" err), fs1)
                    | inr fs2 => Ret (None, fs2)
                    end
                  else Ret (Some (Errorf "reading directory" err), fs1)
              | inr _ => Ret (None, fs1)
              end
          end
      end
  end.

(** *** filepath.Walk and Iterate

    [filepath.Walk] visits the root, then every entry in lexical order
    of the names.  An error returned by the visit function ends the
    walk, except for the control values: [filepath.SkipDir] returned on
    a file skips the remaining entries of its directory and the walk
    goes on with the next directory; at the top, [SkipDir] and
    [SkipAll] are turned into a nil result. *)

Record FileInfo := Info { Name : string; IsDir : bool }.

Definition name_le (a b : string) : Prop := String.leb a b = true.

#[global] Instance name_le_dec (a b : string) : Decision (name_le a b).
Proof. unfold name_le. apply _. Defined.

Definition sorted_entries {A : Type} (m : gmap string A) : list (string * A) :=
  merge_sort (fun x y => name_le x.1 y.1) (map_to_list m).

(** [err == target] *)
Definition err_eq (err : error) (target : sentinel) : bool :=
  match err with
  | Sentinel s => bool_decide (s = target)
  | _ => false
  end.

Section Walk.
Context {S : Type}.
Variable walkFn : S -> string -> FileInfo -> option error -> S * option error.

Fixpoint walk_files (s : S) (dirpath : string) (entries : list (string * file))
  : S * option error :=
  match entries with
  | [] => (s, None)
  | (n, _) :: rest =>
      match walkFn s (join dirpath n) (Info n false) None with
      | (s', Some err) => (s', Some err)
      | (s', None) => walk_files s' dirpath rest
      end
  end.

Definition walk_dir (s : S) (path name : string) (d : gmap string file)
  : S * option error :=
  match walkFn s path (Info name true) None with
  | (s', Some err) => (s', Some err)
  | (s', None) => walk_files s' path (sorted_entries d)
  end.

Fixpoint walk_dirs (s : S) (root : string) (dirs : list (string * gmap string file))
  : S * option error :=
  match dirs with
  | [] => (s, None)
  | (name, d) :: rest =>
      match walk_dir s (join root name) name d with
      | (s', Some err) =>
          if err_eq err filepath_SkipDir then walk_dirs s' root rest
          else (s', Some err)
      | (s', None) => walk_dirs s' root rest
      end
  end.

(** The root's own name is never looked at by a visit function that
    tests [IsDir] first, so it is given as the path. *)
Definition filepath_Walk (e : env) (f : Filestore) (fs : fsys) (s : S)
  : S * option error :=
  let listErr :=
    match fault e SysReaddirnames with
    | Some en => Some (PathError "open" (assetsPath f) (Errno en))
    | None => None
    end in
  let '(s1, err1) := walkFn s (assetsPath f) (Info (assetsPath f) true) listErr in
  let res :=
    match listErr, err1 with
    | None, None => walk_dirs s1 (assetsPath f) (sorted_entries (assets fs))
    | _, _ => (s1, err1)
    end in
  match res with
  | (s', Some err) =>
      if err_eq err filepath_SkipDir || err_eq err filepath_SkipAll
      then (s', None) else (s', Some err)
  | (s', None) => (s', None)
  end.
End Walk.

(** [info.Name()[0] == '.'] (a directory entry never has an empty name). *)
Definition hidden (name : string) : bool :=
  match name with
  | String c _ => bool_decide (c = "."%char)
  | EmptyString => false
  end.

(** The function literal passed to [filepath.Walk]; it captures [hashes]
    next to whatever the callback captures. *)
Definition walkFn {S : Type} (maxBatch : Z)
    (callback : S -> list string -> S * option error)
  : list string * S -> string -> FileInfo -> option error
    -> (list string * S) * option error :=
  fun st path info err =>
    match err with
    | Some err => (st, Some err)
    | None =>
        if IsDir info || hidden (Name info) then (st, None)
        else
          let hashes := st.1 ++ [Name info] in
          if (Z.of_nat (length hashes) =? maxBatch)%Z then
            match callback st.2 hashes with
            | (s', Some err) => ((hashes, s'), Some err)
            | (s', None) => (([], s'), None)
            end
          else ((hashes, st.2), None)
    end.

Definition Iterate {S : Type} (f : Filestore) (e : env) (fs : fsys)
    (maxBatch : Z) (callback : S -> list string -> S * option error) (s : S)
  : S * option error :=
  match filepath_Walk (walkFn maxBatch callback) e f fs ([], s) with
  | ((_, s'), Some err) => (s', Some err)
  | ((hashes, s'), None) => flush callback hashes s'
  end.

(** The names in a directory listing that the visit function keeps. *)
Definition visible (entries : list (string * file)) : list string :=
  filter (fun n => hidden n = false) (map fst entries).

(** The hashes a walk of the tree meets, in order. *)
Definition walk_names (fs : fsys) : list string :=
  concat (map (fun d => visible (sorted_entries d.2)) (sorted_entries (assets fs))).

(** The layout [Store] maintains: a file named [n] lies in the shard
    directory [prefixPath n], and no stored name is hidden. *)
Definition sharded (f : Filestore) (fs : fsys) : Prop :=
  forall dir d n fl,
    assets fs !! dir = Some d -> d !! n = Some fl ->
    prefixPath f n = Ret (dir, None) /\ hidden n = false.

(** The blob reachable under [hash], if any. *)
Definition stored (f : Filestore) (fs : fsys) (hash : string) : option file :=
  match prefixPath f hash with
  | Ret (dir, None) => file_at fs dir hash
  | _ => None
  end.

(** *** Histories

    Sequences of [Store] and [Remove] calls, each with what the operating
    system does to it. *)

Inductive op := OpStore (e : env) (r : Reader) | OpRemove (e : env) (hash : string).

Definition step (f : Filestore) (fs : fsys) (o : op) : result fsys :=
  match o with
  | OpStore e r =>
      match Store f e r fs with
      | Ret (_, _, fs') => Ret fs'
      | Panic m => Panic m
      end
  | OpRemove e hash =>
      match Remove f e fs hash with
      | Ret (_, fs') => Ret fs'
      | Panic m => Panic m
      end
  end.

Fixpoint run (f : Filestore) (ops : list op) (fs : fsys) : result fsys :=
  match ops with
  | [] => Ret fs
  | o :: rest =>
      match step f fs o with
      | Ret fs' => run f rest fs'
      | Panic m => Panic m
      end
  end.

(** Content addressing: every file of the asset tree is named by the
    digest of what it holds. *)
Definition content_addressed (fs : fsys) : Prop :=
  forall dir n fl, file_at fs dir n = Some fl -> n = hashHex (f_data fl).

(** A name without a path separator: a single path component. *)
Fixpoint plain (name : string) : bool :=
  match name with
  | EmptyString => true
  | String c rest => negb (bool_decide (c = "/"%char)) && plain rest
  end.

End local.

(** ** The root package's first local backend, [filestore.Local] *)

Module filestore.

Record Local := mk {
  tmpPath : string;
  assetsPath : string;
  TargetFileMode : Z;
  PrefixSize : Z
}.

Definition NewLocal (tmpPath assetsPath : string) : Local :=
  mk tmpPath assetsPath 420 2.

(** [return hash[0:f.PrefixSize]] *)
Definition prefixPath (f : Local) (hash : string) : result string :=
  slice_to hash (PrefixSize f).

Definition ImgproxyURLSource (f : Local) (hash : string)
  : result (string * option error) :=
  if (len hash <? 2)%Z then Ret (EmptyString, Some (ErrorNew "empty hash"))
  else match prefixPath f hash with
       | Panic m => Panic m
       | Ret p => Ret ("local:///" +:+ p +:+ "/" +:+ hash, None)
       end.

(** [Local] runs on the same file system as package local. *)
Definition as_local (f : Local) : local.Filestore :=
  local.mk (tmpPath f) (assetsPath f) (TargetFileMode f) (PrefixSize f).

Definition Fetch (f : Local) (e : local.env) (fs : local.fsys) (hash : string)
  : result (option Reader * option error) :=
  match prefixPath f hash with
  | Panic m => Panic m
  | Ret p =>
      match local.os_Open e (as_local f) fs p hash with
      | inl err =>
          if errors_Is err os_ErrNotExist
          then Ret (None, Some (Sentinel filestore_ErrNotExist))
          else Ret (None, Some (Errorf "opening file" err))
      | inr fl => Ret (Some (bytes_Reader (local.f_data fl)), None)
      end
  end.

Definition Remove (f : Local) (e : local.env) (fs : local.fsys) (hash : string)
  : result (option error * local.fsys) :=
  match prefixPath f hash with
  | Panic m => Panic m
  | Ret p =>
      match local.os_Remove_file e (as_local f) fs p hash with
      | inl err => Ret (Some (Errorf "removing file" err), fs)
      | inr fs1 =>
          match local.os_Open_dir e (as_local f) fs1 p with
          | inl err => Ret (Some (Errorf "opening directory" err), fs1)
          | inr dir =>
              match local.Readdirnames1 e dir with
              | inl err =>
                  if errors_Is err io_EOF then
                    match local.os_Remove_dir e (as_local f) fs1 p with
                    | inl err => Ret (Some (Errorf "removing empty directory" err), fs1)
                    | inr fs2 => Ret (None, fs2)
                    end
                  else Ret (Some (Errorf "reading directory" err), fs1)
              | inr _ => Ret (None, fs1)
              end
          end
      end
  end.

Definition Size (f : Local) (e : local.env) (fs : local.fsys) (hash : string)
  : result (Z * option error) :=
  match prefixPath f hash with
  | Panic m => Panic m
  | Ret p =>
      match local.os_Stat e (as_local f) fs p hash with
      | inl err => Ret (0%Z, Some err)
      | inr stat => Ret (Z.of_nat (length (local.f_data stat)), None)
      end
  end.

End filestore.

(** ** Package s3

    The bucket is the map from object key to content; the MinIO client is
    modelled by its effect on it, with transport failures injected. *)

Module s3.

Record Filestore := mk { URL : string; BucketName : string }.

Record env := Env { stat_fault : option error; put_fault : option error }.

Definition StatObject (e : env) (b : gmap string (list byte)) (key : string)
  : option error :=
  match stat_fault e with
  | Some err => Some err
  | None =>
      match b !! key with
      | Some _ => None
      | None => Some (ErrorResponse "NoSuchKey")
      end
  end.

Definition PutObject (e : env) (b : gmap string (list byte)) (key : string)
    (r : Reader) : option error * gmap string (list byte) * Reader :=
  let '(data, err, r') := io_ReadAll r in
  match err, put_fault e with
  | Some err, _ => (Some err, b, r')
  | None, Some err => (Some err, b, r')
  | None, None => (None, <[key := data]> b, r')
  end.

Definition StoreHashed (f : Filestore) (e : env) (b : gmap string (list byte))
    (r : Reader) (hash : string)
  : option error * gmap string (list byte) * Reader :=
  match StatObject e b hash with
  | None => (None, b, r)
  | Some _ =>
      let '(err, b', r') := PutObject e b hash r in
      match err with
      | Some err => (Some (Errorf "putting object" err), b', r')
      | None => (None, b', r')
      end
  end.

(** One element of the channel returned by [ListObjects]. *)
Record ObjectInfo := Obj { Key : string; Err : option error }.

Section Iterate.
Context {S : Type}.
Variable maxBatch : Z.
Variable callback : S -> list string -> S * option error.

Fixpoint range_objInfos (objInfos : list ObjectInfo) (hashes : list string) (s : S)
  : list string * S * option error :=
  match objInfos with
  | [] => (hashes, s, None)
  | objInfo :: rest =>
      match Err objInfo with
      | Some err => (hashes, s, Some (Errorf "listing objects" err))
      | None =>
          let hashes := hashes ++ [Key objInfo] in
          if (Z.of_nat (length hashes) =? maxBatch)%Z then
            match callback s hashes with
            | (s', Some err) => (hashes, s', Some err)
            | (s', None) => range_objInfos rest [] s'
            end
          else range_objInfos rest hashes s
      end
  end.

Definition Iterate (f : Filestore) (objInfos : list ObjectInfo) (s : S)
  : S * option error :=
  match range_objInfos objInfos [] s with
  | (_, s', Some err) => (s', Some err)
  | (hashes, s', None) => flush callback hashes s'
  end.
End Iterate.

(** A complete, error-free listing of the bucket. *)
Definition listing_of (b : gmap string (list byte)) (objInfos : list ObjectInfo) : Prop :=
  Forall (fun o => Err o = None) objInfos /\
  NoDup (map Key objInfos) /\
  forall k, k ∈ map Key objInfos <-> is_Some (b !! k).

(** The remaining calls of the client: the id [uuid.NewV4] draws and the
    failures of GetObject, CopyObject and RemoveObject. *)
Record client := Client {
  uuid_NewV4 : error + string;
  get_fault : option error;
  copy_fault : option error;
  remove_fault : option error
}.

(** [minio.ToErrorResponse(err).Code]: the code of an error that is an
    [ErrorResponse] itself, empty for any other error. *)
Definition ToErrorResponse_Code (err : error) : string :=
  match err with
  | ErrorResponse code => code
  | _ => EmptyString
  end.

Definition Exists (f : Filestore) (e : env) (b : gmap string (list byte))
    (hash : string) : bool * option error :=
  match StatObject e b hash with
  | Some err =>
      if String.eqb (ToErrorResponse_Code err) "NoSuchKey" then (false, None)
      else (false, Some (Errorf "getting object info" err))
  | None => (true, None)
  end.

(** [GetObject] sends no request; the request is sent by [Stat] or by the
    first read of the object it returns. *)
Definition GetObject (c : client) (key : string) : option error := get_fault c.

Definition Object_Stat (e : env) (b : gmap string (list byte)) (key : string)
  : error + list byte :=
  match stat_fault e with
  | Some err => inl err
  | None =>
      match b !! key with
      | Some data => inr data
      | None => inl (ErrorResponse "NoSuchKey")
      end
  end.

Definition Fetch (f : Filestore) (e : env) (c : client) (b : gmap string (list byte))
    (hash : string) : option Reader * option error :=
  match GetObject c hash with
  | Some err => (None, Some (Errorf "getting object" err))
  | None =>
      match Object_Stat e b hash with
      | inl err =>
          if String.eqb (ToErrorResponse_Code err) "NoSuchKey"
          then (None, Some (Sentinel filestore_ErrNotExist))
          else (None, Some (Errorf "getting object info" err))
      | inr data => (Some (bytes_Reader data), None)
      end
  end.

Definition ImgproxyURLSource (f : Filestore) (hash : string) : string * option error :=
  ("s3://" +:+ BucketName f +:+ "/" +:+ hash, None).

Definition RemoveObject (c : client) (b : gmap string (list byte)) (key : string)
  : option error * gmap string (list byte) :=
  match remove_fault c with
  | Some err => (Some err, b)
  | None => (None, delete key b)
  end.

Definition Remove (f : Filestore) (c : client) (b : gmap string (list byte))
    (hash : string) : option error * gmap string (list byte) :=
  match RemoveObject c b hash with
  | (Some err, b') => (Some (Errorf "removing object" err), b')
  | (None, b') => (None, b')
  end.

Definition Size (f : Filestore) (e : env) (c : client) (b : gmap string (list byte))
    (hash : string) : Z * option error :=
  match GetObject c hash with
  | Some err => (0%Z, Some (Errorf "getting object" err))
  | None =>
      match Object_Stat e b hash with
      | inl err => (0%Z, Some (Errorf "statting object" err))
      | inr data => (Z.of_nat (length data), None)
      end
  end.

Definition CopyObject (c : client) (b : gmap string (list byte)) (dst src : string)
  : option error * gmap string (list byte) :=
  match copy_fault c with
  | Some err => (Some err, b)
  | None =>
      match b !! src with
      | Some data => (None, <[dst := data]> b)
      | None => (Some (ErrorResponse "NoSuchKey"), b)
      end
  end.

(** [Store]: the object is uploaded under a temporary name while the
    digest is computed, copied to its hash and the temporary object
    removed.  The digest is fed by the tee with the bytes [PutObject]
    reads; it is used only after an upload that read them all. *)
Definition Store (f : Filestore) (e : env) (c : client) (b : gmap string (list byte))
    (r : Reader) : string * option error * gmap string (list byte) * Reader :=
  match uuid_NewV4 c with
  | inl err => (EmptyString, Some (Errorf "generating temp id" err), b, r)
  | inr tmpID =>
      let tmpObjectName := "tmp/" +:+ tmpID in
      let digest := rd_data r in
      let '(err, b1, r') := PutObject e b tmpObjectName r in
      match err with
      | Some err => (EmptyString, Some (Errorf "putting temp object" err), b1, r')
      | None =>
          let hashHex := hashHex digest in
          match CopyObject c b1 hashHex tmpObjectName with
          | (Some err, b2) =>
              (EmptyString, Some (Errorf "copying temp object" err), b2, r')
          | (None, b2) =>
              match RemoveObject c b2 tmpObjectName with
              | (Some err, b3) =>
                  (EmptyString, Some (Errorf "removing temp object" err), b3, r')
              | (None, b3) => (hashHex, None, b3, r')
              end
          end
      end
  end.

End s3.

(** ** encoding/base64, crypto/hmac, strings and fmt

    The standard-library functions package imgproxy builds its URLs
    from. *)

Module base64.

(** [const encodeURL], the alphabet of [base64.RawURLEncoding]. *)
Definition encodeURL : string :=
  "ABCDEFGHIJKLMNOPQRSTUVWXYZabcdefghijklmnopqrstuvwxyz0123456789-_".

Definition char (n : N) : ascii :=
  match String.get (N.to_nat n) encodeURL with
  | Some c => c
  | None => "A"%char
  end.

Definition sextet (val : N) (shift : N) : ascii :=
  char (N.land (N.shiftr val shift) 63).

(** [base64.RawURLEncoding.EncodeToString]: four characters for every
    three bytes, two or three characters for a remainder of one or two
    bytes, no padding. *)
Fixpoint EncodeToString (src : list byte) : string :=
  match src with
  | [] => EmptyString
  | [b0] =>
      let val := N.shiftl (Byte.to_N b0) 16 in
      String (sextet val 18) (String (sextet val 12) EmptyString)
  | [b0; b1] =>
      let val := N.lor (N.shiftl (Byte.to_N b0) 16) (N.shiftl (Byte.to_N b1) 8) in
      String (sextet val 18) (String (sextet val 12) (String (sextet val 6) EmptyString))
  | b0 :: b1 :: b2 :: rest =>
      let val := N.lor (N.lor (N.shiftl (Byte.to_N b0) 16) (N.shiftl (Byte.to_N b1) 8))
                       (Byte.to_N b2) in
      String (sextet val 18) (String (sextet val 12)
        (String (sextet val 6) (String (sextet val 0) (EncodeToString rest))))
  end.

Definition is_url_safe (c : ascii) : bool :=
  let n := N_of_ascii c in
  (((65 <=? n) && (n <=? 90)) || ((97 <=? n) && (n <=? 122)) ||
   ((48 <=? n) && (n <=? 57)) || (n =? 45) || (n =? 95))%N.

Fixpoint all_url_safe (s : string) : bool :=
  match s with
  | EmptyString => true
  | String c rest => is_url_safe c && all_url_safe rest
  end.

End base64.

Module hmac.

Definition xor_byte (pad : N) (b : byte) : byte :=
  hex.N_byte (N.lxor (Byte.to_N b) pad).

(** [mac := hmac.New(sha256.New, key); mac.Write(msg); mac.Sum(nil)]: a
    key longer than the block size of 64 bytes is hashed first, a shorter
    one is filled with zeros. *)
Definition Sum (key msg : list byte) : list byte :=
  let key := if (64 <? length key)%nat then sha256.Sum key else key in
  let block := key ++ repeat x00 (64 - length key) in
  let ipad := map (xor_byte 54) block in
  let opad := map (xor_byte 92) block in
  sha256.Sum (opad ++ sha256.Sum (ipad ++ msg)).

End hmac.

Module strings.

Fixpoint contains_char (cutset : string) (c : ascii) : bool :=
  match cutset with
  | EmptyString => false
  | String c' rest => bool_decide (c = c') || contains_char rest c
  end.

(** [strings.TrimRight(s, cutset)] for a cutset of ASCII characters:
    [s] without its trailing bytes that belong to [cutset]. *)
Fixpoint TrimRight (s cutset : string) : string :=
  match s with
  | EmptyString => EmptyString
  | String c rest =>
      match TrimRight rest cutset with
      | EmptyString => if contains_char cutset c then EmptyString else String c EmptyString
      | rest' => String c rest'
      end
  end.

(** [strings.Join(elems, sep)] *)
Fixpoint Join (elems : list string) (sep : string) : string :=
  match elems with
  | [] => EmptyString
  | [e] => e
  | e :: rest => e +:+ sep +:+ Join rest sep
  end.

(** The verb [%d] of [fmt.Sprintf] on an int. *)
Definition itoa (n : Z) : string := NilZero.string_of_int (Z.to_int n).

End strings.

(** ** Package imgproxy *)

Module imgproxy.

Record Service := mkService {
  baseURL : string;
  key : list byte;
  salt : list byte
}.

Definition ResizingTypeFill : string := "fill".
Definition ResizingTypeFit : string := "fit".
Definition ResizingTypeAuto : string := "auto".

Record Parameters := mkParameters {
  Resize : string;
  Width : Z;
  Height : Z;
  Gravity : string;
  Enlarge : bool;
  Format : string
}.

Record options := mkOptions { o_key : list byte; o_salt : list byte }.

(** The errors an option can return:
    [fmt.Errorf("hex decoding key: %w", err)] and the same for the salt. *)
Inductive error :=
| HexDecodingKey (err : hex.error)
| HexDecodingSalt (err : hex.error).

(** The type [Option]: a function that updates the options or fails. *)
Definition Option := options -> options * option error.

Definition WithKeyAndSalt (key salt : list byte) : Option :=
  fun opts => (mkOptions key salt, None).

Definition WithHexKeyAndSalt (keyHex saltHex : string) : Option :=
  fun opts =>
    match hex.DecodeString keyHex with
    | (_, Some err) => (opts, Some (HexDecodingKey err))
    | (key, None) =>
        match hex.DecodeString saltHex with
        | (_, Some err) => (opts, Some (HexDecodingSalt err))
        | (salt, None) => (mkOptions key salt, None)
        end
    end.

(** [for _, opt := range opts { if err := opt(&options); err != nil
    { return nil, err } }] *)
Fixpoint apply_options (opts : list Option) (o : options)
  : options * option error :=
  match opts with
  | [] => (o, None)
  | opt :: rest =>
      match opt o with
      | (o', Some err) => (o', Some err)
      | (o', None) => apply_options rest o'
      end
  end.

Definition NewService (baseURL : string) (opts : list Option)
  : option Service * option error :=
  let baseURL := strings.TrimRight baseURL "/" in
  match apply_options opts (mkOptions [] []) with
  | (_, Some err) => (None, Some err)
  | (o, None) => (Some (mkService baseURL (o_key o) (o_salt o)), None)
  end.

(** The processing options of the URL, [parts]. *)
Definition parts (params : Parameters) : list string :=
  (if ((0 <? Width params) || (0 <? Height params))%Z then
     let enlarge := if Enlarge params then 1%Z else 0%Z in
     let resize :=
       if String.eqb (Resize params) EmptyString then ResizingTypeAuto
       else Resize params in
     ["resize:" +:+ resize +:+ ":" +:+ strings.itoa (Width params) +:+ ":" +:+
      strings.itoa (Height params) +:+ ":" +:+ strings.itoa enlarge]
   else []) ++
  (if String.eqb (Gravity params) EmptyString then []
   else ["gravity:" +:+ Gravity params]).

(** [path := fmt.Sprintf("/%s/%s%s", strings.Join(parts, "/"), encodedURL,
    extension)] *)
Definition path (imgproxySourceURL : string) (params : Parameters) : string :=
  let extension :=
    if String.eqb (Format params) EmptyString then EmptyString
    else "." +:+ Format params in
  let encodedURL := base64.EncodeToString (bytes_of imgproxySourceURL) in
  "/" +:+ strings.Join (parts params) "/" +:+ "/" +:+ encodedURL +:+ extension.

Definition signature (s : Service) (path : string) : string :=
  base64.EncodeToString (hmac.Sum (key s) (salt s ++ bytes_of path)).

Definition ImageURL (s : Service) (imgproxySourceURL : string) (params : Parameters)
  : string * option error :=
  let path := path imgproxySourceURL params in
  (baseURL s +:+ "/" +:+ signature s path +:+ path, None).

End imgproxy.

(** ** Fixtures of the repository's tests *)

Definition test_content : list byte := bytes_of "Test content".
Definition test_hash : string :=
  "9d9595c5d94fb65b824f56e9999527dba9542481580d69feb89056aabaa0aa87".
Definition absent_hash : string :=
  "a09595c5d94fb65b824f56e9999527dba9542481580d69feb89056aabaa0aa87".

Definition test_content_0 : list byte := bytes_of "Test content 0".
Definition test_hash_0 : string :=
  "beea3c8760493a38acb612da8023a72517ce85ea14d723fab5bd7e67baca6c53".

(** [local.NewFilestore(path.Join(testDir, "tmp"), path.Join(testDir, "assets"))] *)
Definition test_store : local.Filestore := local.NewFilestore "tmp" "assets".

(** The tree after storing "Test content", and after also storing
    "Test content 0". *)
Definition one_blob_fs : local.fsys :=
  local.FS ∅ {[ "9d" := {[ test_hash := local.File test_content 420 ]} ]}.
Definition two_blobs_fs : local.fsys :=
  local.FS ∅ (<[ "be" := {[ test_hash_0 := local.File test_content_0 420 ]} ]>
                {[ "9d" := {[ test_hash := local.File test_content 420 ]} ]}).

(** An environment in which only the final chmod fails. *)
Definition chmod_fails : local.env :=
  local.Env "1"
    (fun c => match c with local.SysChmod => Some EPERM | _ => None end) 0.

(** A callback that answers every batch with [filepath.SkipDir]. *)
Definition skip_dir_callback : unit -> list string -> unit * option error :=
  fun s _ => (s, Some (Sentinel filepath_SkipDir)).

(** A callback that answers its first batch with [filepath.SkipDir] and
    accepts every later one; it counts its invocations. *)
Definition skip_first_callback : nat -> list string -> nat * option error :=
  fun calls _ =>
    (Datatypes.S calls,
     match calls with
     | O => Some (Sentinel filepath_SkipDir)
     | _ => None
     end).

(** A callback that counts its invocations and never fails. *)
Definition counting_callback : nat -> list string -> nat * option error :=
  fun calls _ => (Datatypes.S calls, None).

(** ** Vocabulary of the properties *)

(** [N] hashes handed out in batches of [K]: ceil(N/K) batches, all full
    except possibly the last, which holds the remainder (or [K]). *)
Definition well_batched (K N : Z) (batches : list (list string)) : Prop :=
  Z.of_nat (length batches) = ((N + K - 1) / K)%Z /\
  (forall i b, batches !! i = Some b -> (Datatypes.S i < length batches)%nat ->
               Z.of_nat (length b) = K) /\
  (forall b, last batches = Some b ->
             Z.of_nat (length b) = if (N mod K =? 0)%Z then K else (N mod K)%Z).

(** The batches together are exactly the hashes satisfying [P], each once. *)
Definition covers (batches : list (list string)) (P : string -> Prop) : Prop :=
  NoDup (concat batches) /\ forall h, h ∈ concat batches <-> P h.

(** A log of callback invocations in which only the last one may have
    failed, and whose failure is the result [r]. *)
Definition stops_at_error (L : list call) (r : option error) : Prop :=
  (r = None /\ Forall (fun c => c.2 = None) L) \/
  (exists L0 b e, r = Some e /\ L = L0 ++ [(b, Some e)] /\
                  Forall (fun c => c.2 = None) L0).

(** * Properties *)

(** ** Digests *)

Lemma EncodeToString_length (bs : list byte) :
  String.length (hex.EncodeToString bs) = (2 * length bs)%nat.
Proof. induction bs as [|b bs IH]; simpl; [reflexivity | rewrite IH; lia]. Qed.

Lemma be_length (n : nat) (x : Z) : length (sha256.be n x) = n.
Proof. unfold sha256.be. by rewrite length_map, length_rev, length_seq. Qed.

Lemma Sum_length (data : list byte) : length (sha256.Sum data) = 32%nat.
Proof.
  unfold sha256.Sum. cbv zeta. rewrite length_map.
  generalize (sha256.blocks
    (length (sha256.pad (map sha256.byteZ data)) / 64)
    sha256.init (sha256.pad (map sha256.byteZ data))).
  intros h. unfold sha256.out. by rewrite !length_app, !be_length.
Qed.

Lemma hashHex_length (data : list byte) : String.length (hashHex data) = 64%nat.
Proof. unfold hashHex. by rewrite EncodeToString_length, Sum_length. Qed.

Lemma byte_digits_lower_hex (b : byte) :
  hex.is_lower_hex (hex.digit (N.shiftr (Byte.to_N b) 4)) = true /\
  hex.is_lower_hex (hex.digit (N.land (Byte.to_N b) 15)) = true.
Proof. destruct b; vm_compute; split; reflexivity. Qed.

Lemma EncodeToString_lower_hex (bs : list byte) :
  hex.all_lower_hex (hex.EncodeToString bs) = true.
Proof.
  induction bs as [|b bs IH]; simpl; [reflexivity|].
  destruct (byte_digits_lower_hex b) as [-> ->]. by rewrite IH.
Qed.

Lemma hashHex_lower_hex (data : list byte) : hex.all_lower_hex (hashHex data) = true.
Proof. apply EncodeToString_lower_hex. Qed.

Lemma lower_hex_not_hidden (s : string) :
  hex.all_lower_hex s = true -> local.hidden s = false.
Proof.
  destruct s as [|c s]; simpl; [done|].
  intros [Hc _]%andb_true_iff. apply bool_decide_eq_false. by intros ->.
Qed.

Lemma hashHex_not_hidden (data : list byte) : local.hidden (hashHex data) = false.
Proof. apply lower_hex_not_hidden, hashHex_lower_hex. Qed.

#[global] Arguments hashHex : simpl never.
#[global] Arguments sha256.Sum : simpl never.

Example hashHex_test_content :
  hashHex (bytes_of "Test content") =
  "9d9595c5d94fb65b824f56e9999527dba9542481580d69feb89056aabaa0aa87".
Proof. vm_compute. reflexivity. Qed.

(** The two-block test vector of FIPS 180-4. *)
Example hashHex_two_blocks :
  hashHex (bytes_of "abcdbcdecdefdefgefghfghighijhijkijkljklmklmnlmnomnopnopq") =
  "248d6a61d20638b8e5c026930c3e6039a33ce45964ff2167f6ecedd419db06c1".
Proof. vm_compute. reflexivity. Qed.

Example hashHex_test_content_0 : hashHex test_content_0 = test_hash_0.
Proof. vm_compute. reflexivity. Qed.

Example hashHex_empty :
  hashHex [] =
  "e3b0c44298fc1c149afbf4c8996fb92427ae41e4649b934ca495991b7852b855".
Proof. vm_compute. reflexivity. Qed.

(** ** The in-memory backend *)

Lemma memory_Store_ok (f : memory.Filestore) (B : list byte) :
  memory.Store f (bytes_Reader B) =
  (hashHex B, None, memory.mk (<[hashHex B := B]> (memory.files f)), mkReader [] None).
Proof. reflexivity. Qed.

Lemma memory_Fetch_stored (f : memory.Filestore) (h : string) (data : list byte) :
  memory.files f !! h = Some data ->
  memory.Fetch f h = (Some (bytes_Reader data), None).
Proof. intros H. unfold memory.Fetch. by rewrite H. Qed.

Lemma memory_Store_preserves (f : memory.Filestore) (r : Reader) :
  memory.content_addressed f -> memory.content_addressed (memory.Store f r).1.2.
Proof.
  intros Hf. unfold memory.Store, io_ReadAll. destruct (rd_err r); simpl; [done|].
  intros k data. cbn. destruct (decide (k = hashHex (rd_data r))) as [->|Hne].
  - rewrite lookup_insert_eq. by intros [= <-].
  - rewrite lookup_insert_ne by done. apply Hf.
Qed.

Lemma memory_Remove_preserves (f : memory.Filestore) (h : string) :
  memory.content_addressed f -> memory.content_addressed (memory.Remove f h).2.
Proof.
  intros Hf. unfold memory.Remove. destruct (memory.files f !! h); simpl; [|done].
  intros k data. cbn. destruct (decide (k = h)) as [->|Hne].
  - by rewrite lookup_delete_eq.
  - rewrite lookup_delete_ne by done. apply Hf.
Qed.

Lemma memory_step_preserves (f : memory.Filestore) (o : memory.op) :
  memory.content_addressed f -> memory.content_addressed (memory.step f o).
Proof.
  destruct o; simpl; auto using memory_Store_preserves, memory_Remove_preserves.
Qed.

Lemma memory_fold_preserves (ops : list memory.op) (f : memory.Filestore) :
  memory.content_addressed f ->
  memory.content_addressed (fold_left memory.step ops f).
Proof.
  revert f. induction ops as [|o ops IH]; intros f Hf; simpl; [done|].
  apply IH, memory_step_preserves, Hf.
Qed.

(** ** The batching loop *)

Section BatchingFacts.
Context {S : Type}.
Variable K : Z.
Variable cb : S -> list string -> S * option error.

Lemma range_loop_app (l1 l2 hashes : list string) (s : S) :
  range_loop K cb (l1 ++ l2) hashes s =
  match range_loop K cb l1 hashes s with
  | (hashes', s', None) => range_loop K cb l2 hashes' s'
  | r => r
  end.
Proof.
  revert hashes s. induction l1 as [|k l1 IH]; intros hashes s; simpl; [done|].
  destruct (Z.of_nat (length (hashes ++ [k])) =? K)%Z; [|apply IH].
  destruct (cb s (hashes ++ [k])) as [s' [err|]]; [done | apply IH].
Qed.

(** An error that ends the loop is one the callback returned. *)
Lemma range_loop_error_from_callback (keys hashes : list string) (s : S)
    (hashes' : list string) (s' : S) (err : error) :
  range_loop K cb keys hashes s = (hashes', s', Some err) ->
  exists s0 b, (cb s0 b).2 = Some err.
Proof.
  revert hashes s. induction keys as [|k keys IH]; intros hashes s; simpl; [done|].
  destruct (Z.of_nat (length (hashes ++ [k])) =? K)%Z; [|apply IH].
  destruct (cb s (hashes ++ [k])) as [s1 [e|]] eqn:E; [|apply IH].
  intros [= <- <- <-]. exists s, (hashes ++ [k]). by rewrite E.
Qed.

Lemma logged_snd (st : S * list call) (b : list string) :
  (logged cb st b).2 = (cb st.1 b).2.
Proof. unfold logged. by destruct (cb st.1 b). Qed.

Lemma logged_eq (s : S) (L : list call) (b : list string) (s' : S) (r : option error) :
  cb s b = (s', r) -> logged cb (s, L) b = ((s', L ++ [(b, r)]), r).
Proof. unfold logged. simpl. by intros ->. Qed.

Section NeverFails.
Hypothesis HK : (1 <= K)%Z.
Hypothesis Hcb : forall s b, (cb s b).2 = None.

Lemma logged_never_fails (st : S * list call) (b : list string) :
  logged cb st b = (((cb st.1 b).1, st.2 ++ [(b, None)]), None).
Proof.
  unfold logged. specialize (Hcb st.1 b).
  destruct (cb st.1 b) as [s' r]; simpl in *. by subst.
Qed.

Lemma range_loop_batches (keys hashes : list string) (s : S) (L : list call) :
  (Z.of_nat (length hashes) < K)%Z ->
  exists s' bs hashes',
    range_loop K (logged cb) keys hashes (s, L) =
      (hashes', (s', L ++ map (fun b => (b, None)) bs), None) /\
    concat bs ++ hashes' = hashes ++ keys /\
    Forall (fun b => Z.of_nat (length b) = K) bs /\
    (Z.of_nat (length hashes') < K)%Z.
Proof.
  revert hashes s L. induction keys as [|k keys IH]; intros hashes s L Hlt.
  - exists s, [], hashes. simpl. by rewrite !app_nil_r.
  - simpl. destruct (Z.eqb_spec (Z.of_nat (length (hashes ++ [k]))) K) as [Heq|Hne].
    + rewrite logged_never_fails. simpl.
      destruct (IH [] (cb s (hashes ++ [k])).1 (L ++ [(hashes ++ [k], None)]))
        as (s' & bs & hashes' & Hrun & Hcat & Hall & Hlt'); [simpl; lia|].
      exists s', ((hashes ++ [k]) :: bs), hashes'. split_and!; [|simpl|by constructor|done].
      * rewrite Hrun. by rewrite <- app_assoc.
      * rewrite <- !app_assoc, Hcat. done.
    + destruct (IH (hashes ++ [k]) s L) as (s' & bs & hashes' & Hrun & Hcat & Hall & Hlt').
      { rewrite length_app in *. simpl in *. lia. }
      exists s', bs, hashes'. split_and!; [done| |done|done].
      by rewrite Hcat, <- app_assoc.
Qed.

Lemma batch_arith (q r : Z) :
  (0 <= q)%Z -> (0 <= r < K)%Z ->
  ((K * q + r) mod K = r)%Z /\
  ((K * q + r + K - 1) / K = q + (if (r =? 0)%Z then 0 else 1))%Z.
Proof.
  intros Hq Hr. split.
  - symmetry. apply (Z.mod_unique _ _ q); lia.
  - destruct (Z.eqb_spec r 0) as [->|Hne].
    + symmetry. apply (Z.div_unique _ _ _ (K - 1)); lia.
    + symmetry. apply (Z.div_unique _ _ _ (r - 1)); lia.
Qed.

Lemma concat_full_length (bs : list (list string)) :
  Forall (fun b => Z.of_nat (length b) = K) bs ->
  Z.of_nat (length (concat bs)) = (K * Z.of_nat (length bs))%Z.
Proof.
  induction 1 as [|b bs Hb _ IH]; simpl; [lia|].
  rewrite length_app. lia.
Qed.

(** With a callback that never fails, [iterate_over] hands out the
    keys in order, in ceil(N/K) batches. *)
Lemma iterate_over_batches (keys : list string) (s : S) (L : list call) :
  exists s' bs,
    iterate_over K (logged cb) keys (s, L) =
      ((s', L ++ map (fun b => (b, None)) bs), None) /\
    concat bs = keys /\
    well_batched K (Z.of_nat (length keys)) bs.
Proof.
  destruct (range_loop_batches keys [] s L) as (s' & bs & hashes' & Hrun & Hcat & Hall & Hlt);
    [simpl; lia|].
  simpl in Hcat. unfold iterate_over. rewrite Hrun.
  pose proof (concat_full_length bs Hall) as Hlen.
  assert (Z.of_nat (length keys) =
          K * Z.of_nat (length bs) + Z.of_nat (length hashes'))%Z as HN.
  { rewrite <- Hcat, length_app. lia. }
  destruct (batch_arith (Z.of_nat (length bs)) (Z.of_nat (length hashes')))
    as [Hmod Hdiv]; [lia|lia|].
  rewrite <- HN in Hmod, Hdiv.
  unfold flush. destruct hashes' as [|h0 hashes'].
  - exists s', bs. simpl. rewrite app_nil_r in Hcat. split_and!; [done|done|].
    simpl in Hmod, Hdiv. split_and!.
    + rewrite Hdiv. lia.
    + intros i b Hi _. by eapply Forall_lookup_1 in Hall.
    + intros b Hb. rewrite Hmod. simpl.
      apply last_Some in Hb as [l' ->].
      by apply Forall_app in Hall as [_ [? _]%Forall_cons].
  - exists (cb s' (h0 :: hashes')).1, (bs ++ [h0 :: hashes']).
    assert ((0 <? Z.of_nat (length (h0 :: hashes')))%Z = true) as ->
      by (apply Z.ltb_lt; simpl; lia).
    rewrite logged_never_fails. simpl fst. simpl snd.
    split_and!.
    + by rewrite map_app, app_assoc.
    + rewrite concat_app. simpl. by rewrite app_nil_r.
    + assert ((Z.of_nat (length (h0 :: hashes')) =? 0)%Z = false) as Hnz
        by (apply Z.eqb_neq; simpl; lia).
      rewrite Hnz in Hdiv. split_and!.
      * rewrite length_app, Hdiv. simpl. lia.
      * intros i b Hi Hlast. rewrite length_app in Hlast. simpl in Hlast.
        rewrite lookup_app_l in Hi by lia. by eapply Forall_lookup_1 in Hall.
      * intros b. rewrite last_snoc. intros [= <-]. rewrite Hmod, Hnz. done.
Qed.
End NeverFails.

(** Whatever the callback does, the loop stops at its first error and
    returns that error. *)
Lemma range_loop_stops (keys hashes : list string) (s : S) (L : list call) :
  Forall (fun c => c.2 = None) L ->
  exists hashes' s' L',
    range_loop K (logged cb) keys hashes (s, L) = (hashes', (s', L'), None) /\
      Forall (fun c => c.2 = None) L' \/
    exists e, range_loop K (logged cb) keys hashes (s, L) = (hashes', (s', L'), Some e) /\
      stops_at_error L' (Some e).
Proof.
  revert hashes s L. induction keys as [|k keys IH]; intros hashes s L HL.
  - exists hashes, s, L. by left.
  - simpl. destruct (Z.of_nat (length (hashes ++ [k])) =? K)%Z; [|by apply IH].
    destruct (cb s (hashes ++ [k])) as [s1 [e|]] eqn:E;
      rewrite (logged_eq _ _ _ _ _ E).
    + exists (hashes ++ [k]), s1, (L ++ [(hashes ++ [k], Some e)]). right.
      exists e. split; [done|]. right. by exists L, (hashes ++ [k]), e.
    + apply IH. apply Forall_app. split; [done|]. by constructor.
Qed.

Lemma iterate_over_stops (keys : list string) (s : S) :
  exists s' L r,
    iterate_over K (logged cb) keys (s, []) = ((s', L), r) /\ stops_at_error L r.
Proof.
  unfold iterate_over.
  destruct (range_loop_stops keys [] s []) as (hashes' & s' & L' & [[Hrun HL]|(e & Hrun & Hstop)]);
    [done| |].
  - rewrite Hrun. unfold flush.
    destruct (0 <? Z.of_nat (length hashes'))%Z.
    + destruct (cb s' hashes') as [s2 [e|]] eqn:E; rewrite (logged_eq _ _ _ _ _ E).
      * eexists _, _, _. split; [done|]. right. by exists L', hashes', e.
      * eexists _, _, _. split; [done|]. left. split; [done|].
        apply Forall_app. split; [done|]. by constructor.
    + eexists _, _, _. split; [done|]. by left.
  - rewrite Hrun. by eexists _, _, _.
Qed.
End BatchingFacts.

(** ** The local backend: Store *)

Lemma prefixPath_hashHex (f : local.Filestore) (data : list byte) :
  (0 <= local.PrefixSize f <= 64)%Z ->
  local.prefixPath f (hashHex data) =
  Ret (substring 0 (Z.to_nat (local.PrefixSize f)) (hashHex data), None).
Proof.
  intros HP. unfold local.prefixPath, slice_to, len. rewrite hashHex_length.
  destruct (Z.ltb_spec (Z.of_nat 64) (local.PrefixSize f)); [lia|].
  destruct (Z.leb_spec 0 (local.PrefixSize f)); [|lia].
  destruct (Z.leb_spec (local.PrefixSize f) (Z.of_nat 64)); [|lia].
  done.
Qed.

Lemma tmp_restore (m : gmap string local.file) (name : string)
    (g : local.file -> local.file) (x : local.file) :
  m !! name = None -> delete name (alter g name (<[name := x]> m)) = m.
Proof.
  intros Hfresh. apply map_eq. intros i. destruct (decide (i = name)) as [->|Hne].
  - by rewrite lookup_delete_eq.
  - by rewrite lookup_delete_ne, lookup_alter_ne, lookup_insert_ne.
Qed.

Lemma file_at_insert (fs : local.fsys) (t : gmap string local.file)
    (dir target : string) (d : gmap string local.file) (fl : local.file) (d' n' : string) :
  local.assets fs !! dir = Some d ->
  local.file_at (local.FS t (<[dir := <[target := fl]> d]> (local.assets fs))) d' n' =
  if decide (d' = dir /\ n' = target) then Some fl else local.file_at fs d' n'.
Proof.
  intros Hd. unfold local.file_at. simpl.
  destruct (decide (d' = dir)) as [->|Hne].
  - rewrite lookup_insert_eq, Hd. simpl.
    destruct (decide (n' = target)) as [->|Hn].
    + rewrite lookup_insert_eq. by rewrite decide_True.
    + rewrite lookup_insert_ne by done. rewrite decide_False; [done|by intros [_ ?]].
  - rewrite lookup_insert_ne by done. rewrite decide_False; [done|by intros [? _]].
Qed.

Ltac fs_simpl :=
  repeat first
    [ rewrite lookup_insert_eq
    | rewrite lookup_alter_eq
    | rewrite lookup_delete_eq
    | progress cbn -[alter insert delete lookup] in * ].

(** Without injected failures, [Store] returns the digest; the blob is
    promoted unless its target already exists, and nothing stays behind
    in the staging directory. *)
Lemma Store_no_faults (f : local.Filestore) (B : list byte) (fs : local.fsys)
    (suffix : string) :
  (0 <= local.PrefixSize f <= 64)%Z ->
  local.tmp fs !! ("image-upload-" +:+ suffix) = None ->
  let h := hashHex B in
  let p := substring 0 (Z.to_nat (local.PrefixSize f)) h in
  local.Store f (local.no_faults suffix) (bytes_Reader B) fs =
  Ret (h, None,
       match local.file_at fs p h with
       | Some _ => fs
       | None =>
           local.FS (local.tmp fs)
             (<[p := <[h := local.File B (local.TargetFileMode f)]>
                       (default ∅ (local.assets fs !! p))]> (local.assets fs))
       end).
Proof.
  intros HP Hfresh h p. destruct fs as [t a]. simpl in Hfresh.
  unfold local.Store, local.os_CreateTemp.
  cbn [local.fault local.no_faults local.temp_suffix local.tmp local.assets].
  rewrite Hfresh.
  unfold local.Store_body, local.io_Copy_tee.
  cbn [local.fault local.no_faults rd_data rd_err bytes_Reader].
  replace (match B with [] | _ => _ end) with
    (@None error, B,
     local.set_tmp_data (local.FS (<["image-upload-" +:+ suffix := local.File [] 384]> t) a)
       ("image-upload-" +:+ suffix) B) by (by destruct B).
  rewrite prefixPath_hashHex by done. subst h p.
  generalize (substring 0 (Z.to_nat (local.PrefixSize f)) (hashHex B)).
  generalize (hashHex B). intros h p.
  generalize ("image-upload-" +:+ suffix) Hfresh. intros name Hname.
  unfold local.File_Close, local.os_Stat, local.set_tmp_data.
  cbn [local.fault local.no_faults local.tmp local.assets].
  unfold local.file_at at 1. cbn [local.assets].
  destruct (local.file_at (local.FS t a) p h) as [fl|] eqn:Hat; unfold local.file_at in Hat;
    cbn [local.assets] in Hat; rewrite Hat.
  - unfold local.Store_deferred, local.os_Remove_tmp. fs_simpl.
    by rewrite tmp_restore.
  - unfold local.os_MkdirAll. fs_simpl.
    destruct (a !! p) as [d|] eqn:Hd; fs_simpl;
      unfold local.os_Rename; fs_simpl; rewrite ?Hd; fs_simpl;
      unfold local.os_Chmod; fs_simpl;
      unfold local.Store_deferred; fs_simpl;
      by rewrite tmp_restore, !insert_insert_eq.
Qed.

Lemma file_at_mkdir (t t' : gmap string local.file)
    (a : gmap string (gmap string local.file)) (dir d' n' : string) :
  a !! dir = None ->
  local.file_at (local.FS t (<[dir := ∅]> a)) d' n' = local.file_at (local.FS t' a) d' n'.
Proof.
  intros Hd. unfold local.file_at. simpl. destruct (decide (d' = dir)) as [->|Hne].
  - by rewrite lookup_insert_eq, Hd.
  - by rewrite lookup_insert_ne.
Qed.

Lemma io_Copy_tee_inv (e : local.env) (f : local.Filestore) (r : Reader)
    (name : string) (fs : local.fsys) (copyErr : option error) (data : list byte)
    (fs1 : local.fsys) :
  local.io_Copy_tee e f r name fs = (copyErr, data, fs1) ->
  fs1 = local.set_tmp_data fs name data /\
  (copyErr = None -> data = rd_data r /\ rd_err r = None).
Proof.
  unfold local.io_Copy_tee.
  destruct (rd_data r) as [|b0 data0]; [|destruct (local.fault e local.SysWrite)];
    intros [= <- <- <-]; by split.
Qed.

(** The frame [Store]'s body returns with: the temporary file either still
    lies in the staging directory and no asset path has changed, or it was
    renamed onto the target of the complete content. *)
Lemma Store_body_inv (f : local.Filestore) (e : local.env) (r : Reader) (name : string)
    (t : gmap string local.file) (a : gmap string (gmap string local.file))
    (x : local.file) (fr : local.frame) :
  local.Store_body f e r name (local.FS (<[name := x]> t) a) = Ret fr ->
  (local.tmpWasRenamed fr = false /\
   (forall d n, local.file_at (local.fr_fs fr) d n = local.file_at (local.FS t a) d n) /\
   (exists y, local.tmp (local.fr_fs fr) = <[name := y]> t) /\
   (local.fr_err fr = None ->
      local.tmpWasClosed fr = true /\ local.fr_hash fr = hashHex (rd_data r) /\
      rd_err r = None)) \/
  (local.tmpWasRenamed fr = true /\ local.tmpWasClosed fr = true /\
   rd_err r = None /\
   local.tmp (local.fr_fs fr) = delete name t /\
   exists p mode,
     local.prefixPath f (hashHex (rd_data r)) = Ret (p, None) /\
     local.file_at (local.fr_fs fr) p (hashHex (rd_data r)) =
       Some (local.File (rd_data r) mode) /\
     (forall d n, ~ (d = p /\ n = hashHex (rd_data r)) ->
                  local.file_at (local.fr_fs fr) d n = local.file_at (local.FS t a) d n) /\
     (local.fr_err fr = None -> local.fr_hash fr = hashHex (rd_data r)) /\
     (local.fr_err fr <> None -> local.fault e local.SysChmod <> None)).
Proof.
  unfold local.Store_body.
  destruct (local.io_Copy_tee e f r name (local.FS (<[name := x]> t) a))
    as [[copyErr data] fs1] eqn:Hcopy.
  apply io_Copy_tee_inv in Hcopy as [-> Hdata].
  unfold local.set_tmp_data. cbn [local.tmp local.assets].
  rewrite alter_insert_eq.
  assert (forall hash err cl c,
    let fr := local.Frame hash (Some err) false cl c
                (local.FS (<[name := local.File data (local.f_mode x)]> t) a) in
    local.tmpWasRenamed fr = false /\
    (forall d n, local.file_at (local.fr_fs fr) d n = local.file_at (local.FS t a) d n) /\
    (exists y, local.tmp (local.fr_fs fr) = <[name := y]> t) /\
    (local.fr_err fr = None ->
      local.tmpWasClosed fr = true /\ local.fr_hash fr = hashHex (rd_data r) /\
      rd_err r = None)) as Hfail.
  { intros. subst fr0. cbn. split_and!; [done|done|by eexists|done]. }
  destruct copyErr as [err|]; [intros [= <-]; left; by apply Hfail|].
  destruct Hdata as [-> Hr]; [done|].
  destruct (local.prefixPath f (hashHex (rd_data r))) as [[p [err|]]|m] eqn:Hp;
    [intros [= <-]; left; by apply Hfail | | done].
  destruct (local.File_Close e f false name) as [err|];
    [intros [= <-]; left; by apply Hfail|].
  destruct (local.os_Stat _ _ _ _ _) as [_|st];
    [|intros [= <-]; left; cbn; split_and!; [done|done|by eexists|done]].
  unfold local.os_MkdirAll. cbn [local.tmp local.assets].
  destruct (local.fault e local.SysMkdirAll); [intros [= <-]; left; by apply Hfail|].
  set (tmp1 := <[name := local.File (rd_data r) (local.f_mode x)]> t).
  assert (exists a1, (forall d n, local.file_at (local.FS tmp1 a1) d n =
                                  local.file_at (local.FS t a) d n) /\
                     is_Some (a1 !! p) /\
                     match a !! p with
                     | Some _ => inr (local.FS tmp1 a)
                     | None => inr (local.FS tmp1 (<[p:=∅]> a))
                     end = @inr error _ (local.FS tmp1 a1)) as (a1 & Ha1 & [d1 Hd1] & ->).
  { destruct (a !! p) as [d|] eqn:Hd.
    - exists a. split_and!; [done|by eexists|done].
    - exists (<[p:=∅]> a). split_and!; [|rewrite lookup_insert_eq; by eexists|done].
      intros d n. by apply file_at_mkdir. }
  unfold local.os_Rename. cbn [local.tmp local.assets].
  destruct (local.fault e local.SysRename).
  { intros [= <-]. left. cbn. split_and!; [done|done|by eexists|done]. }
  subst tmp1. rewrite lookup_insert_eq, Hd1, delete_insert_eq.
  unfold local.os_Chmod. cbn [local.tmp local.assets].
  destruct (local.fault e local.SysChmod) eqn:Hchmod.
  { intros [= <-]. right. cbn. split_and!; [done|done|done|done|].
    exists p, (local.f_mode x). split_and!; [done| | |done|congruence].
    - rewrite (file_at_insert (local.FS (delete name t) a1)) by done.
      by rewrite decide_True.
    - intros d n Hne. rewrite (file_at_insert (local.FS (delete name t) a1)) by done.
      rewrite decide_False by done. apply (Ha1 d n). }
  rewrite !lookup_insert_eq. cbn. rewrite lookup_insert_eq. cbn.
  rewrite !insert_insert_eq.
  intros [= <-]. right. cbn. split_and!; [done|done|done|done|].
  exists p, (local.TargetFileMode f). split_and!; [done| | |done|done].
  - rewrite (file_at_insert (local.FS (delete name t) a1)) by done.
    by rewrite decide_True.
  - intros d n Hne. rewrite (file_at_insert (local.FS (delete name t) a1)) by done.
    rewrite decide_False by done. apply (Ha1 d n).
Qed.

(** What a returning [Store] may have done, whatever the operating system
    injected: either no path of the asset tree resolves differently, or the
    complete content was renamed onto its target and at most the final
    chmod failed.  A successful call leaves the staging directory as it
    found it. *)
Lemma Store_inv (f : local.Filestore) (e : local.env) (r : Reader) (fs : local.fsys)
    (h : string) (err : option error) (fs' : local.fsys) :
  local.Store f e r fs = Ret (h, err, fs') ->
  (err = None ->
     local.tmp fs' = local.tmp fs /\ h = hashHex (rd_data r) /\ rd_err r = None) /\
  ((forall d n, local.file_at fs' d n = local.file_at fs d n) \/
   (rd_err r = None /\
    exists p mode,
      local.prefixPath f (hashHex (rd_data r)) = Ret (p, None) /\
      local.file_at fs' p (hashHex (rd_data r)) = Some (local.File (rd_data r) mode) /\
      (forall d n, ~ (d = p /\ n = hashHex (rd_data r)) ->
                   local.file_at fs' d n = local.file_at fs d n) /\
      (err <> None -> local.fault e local.SysChmod <> None))).
Proof.
  destruct fs as [t a].
  unfold local.Store, local.os_CreateTemp. cbn [local.tmp local.assets].
  generalize ("image-upload-" +:+ local.temp_suffix e). intros name.
  destruct (local.fault e local.SysCreateTemp); [intros [= <- <- <-]; split; [done|by left]|].
  destruct (t !! name) eqn:Hfresh; [intros [= <- <- <-]; split; [done|by left]|].
  destruct (local.Store_body _ _ _ _ _) as [fr|m] eqn:Hbody; [|done].
  apply Store_body_inv in Hbody
    as [(Hrn & Hat & [y Htmp] & Hok)|(Hrn & Hcl & Hr & Htmp & p & mode & Hp & Hnew & Hold & Hh & Hch)].
  - (* the temporary file was not renamed *)
    unfold local.Store_deferred. rewrite Hrn.
    destruct (if local.tmpWasClosed fr then None else _) as [closeErr|] eqn:Hclose.
    { intros [= <- <- <-]. split; [done|by left]. }
    unfold local.os_Remove_tmp.
    destruct (local.fault e local.SysRemove).
    { intros [= <- <- <-]. split; [done|by left]. }
    rewrite Htmp, lookup_insert_eq, delete_insert_eq.
    intros [= <- <- <-]. cbn [local.tmp]. split.
    + intros Herr. destruct (Hok Herr) as (_ & ? & ?).
      split_and!; [by apply delete_id|done|done].
    + left. intros d n. rewrite <- Hat. done.
  - (* the temporary file was renamed onto its target *)
    unfold local.Store_deferred. rewrite Hrn, Hcl.
    intros [= <- <- <-]. split.
    + intros Herr. split_and!; [|by apply Hh|done].
      rewrite Htmp. by apply delete_id.
    + right. split; [done|]. by exists p, mode.
Qed.

(** ** The local backend: Fetch, Size, Remove *)

Lemma Fetch_stored (f : local.Filestore) (s : string) (fs : local.fsys)
    (hash p : string) (fl : local.file) :
  local.prefixPath f hash = Ret (p, None) ->
  local.file_at fs p hash = Some fl ->
  local.Fetch f (local.no_faults s) fs hash =
  Ret (Some (bytes_Reader (local.f_data fl)), None).
Proof.
  intros Hp Hat. unfold local.Fetch, local.os_Open. rewrite Hp. cbn. by rewrite Hat.
Qed.

Lemma Fetch_absent (f : local.Filestore) (s : string) (fs : local.fsys)
    (hash p : string) :
  local.prefixPath f hash = Ret (p, None) ->
  local.file_at fs p hash = None ->
  local.Fetch f (local.no_faults s) fs hash =
  Ret (None, Some (Sentinel filestore_ErrNotExist)).
Proof.
  intros Hp Hat. unfold local.Fetch, local.os_Open. rewrite Hp. cbn. by rewrite Hat.
Qed.

Lemma Size_stored (f : local.Filestore) (s : string) (fs : local.fsys)
    (hash p : string) (fl : local.file) :
  local.prefixPath f hash = Ret (p, None) ->
  local.file_at fs p hash = Some fl ->
  local.Size f (local.no_faults s) fs hash =
  Ret (Z.of_nat (length (local.f_data fl)), None).
Proof.
  intros Hp Hat. unfold local.Size, local.os_Stat. rewrite Hp. cbn. by rewrite Hat.
Qed.

(** Removing a stored blob succeeds and nothing is reachable under its
    hash afterwards. *)
Lemma Remove_stored (f : local.Filestore) (s : string) (fs : local.fsys)
    (hash p : string) (fl : local.file) :
  local.prefixPath f hash = Ret (p, None) ->
  local.file_at fs p hash = Some fl ->
  exists fs',
    local.Remove f (local.no_faults s) fs hash = Ret (None, fs') /\
    local.file_at fs' p hash = None.
Proof.
  destruct fs as [t a]. intros Hp Hat. unfold local.Remove. rewrite Hp.
  unfold local.os_Remove_file. cbn [local.fault local.no_faults].
  unfold local.file_at in Hat. cbn [local.assets] in Hat.
  destruct (a !! p) as [d|] eqn:Hd; [|done].
  cbn -[lookup] in Hat. cbn -[lookup insert delete]. rewrite Hd. cbn -[lookup insert delete]. rewrite Hat. cbn -[lookup insert delete].
  unfold local.os_Open_dir. cbn -[lookup insert delete]. rewrite lookup_insert_eq.
  unfold local.Readdirnames1. cbn -[lookup insert delete map_to_list].
  destruct (map_to_list (delete hash d)) as [|[n0 f0] rest] eqn:Hlist.
  - cbn -[lookup insert delete]. unfold local.os_Remove_dir.
    cbn -[lookup insert delete]. rewrite ?lookup_insert_eq.
    apply map_to_list_empty_iff in Hlist. rewrite Hlist.
    rewrite bool_decide_eq_true_2 by done.
    eexists. split; [done|]. unfold local.file_at. cbn -[lookup insert delete].
    by rewrite lookup_delete_eq.
  - eexists. split; [done|]. unfold local.file_at. cbn -[lookup insert delete].
    rewrite lookup_insert_eq. cbn -[lookup insert delete]. by rewrite lookup_delete_eq.
Qed.

(** ** The local backend: Iterate *)

Lemma map_fmap {A B : Type} (g : A -> B) (l : list A) : map g l = g <$> l.
Proof. induction l as [|x l IH]; simpl; [done|by rewrite IH]. Qed.

Lemma elem_of_concat_map {A B : Type} (g : A -> list B) (l : list A) (b : B) :
  b ∈ concat (map g l) <-> exists x, x ∈ l /\ b ∈ g x.
Proof.
  induction l as [|a l IH]; simpl.
  - split; [by intros ?%elem_of_nil | by intros (? & ?%elem_of_nil & _)].
  - rewrite elem_of_app, IH. split.
    + intros [Hb|(x & Hx & Hb)]; [exists a | exists x]; split; try done;
        [by left | by right].
    + intros (x & [->|Hx]%elem_of_cons & Hb); [by left | right; by exists x].
Qed.

Lemma NoDup_concat_map {A B : Type} (g : A -> list B) (l : list A) :
  NoDup l ->
  (forall x, x ∈ l -> NoDup (g x)) ->
  (forall x y b, x ∈ l -> y ∈ l -> b ∈ g x -> b ∈ g y -> x = y) ->
  NoDup (concat (map g l)).
Proof.
  induction 1 as [|a l Ha Hl IH]; intros Hg Hinj; simpl; [constructor|].
  apply NoDup_app. split_and!.
  - apply Hg. by left.
  - intros b Hb (y & Hy & Hby)%elem_of_concat_map.
    assert (a = y) as -> by (eapply Hinj; [by left | by right | done | done]).
    done.
  - apply IH.
    + intros x Hx. apply Hg. by right.
    + intros x y b Hx Hy. apply Hinj; by right.
Qed.

Lemma elem_of_sorted_entries {A : Type} (m : gmap string A) (k : string) (v : A) :
  (k, v) ∈ local.sorted_entries m <-> m !! k = Some v.
Proof.
  unfold local.sorted_entries. rewrite merge_sort_Permutation.
  apply elem_of_map_to_list.
Qed.

Lemma NoDup_sorted_entries {A : Type} (m : gmap string A) :
  NoDup (local.sorted_entries m).
Proof.
  unfold local.sorted_entries. rewrite merge_sort_Permutation.
  apply NoDup_map_to_list.
Qed.

Lemma NoDup_sorted_names {A : Type} (m : gmap string A) :
  NoDup (map fst (local.sorted_entries m)).
Proof.
  unfold local.sorted_entries. rewrite map_fmap, merge_sort_Permutation.
  apply NoDup_fst_map_to_list.
Qed.

Lemma elem_of_sorted_names {A : Type} (m : gmap string A) (k : string) :
  k ∈ map fst (local.sorted_entries m) <-> is_Some (m !! k).
Proof.
  rewrite map_fmap, list_elem_of_fmap. split.
  - intros ([k' v] & -> & Hin). apply elem_of_sorted_entries in Hin. by exists v.
  - intros [v Hv]. exists (k, v). split; [done|]. by apply elem_of_sorted_entries.
Qed.

Lemma elem_of_walk_names (fs : local.fsys) (h : string) :
  h ∈ local.walk_names fs <->
  exists dir d, local.assets fs !! dir = Some d /\ is_Some (d !! h) /\
                local.hidden h = false.
Proof.
  unfold local.walk_names. rewrite elem_of_concat_map. split.
  - intros ([dir d] & Hd%elem_of_sorted_entries & Hh). unfold local.visible in Hh.
    simpl in Hh. apply list_elem_of_filter in Hh as [Hhid Hh%elem_of_sorted_names].
    by exists dir, d.
  - intros (dir & d & Hd & Hh & Hhid). exists (dir, d). split.
    + by apply elem_of_sorted_entries.
    + unfold local.visible. simpl. apply list_elem_of_filter.
      split; [done|]. by apply elem_of_sorted_names.
Qed.

(** In a sharded tree the walk meets every stored hash exactly once. *)
Lemma walk_names_stored (f : local.Filestore) (fs : local.fsys) :
  local.sharded f fs ->
  NoDup (local.walk_names fs) /\
  forall h, h ∈ local.walk_names fs <-> is_Some (local.stored f fs h).
Proof.
  intros Hsh. split.
  - unfold local.walk_names. apply NoDup_concat_map.
    + apply NoDup_sorted_entries.
    + intros [dir d] _. unfold local.visible. simpl.
      apply NoDup_filter, NoDup_sorted_names.
    + intros [dir1 d1] [dir2 d2] h Hd1%elem_of_sorted_entries Hd2%elem_of_sorted_entries.
      unfold local.visible. simpl.
      intros [_ [fl1 H1]%elem_of_sorted_names]%list_elem_of_filter
                    [_ [fl2 H2]%elem_of_sorted_names]%list_elem_of_filter.
      destruct (Hsh _ _ _ _ Hd1 H1) as [Hp1 _].
      destruct (Hsh _ _ _ _ Hd2 H2) as [Hp2 _].
      rewrite Hp1 in Hp2. injection Hp2 as <-. rewrite Hd1 in Hd2. by injection Hd2 as <-.
  - intros h. rewrite elem_of_walk_names. unfold local.stored, local.file_at. split.
    + intros (dir & d & Hd & [fl Hfl] & _).
      destruct (Hsh _ _ _ _ Hd Hfl) as [-> _]. rewrite Hd. simpl. by rewrite Hfl.
    + destruct (local.prefixPath f h) as [[dir [err|]]|m]; try by intros [? ?].
      destruct (local.assets fs !! dir) as [d|] eqn:Hd; simpl; [|by intros [? ?]].
      intros [fl Hfl]. exists dir, d. split_and!; [done|by exists fl|].
      by destruct (Hsh _ _ _ _ Hd Hfl).
Qed.

Section LocalIterate.
Context {S : Type}.
Variable K : Z.
Variable cb : S -> list string -> S * option error.

Lemma walk_files_range (entries : list (string * local.file)) (path : string)
    (hashes : list string) (s : S) :
  local.walk_files (local.walkFn K cb) (hashes, s) path entries =
  let '(hashes', s', r) := range_loop K cb (local.visible entries) hashes s in
  ((hashes', s'), r).
Proof.
  revert hashes s. induction entries as [|[n fl] entries IH]; intros hashes s; [done|].
  unfold local.visible. simpl. destruct (local.hidden n) eqn:Hn.
  - rewrite filter_cons_False by (by rewrite Hn). apply IH.
  - rewrite filter_cons_True by done. simpl.
    destruct (Z.of_nat (length (hashes ++ [n])) =? K)%Z; [|apply IH].
    destruct (cb s (hashes ++ [n])) as [s' [err|]]; [done|apply IH].
Qed.

(** The callback never returns one of the walk's control values. *)
Hypothesis Hcb : forall s b err,
  (cb s b).2 = Some err ->
  local.err_eq err filepath_SkipDir = false /\
  local.err_eq err filepath_SkipAll = false.

Lemma walk_dirs_range (dirs : list (string * gmap string local.file)) (root : string)
    (hashes : list string) (s : S) :
  local.walk_dirs (local.walkFn K cb) (hashes, s) root dirs =
  let '(hashes', s', r) :=
    range_loop K cb
      (concat (map (fun d => local.visible (local.sorted_entries d.2)) dirs)) hashes s in
  ((hashes', s'), r).
Proof.
  revert hashes s. induction dirs as [|[name d] dirs IH]; intros hashes s; [done|].
  simpl. unfold local.walk_dir. simpl. rewrite walk_files_range, range_loop_app.
  destruct (range_loop K cb (local.visible (local.sorted_entries d)) hashes s)
    as [[hashes' s'] [err|]] eqn:Hrun; [|apply IH].
  apply range_loop_error_from_callback in Hrun as (s0 & b & Herr).
  by destruct (Hcb _ _ _ Herr) as [-> _].
Qed.

(** With such a callback and a readable root, the local [Iterate] is the
    batching loop over the hashes of the walk. *)
Lemma local_Iterate_eq (f : local.Filestore) (e : local.env) (fs : local.fsys) (s : S) :
  local.fault e local.SysReaddirnames = None ->
  local.Iterate f e fs K cb s = iterate_over K cb (local.walk_names fs) s.
Proof.
  intros He. unfold local.Iterate, local.filepath_Walk. rewrite He. simpl.
  rewrite walk_dirs_range. unfold iterate_over, local.walk_names.
  destruct (range_loop K cb _ [] s) as [[hashes' s'] [err|]] eqn:Hrun; [|done].
  apply range_loop_error_from_callback in Hrun as (s0 & b & Herr).
  by destruct (Hcb _ _ _ Herr) as [-> ->].
Qed.
End LocalIterate.

(** The listing loop of package s3 is the batching loop when the listing
    carries no error. *)
Lemma s3_range_objInfos_eq {S : Type} (K : Z) (cb : S -> list string -> S * option error)
    (objInfos : list s3.ObjectInfo) (hashes : list string) (s : S) :
  Forall (fun o => s3.Err o = None) objInfos ->
  s3.range_objInfos K cb objInfos hashes s =
  range_loop K cb (map s3.Key objInfos) hashes s.
Proof.
  intros Hall. revert hashes s. induction Hall as [|o objInfos Ho _ IH]; intros hashes s;
    [done|].
  simpl. rewrite Ho.
  destruct (Z.of_nat (length (hashes ++ [s3.Key o])) =? K)%Z; [|apply IH].
  destruct (cb s (hashes ++ [s3.Key o])) as [s' [err|]]; [done|apply IH].
Qed.

(** * The storage protocol *)

(** ** Store *)

Lemma stored_empty (f : local.Filestore) (h : string) :
  local.stored f local.empty_fs h = None.
Proof. unfold local.stored. by destruct (local.prefixPath f h) as [[? [?|]]|]. Qed.

Lemma stored_file_at (f : local.Filestore) (fs : local.fsys) (h p : string) :
  local.prefixPath f h = Ret (p, None) ->
  local.stored f fs h = local.file_at fs p h.
Proof. intros Hp. unfold local.stored. by rewrite Hp. Qed.

(** C1. For every byte sequence B, Store(B) succeeds and returns the
    lowercase hex SHA-256 digest of B, 64 characters long, and a Fetch of
    that hash then yields exactly B.  The in-memory store does so in every
    state.  The local store does so when no system call fails, the
    temporary name is free, the prefix size lies between 1 and 64, and
    whatever is already stored under the digest of B is B itself. *)
Theorem C1_store_then_fetch (B : list byte) (m : memory.Filestore)
    (f : local.Filestore) (fs : local.fsys) (s1 s2 : string)
    (HP : (1 <= local.PrefixSize f <= 64)%Z)
    (Hfresh : local.tmp fs !! ("image-upload-" +:+ s1) = None)
    (Hsame : forall fl, local.stored f fs (hashHex B) = Some fl -> local.f_data fl = B) :
  String.length (hashHex B) = 64%nat /\
  hex.all_lower_hex (hashHex B) = true /\
  (exists m' r',
     memory.Store m (bytes_Reader B) = (hashHex B, None, m', r') /\
     memory.Fetch m' (hashHex B) = (Some (bytes_Reader B), None)) /\
  (exists fs',
     local.Store f (local.no_faults s1) (bytes_Reader B) fs = Ret (hashHex B, None, fs') /\
     local.Fetch f (local.no_faults s2) fs' (hashHex B) = Ret (Some (bytes_Reader B), None)).
Proof.
  split_and!.
  - apply hashHex_length.
  - apply hashHex_lower_hex.
  - eexists _, _. split; [apply memory_Store_ok|].
    apply memory_Fetch_stored. cbn. apply lookup_insert_eq.
  - assert (local.prefixPath f (hashHex B) =
            Ret (substring 0 (Z.to_nat (local.PrefixSize f)) (hashHex B), None)) as Hp
      by (apply prefixPath_hashHex; lia).
    eexists. split; [apply Store_no_faults; [lia|done]|].
    rewrite (stored_file_at _ _ _ _ Hp) in Hsame.
    destruct (local.file_at fs _ (hashHex B)) as [fl|] eqn:Hat.
    + rewrite (Fetch_stored _ _ _ _ _ _ Hp Hat). by rewrite (Hsame fl).
    + rewrite (Fetch_stored _ _ _ _ _ (local.File B (local.TargetFileMode f)) Hp); [done|].
      unfold local.file_at. cbn -[lookup insert]. rewrite lookup_insert_eq.
      cbn -[lookup insert]. apply lookup_insert_eq.
Qed.

Lemma C1_store_then_fetch_witness :
  String.length (hashHex test_content) = 64%nat /\
  hex.all_lower_hex (hashHex test_content) = true /\
  (exists m' r',
     memory.Store memory.NewFilestore (bytes_Reader test_content) =
       (hashHex test_content, None, m', r') /\
     memory.Fetch m' (hashHex test_content) = (Some (bytes_Reader test_content), None)) /\
  (exists fs',
     local.Store test_store (local.no_faults "1") (bytes_Reader test_content) local.empty_fs =
       Ret (hashHex test_content, None, fs') /\
     local.Fetch test_store (local.no_faults "2") fs' (hashHex test_content) =
       Ret (Some (bytes_Reader test_content), None)).
Proof.
  apply (C1_store_then_fetch test_content memory.NewFilestore test_store local.empty_fs "1" "2").
  - unfold test_store, local.NewFilestore, local.DefaultPrefixSize. simpl. lia.
  - reflexivity.
  - intros fl. rewrite stored_empty. discriminate.
Defined.

(** C2, as stated, fails: when the final chmod fails, Store returns an
    error although the blob has already been renamed onto its target path
    [assets/9d/<hash>] and can be fetched. *)
Lemma C2_counterexample :
  exists err fs',
    local.Store test_store chmod_fails (bytes_Reader test_content) local.empty_fs =
      Ret (EmptyString, Some err, fs') /\
    local.file_at fs' "9d" test_hash = Some (local.File test_content 384) /\
    local.Fetch test_store (local.no_faults "") fs' test_hash =
      Ret (Some (bytes_Reader test_content), None).
Proof.
  eexists _, _. split_and!.
  - vm_compute. reflexivity.
  - vm_compute. reflexivity.
  - vm_compute. reflexivity.
Qed.

(** C2, amended.  Whenever the local Store returns an error, every hash
    resolves to the same stored file as before the call, so nothing new and
    nothing partial is reachable; the one exception is a failure of the
    final chmod, after the atomic rename: then the complete content is
    stored under its own hash and every other hash is as before. *)
Theorem C2_failed_store_is_atomic (f : local.Filestore) (e : local.env) (r : Reader)
    (fs fs' : local.fsys) (h : string) (err : error)
    (HP : (1 <= local.PrefixSize f)%Z)
    (Hstore : local.Store f e r fs = Ret (h, Some err, fs')) :
  (forall k, local.stored f fs' k = local.stored f fs k) \/
  (local.fault e local.SysChmod <> None /\
   rd_err r = None /\
   (exists mode, local.stored f fs' (hashHex (rd_data r)) =
                 Some (local.File (rd_data r) mode)) /\
   forall k, k <> hashHex (rd_data r) -> local.stored f fs' k = local.stored f fs k).
Proof.
  apply Store_inv in Hstore as [_ [Hsame|(Hr & p & mode & Hp & Hnew & Hold & Hch)]].
  - left. intros k. unfold local.stored.
    destruct (local.prefixPath f k) as [[dir [?|]]|]; [done|apply Hsame|done].
  - right. split_and!; [by apply Hch|done| |].
    + exists mode. by rewrite (stored_file_at _ _ _ _ Hp).
    + intros k Hk. unfold local.stored.
      destruct (local.prefixPath f k) as [[dir [?|]]|]; [done| |done].
      apply Hold. by intros [_ ?].
Qed.

Lemma C2_failed_store_is_atomic_witness :
  let fs' := local.FS ∅ {[ "9d" := {[ test_hash := local.File test_content 384 ]} ]} in
  (forall k, local.stored test_store fs' k = local.stored test_store local.empty_fs k) \/
  (local.fault chmod_fails local.SysChmod <> None /\
   rd_err (bytes_Reader test_content) = None /\
   (exists mode, local.stored test_store fs' (hashHex (rd_data (bytes_Reader test_content))) =
                 Some (local.File (rd_data (bytes_Reader test_content)) mode)) /\
   forall k, k <> hashHex (rd_data (bytes_Reader test_content)) ->
             local.stored test_store fs' k = local.stored test_store local.empty_fs k).
Proof.
  intros fs'.
  apply (C2_failed_store_is_atomic test_store chmod_fails (bytes_Reader test_content)
           local.empty_fs fs' EmptyString
           (Errorf "setting file mode"
              (PathError "chmod" (local.targetPath test_store "9d" test_hash) (Errno EPERM)))).
  - unfold test_store, local.NewFilestore, local.DefaultPrefixSize. simpl. lia.
  - vm_compute. reflexivity.
Defined.

(** C3. Storing the same bytes twice on the local backend returns the
    same hash both times, the second call changing nothing because the
    destination already exists; and whenever a call returns successfully,
    whatever the operating system did, the staging directory is as it was
    before the call: no temporary entry of that call is left. *)
Theorem C3_store_twice (f : local.Filestore) (B : list byte) (fs : local.fsys)
    (s1 s2 : string)
    (e : local.env) (r : Reader) (fs0 fs' : local.fsys) (h : string)
    (HP : (1 <= local.PrefixSize f <= 64)%Z)
    (Hfresh1 : local.tmp fs !! ("image-upload-" +:+ s1) = None)
    (Hfresh2 : local.tmp fs !! ("image-upload-" +:+ s2) = None)
    (Hok : local.Store f e r fs0 = Ret (h, None, fs')) :
  (exists fs1,
     local.Store f (local.no_faults s1) (bytes_Reader B) fs = Ret (hashHex B, None, fs1) /\
     local.Store f (local.no_faults s2) (bytes_Reader B) fs1 = Ret (hashHex B, None, fs1) /\
     local.tmp fs1 = local.tmp fs) /\
  local.tmp fs' = local.tmp fs0 /\
  h = hashHex (rd_data r).
Proof.
  split.
  - pose proof (Store_no_faults f B fs s1 ltac:(lia) Hfresh1) as H1. cbv zeta in H1.
    eexists. split; [exact H1|].
    assert (local.tmp (match local.file_at fs
                          (substring 0 (Z.to_nat (local.PrefixSize f)) (hashHex B))
                          (hashHex B) with
                       | Some _ => fs
                       | None => local.FS (local.tmp fs)
                           (<[substring 0 (Z.to_nat (local.PrefixSize f)) (hashHex B) :=
                              <[hashHex B := local.File B (local.TargetFileMode f)]>
                                (default ∅ (local.assets fs !!
                                   substring 0 (Z.to_nat (local.PrefixSize f)) (hashHex B)))]>
                              (local.assets fs))
                       end) = local.tmp fs) as Htmp by (by destruct (local.file_at _ _ _)).
    split; [|exact Htmp].
    rewrite Store_no_faults; [|lia|by rewrite Htmp]. cbv zeta.
    destruct (local.file_at fs _ (hashHex B)) as [fl|] eqn:Hat; [by rewrite Hat|].
    unfold local.file_at at 1. cbn -[lookup insert].
    rewrite lookup_insert_eq. cbn -[lookup insert]. by rewrite lookup_insert_eq.
  - apply Store_inv in Hok as [Hok _]. destruct Hok as (? & ? & ?); done.
Qed.

Lemma C3_store_twice_witness :
  (exists fs1,
     local.Store test_store (local.no_faults "1") (bytes_Reader test_content) local.empty_fs =
       Ret (hashHex test_content, None, fs1) /\
     local.Store test_store (local.no_faults "2") (bytes_Reader test_content) fs1 =
       Ret (hashHex test_content, None, fs1) /\
     local.tmp fs1 = local.tmp local.empty_fs) /\
  local.tmp two_blobs_fs = local.tmp one_blob_fs /\
  test_hash_0 = hashHex (rd_data (bytes_Reader test_content_0)).
Proof.
  apply (C3_store_twice test_store test_content local.empty_fs "1" "2"
           (local.no_faults "2") (bytes_Reader test_content_0) one_blob_fs two_blobs_fs
           test_hash_0).
  - unfold test_store, local.NewFilestore, local.DefaultPrefixSize. simpl. lia.
  - reflexivity.
  - reflexivity.
  - vm_compute. reflexivity.
Defined.

Example local_store_test_content :
  local.Store test_store (local.no_faults "1") (bytes_Reader test_content) local.empty_fs =
  Ret (test_hash, None, one_blob_fs).
Proof. vm_compute. reflexivity. Qed.

Example local_store_test_content_0 :
  local.Store test_store (local.no_faults "2") (bytes_Reader test_content_0) one_blob_fs =
  Ret (test_hash_0, None, two_blobs_fs).
Proof. vm_compute. reflexivity. Qed.

(** ** Iterate *)

Lemma keys_length {A : Type} (m : gmap string A) (order : list string) :
  NoDup order -> (forall k, k ∈ order <-> is_Some (m !! k)) ->
  length order = size m.
Proof.
  intros Hnd Hin. rewrite <- length_map_to_list, <- (length_fmap fst).
  apply Permutation_length, NoDup_Permutation; [done|apply NoDup_fst_map_to_list|].
  intros k. rewrite Hin, list_elem_of_fmap. split.
  - intros [v Hv]. exists (k, v). split; [done|]. by apply elem_of_map_to_list.
  - intros ([k' v] & -> & Hv%elem_of_map_to_list). by exists v.
Qed.

Lemma memory_keys_picked (m : memory.Filestore) (pick : list string -> list string) :
  pick (memory.keys m) ≡ₚ memory.keys m ->
  NoDup (pick (memory.keys m)) /\
  forall k, k ∈ pick (memory.keys m) <-> is_Some (memory.files m !! k).
Proof.
  intros Hpick. split.
  - rewrite Hpick. apply NoDup_fst_map_to_list.
  - intros k. rewrite Hpick. unfold memory.keys. rewrite list_elem_of_fmap. split.
    + intros ([k' v] & -> & Hv%elem_of_map_to_list). by exists v.
    + intros [v Hv]. exists (k, v). split; [done|]. by apply elem_of_map_to_list.
Qed.

Lemma logged_never_signals {S : Type} (cb : S -> list string -> S * option error) :
  (forall s b, (cb s b).2 = None) ->
  forall st b err, (logged cb st b).2 = Some err ->
    local.err_eq err filepath_SkipDir = false /\
    local.err_eq err filepath_SkipAll = false.
Proof. intros Hcb st b err. rewrite logged_snd, Hcb. discriminate. Qed.

(** C4. With a batch size K >= 1 and a callback that never fails,
    Iterate invokes the callback ceil(N/K) times on a store of N blobs:
    every batch but the last has K hashes, the last has N mod K (or K when
    K divides N), and the batches together are the stored hashes, each
    exactly once.  In memory, for whatever order the map is enumerated in;
    on the local tree, when the root can be listed and the tree is sharded
    by hash prefix; on the object store, for a complete listing. *)
Theorem C4_iterate_batches {S : Type} (K : Z)
    (cb : S -> list string -> S * option error) (s : S)
    (m : memory.Filestore) (pick : list string -> list string)
    (f : local.Filestore) (e : local.env) (fs : local.fsys)
    (g : s3.Filestore) (b : gmap string (list byte)) (objInfos : list s3.ObjectInfo)
    (HK : (1 <= K)%Z)
    (Hcb : forall s b, (cb s b).2 = None)
    (Hpick : pick (memory.keys m) ≡ₚ memory.keys m)
    (HP : (1 <= local.PrefixSize f)%Z)
    (He : local.fault e local.SysReaddirnames = None)
    (Hsh : local.sharded f fs)
    (Hlist : s3.listing_of b objInfos) :
  (exists s' bs,
     memory.Iterate m pick K (logged cb) (s, []) =
       ((s', map (fun b => (b, None)) bs), None) /\
     well_batched K (Z.of_nat (size (memory.files m))) bs /\
     covers bs (fun h => is_Some (memory.files m !! h))) /\
  (exists s' bs,
     local.Iterate f e fs K (logged cb) (s, []) =
       ((s', map (fun b => (b, None)) bs), None) /\
     well_batched K (Z.of_nat (length (concat bs))) bs /\
     covers bs (fun h => is_Some (local.stored f fs h))) /\
  (exists s' bs,
     s3.Iterate K (logged cb) g objInfos (s, []) =
       ((s', map (fun b => (b, None)) bs), None) /\
     well_batched K (Z.of_nat (size b)) bs /\
     covers bs (fun h => is_Some (b !! h))).
Proof.
  split_and!.
  - destruct (memory_keys_picked m pick Hpick) as [Hnd Hin]. unfold memory.Iterate.
    destruct (iterate_over_batches K cb HK Hcb (pick (memory.keys m)) s [])
      as (s' & bs & Hrun & Hcat & Hwb).
    exists s', bs. split_and!; [done| |].
    + by rewrite <- (keys_length (memory.files m) (pick (memory.keys m))).
    + split; by rewrite Hcat.
  - rewrite (local_Iterate_eq K (logged cb) (logged_never_signals cb Hcb) f e fs (s, []) He).
    destruct (iterate_over_batches K cb HK Hcb (local.walk_names fs) s [])
      as (s' & bs & Hrun & Hcat & Hwb).
    destruct (walk_names_stored f fs Hsh) as [Hnd Hin].
    exists s', bs. split_and!; [done| |].
    + by rewrite Hcat.
    + split; by rewrite Hcat.
  - destruct Hlist as (Herr & Hnd & Hin). unfold s3.Iterate.
    rewrite (s3_range_objInfos_eq K (logged cb) objInfos [] (s, []) Herr).
    destruct (iterate_over_batches K cb HK Hcb (map s3.Key objInfos) s [])
      as (s' & bs & Hrun & Hcat & Hwb).
    unfold iterate_over in Hrun.
    exists s', bs. split_and!; [done| |].
    + by rewrite <- (keys_length b (map s3.Key objInfos)).
    + split; by rewrite Hcat.
Qed.

Lemma sharded_two_blobs : local.sharded test_store two_blobs_fs.
Proof.
  intros dir d n fl Hd Hn. cbn in Hd.
  apply lookup_insert_Some in Hd as [[<- <-]|[_ [<- <-]%lookup_singleton_Some]];
    apply lookup_singleton_Some in Hn as [<- <-]; split; reflexivity.
Qed.

Lemma C4_iterate_batches_witness :
  let m := memory.mk {[ test_hash := test_content ]} in
  let b : gmap string (list byte) := {[ test_hash := test_content ]} in
  (exists s' bs,
     memory.Iterate m (fun l => l) 5 (logged counting_callback) (0%nat, []) =
       ((s', map (fun b => (b, None)) bs), None) /\
     well_batched 5 (Z.of_nat (size (memory.files m))) bs /\
     covers bs (fun h => is_Some (memory.files m !! h))) /\
  (exists s' bs,
     local.Iterate test_store (local.no_faults "") two_blobs_fs 5
         (logged counting_callback) (0%nat, []) =
       ((s', map (fun b => (b, None)) bs), None) /\
     well_batched 5 (Z.of_nat (length (concat bs))) bs /\
     covers bs (fun h => is_Some (local.stored test_store two_blobs_fs h))) /\
  (exists s' bs,
     s3.Iterate 5 (logged counting_callback) (s3.mk "localhost:9000" "bucket")
         [s3.Obj test_hash None] (0%nat, []) =
       ((s', map (fun b => (b, None)) bs), None) /\
     well_batched 5 (Z.of_nat (size b)) bs /\
     covers bs (fun h => is_Some (b !! h))).
Proof.
  intros m b.
  apply (C4_iterate_batches 5 counting_callback 0%nat m (fun l => l)
           test_store (local.no_faults "") two_blobs_fs
           (s3.mk "localhost:9000" "bucket") b [s3.Obj test_hash None]).
  - lia.
  - reflexivity.
  - reflexivity.
  - unfold test_store, local.NewFilestore, local.DefaultPrefixSize. simpl. lia.
  - reflexivity.
  - exact sharded_two_blobs.
  - split_and!; [by repeat constructor|apply NoDup_singleton|]. intros k. cbn.
    rewrite list_elem_of_singleton. split.
    + intros ->. exists test_content. reflexivity.
    + intros [? Hk]. subst b. by apply lookup_singleton_Some in Hk as [? _].
Defined.

(** The sharded layout is the one [Store] and [Remove] maintain. *)
Lemma Store_preserves_sharded (f : local.Filestore) (e : local.env) (r : Reader)
    (fs fs' : local.fsys) (h : string) (err : option error) :
  local.sharded f fs ->
  local.Store f e r fs = Ret (h, err, fs') ->
  local.sharded f fs'.
Proof.
  intros Hsh Hstore dir d n fl Hd Hn.
  assert (local.file_at fs' dir n = Some fl) as Hat
    by (unfold local.file_at; rewrite Hd; done).
  assert (forall fl0, local.file_at fs dir n = Some fl0 ->
            local.prefixPath f n = Ret (dir, None) /\ local.hidden n = false) as Hold.
  { unfold local.file_at. intros fl0.
    destruct (local.assets fs !! dir) as [d0|] eqn:Hd0; [|done]. simpl.
    intros Hn0. by apply (Hsh dir d0 n fl0). }
  apply Store_inv in Hstore as [_ [Hsame|(Hr & p & mode & Hp & Hnew & Hother & _)]].
  - rewrite Hsame in Hat. by apply (Hold fl).
  - destruct (decide (dir = p /\ n = hashHex (rd_data r))) as [[-> ->]|Hne].
    + split; [done|apply hashHex_not_hidden].
    + rewrite (Hother _ _ Hne) in Hat. by apply (Hold fl).
Qed.

Lemma Remove_preserves_sharded (f : local.Filestore) (e : local.env)
    (fs fs' : local.fsys) (h : string) (err : option error) :
  local.sharded f fs ->
  local.Remove f e fs h = Ret (err, fs') ->
  local.sharded f fs'.
Proof.
  intros Hsh. destruct fs as [t a].
  assert (forall p d0, a !! p = Some d0 ->
            local.sharded f (local.FS t (<[p := delete h d0]> a))) as Hdel.
  { intros p d0 Hd0 dir d n fl Hd Hn. cbn in Hd.
    apply lookup_insert_Some in Hd as [[-> <-]|[_ Hd]].
    - apply lookup_delete_Some in Hn as [_ Hn]. by apply (Hsh dir d0 n fl).
    - by apply (Hsh dir d n fl). }
  unfold local.Remove.
  destruct (local.prefixPath f h) as [[p [?|]]|]; [by intros [= <- <-]| |done].
  unfold local.os_Remove_file. cbn [local.tmp local.assets].
  destruct (local.fault e local.SysRemove); [by intros [= <- <-]|].
  destruct (a !! p) as [d0|] eqn:Hd0; cbn -[lookup insert delete]; [|by intros [= <- <-]].
  destruct (d0 !! h) as [fl0|]; cbn -[lookup insert delete]; [|by intros [= <- <-]].
  specialize (Hdel p d0 Hd0).
  unfold local.os_Open_dir. cbn [local.tmp local.assets].
  destruct (local.fault e local.SysOpen); [by intros [= <- <-]|].
  rewrite lookup_insert_eq.
  destruct (local.Readdirnames1 e (delete h d0)) as [err1|?]; [|by intros [= <- <-]].
  destruct (errors_Is err1 io_EOF); [|by intros [= <- <-]].
  unfold local.os_Remove_dir. cbn [local.tmp local.assets].
  destruct (local.fault e local.SysRemoveDir); [by intros [= <- <-]|].
  rewrite lookup_insert_eq.
  destruct (bool_decide (delete h d0 = ∅)); [|by intros [= <- <-]].
  intros [= <- <-]. intros dir d n fl Hd Hn. cbn in Hd.
  apply lookup_delete_Some in Hd as [Hne Hd].
  rewrite lookup_insert_ne in Hd by done. by apply (Hsh dir d n fl).
Qed.

Lemma sharded_empty (f : local.Filestore) : local.sharded f local.empty_fs.
Proof. intros dir d n fl Hd. cbn in Hd. by rewrite lookup_empty in Hd. Qed.

(** A worked instance: 21 hashes in batches of 5 make 5 invocations, the
    last one with a single hash. *)
Lemma iterate_21_by_5 (names : list string) :
  length names = 21%nat ->
  exists s' bs h,
    iterate_over 5 (logged counting_callback) names (0%nat, []) =
      ((s', map (fun b => (b, None)) bs), None) /\
    length bs = 5%nat /\ last bs = Some [h] /\ concat bs = names.
Proof.
  intros Hlen.
  destruct (iterate_over_batches 5 counting_callback ltac:(lia) ltac:(done) names 0%nat [])
    as (s' & bs & Hrun & Hcat & Hcount & _ & Hlast).
  rewrite Hlen in Hcount, Hlast. change ((Z.of_nat 21 + 5 - 1) / 5)%Z with 5%Z in Hcount.
  assert (length bs = 5%nat) as Hbs by lia.
  destruct (last bs) as [b|] eqn:Hb.
  - specialize (Hlast b eq_refl). change (Z.of_nat 21 mod 5 =? 0)%Z with false in Hlast.
    change (Z.of_nat 21 mod 5)%Z with 1%Z in Hlast.
    destruct b as [|h [|? ?]]; simpl in Hlast; try lia.
    by exists s', bs, h.
  - apply last_None in Hb. subst bs. done.
Qed.

(** Whatever the callback does, the in-memory Iterate stops at its first
    error and returns exactly that error. *)
Lemma memory_Iterate_stops {S : Type} (m : memory.Filestore)
    (pick : list string -> list string)
    (K : Z) (cb : S -> list string -> S * option error) (s : S) :
  exists s' L r,
    memory.Iterate m pick K (logged cb) (s, []) = ((s', L), r) /\ stops_at_error L r.
Proof. apply iterate_over_stops. Qed.

(** The local Iterate does so for callbacks whose errors are not the
    control values of filepath.Walk. *)
Lemma local_Iterate_stops {S : Type} (f : local.Filestore) (e : local.env) (fs : local.fsys)
    (K : Z) (cb : S -> list string -> S * option error) (s : S) :
  local.fault e local.SysReaddirnames = None ->
  (forall s b err, (cb s b).2 = Some err ->
     local.err_eq err filepath_SkipDir = false /\
     local.err_eq err filepath_SkipAll = false) ->
  exists s' L r,
    local.Iterate f e fs K (logged cb) (s, []) = ((s', L), r) /\ stops_at_error L r.
Proof.
  intros He Hcb. rewrite local_Iterate_eq; [apply iterate_over_stops| |done].
  intros st b err. rewrite logged_snd. apply Hcb.
Qed.

(** C5, observed on the code.  The local Iterate hands the callback's
    error to filepath.Walk, for which [filepath.SkipDir] is not an error
    but the request to skip the rest of the directory.  On the tree holding
    the blobs "Test content" and "Test content 0", with batch size 1, a
    callback that returns SkipDir on the first batch is invoked again, on a
    later batch that holds two hashes; if it accepts that batch, Iterate
    returns nil and the error is lost.  The in-memory Iterate stops after
    the first invocation and returns the error. *)
Theorem C5_local_Iterate_continues_after_SkipDir :
  local.Iterate test_store (local.no_faults "") two_blobs_fs 1
    (logged skip_dir_callback) (tt, []) =
    ((tt, [ ([test_hash], Some (Sentinel filepath_SkipDir));
            ([test_hash; test_hash_0], Some (Sentinel filepath_SkipDir)) ]),
     Some (Sentinel filepath_SkipDir)) /\
  local.Iterate test_store (local.no_faults "") two_blobs_fs 1
    (logged skip_first_callback) (0%nat, []) =
    ((2%nat, [ ([test_hash], Some (Sentinel filepath_SkipDir));
               ([test_hash; test_hash_0], None) ]),
     None) /\
  memory.Iterate (memory.mk {[ test_hash := test_content; test_hash_0 := test_content_0 ]})
    (fun _ => [test_hash; test_hash_0]) 1 (logged skip_first_callback) (0%nat, []) =
    ((1%nat, [ ([test_hash], Some (Sentinel filepath_SkipDir)) ]),
     Some (Sentinel filepath_SkipDir)).
Proof. split_and!; vm_compute; reflexivity. Qed.

(** ** Remove and Size *)

Lemma memory_Remove_then_Fetch (m : memory.Filestore) (h : string) (data : list byte) :
  memory.files m !! h = Some data ->
  exists m',
    memory.Remove m h = (None, m') /\
    memory.Fetch m' h = (None, Some (Sentinel filestore_ErrNotExist)) /\
    NotFound (memory.Fetch m' h).2.
Proof.
  intros Hm. unfold memory.Remove. rewrite Hm. eexists. split; [done|].
  unfold memory.Fetch. cbn. rewrite lookup_delete_eq. split; [done|].
  eexists. by split.
Qed.

Lemma memory_Remove_absent (m : memory.Filestore) (h : string) :
  memory.files m !! h = None ->
  memory.Remove m h = (Some (Sentinel filestore_ErrNotExist), m) /\
  NotFound (memory.Remove m h).1.
Proof.
  intros Hm. unfold memory.Remove. rewrite Hm. split; [done|]. eexists. by split.
Qed.

Lemma memory_Size_stored (m : memory.Filestore) (h : string) (data : list byte) :
  memory.files m !! h = Some data ->
  memory.Size m h = (Z.of_nat (length data), None).
Proof. intros Hm. unfold memory.Size. by rewrite Hm. Qed.

Lemma memory_Size_absent (m : memory.Filestore) (h : string) :
  memory.files m !! h = None ->
  memory.Size m h = (0%Z, Some (Sentinel filestore_ErrNotExist)) /\
  NotFound (memory.Size m h).2.
Proof.
  intros Hm. unfold memory.Size. rewrite Hm. split; [done|]. eexists. by split.
Qed.

(** On the local backend a stored blob can be removed, and Fetch then
    reports [filestore.ErrNotExist]. *)
Lemma local_Remove_then_Fetch (f : local.Filestore) (s1 s2 : string) (fs : local.fsys)
    (h : string) (fl : local.file) :
  local.stored f fs h = Some fl ->
  exists fs',
    local.Remove f (local.no_faults s1) fs h = Ret (None, fs') /\
    local.Fetch f (local.no_faults s2) fs' h =
      Ret (None, Some (Sentinel filestore_ErrNotExist)).
Proof.
  unfold local.stored.
  destruct (local.prefixPath f h) as [[p [err|]]|m] eqn:Hp; [done| |done].
  intros Hat. destruct (Remove_stored f s1 fs h p fl Hp Hat) as (fs' & Hrm & Hgone).
  exists fs'. split; [done|]. by apply (Fetch_absent f s2 fs' h p).
Qed.

(** Removing or sizing a hash that is not stored passes the error of the
    operating system on; it wraps ENOENT, which is [os.ErrNotExist] and
    not the store's own [filestore.ErrNotExist]. *)
Lemma local_Remove_absent (f : local.Filestore) (s : string) (fs : local.fsys)
    (h p : string) :
  local.prefixPath f h = Ret (p, None) ->
  local.file_at fs p h = None ->
  local.Remove f (local.no_faults s) fs h =
    Ret (Some (Errorf "removing file"
                 (PathError "remove" (local.targetPath f p h) (Errno ENOENT))), fs) /\
  ~ NotFound (Some (Errorf "removing file"
                      (PathError "remove" (local.targetPath f p h) (Errno ENOENT)))).
Proof.
  intros Hp Hat. split.
  - unfold local.Remove, local.os_Remove_file. rewrite Hp. cbn -[lookup].
    unfold local.file_at in Hat.
    destruct (local.assets fs !! p) as [d|]; cbn -[lookup] in *; [by rewrite Hat|done].
  - intros (e & [= <-] & He). discriminate He.
Qed.

Lemma local_Size_absent (f : local.Filestore) (s : string) (fs : local.fsys)
    (h p : string) :
  local.prefixPath f h = Ret (p, None) ->
  local.file_at fs p h = None ->
  local.Size f (local.no_faults s) fs h =
    Ret (0%Z, Some (PathError "stat" (local.targetPath f p h) (Errno ENOENT))) /\
  ~ NotFound (Some (PathError "stat" (local.targetPath f p h) (Errno ENOENT))).
Proof.
  intros Hp Hat. split.
  - unfold local.Size, local.os_Stat. rewrite Hp. cbn -[lookup]. by rewrite Hat.
  - intros (e & [= <-] & He). discriminate He.
Qed.

(** C6, observed on the code.  On a fresh local store, Remove of the
    absent hash of the repository's test fails with the wrapped error of
    os.Remove: [errors.Is(err, filestore.ErrNotExist)] is false (it is
    [os.ErrNotExist]).  The in-memory Remove returns
    [filestore.ErrNotExist]. *)
Theorem C6_local_Remove_absent_is_not_ErrNotExist :
  exists err,
    local.Remove test_store (local.no_faults "") local.empty_fs absent_hash =
      Ret (Some err, local.empty_fs) /\
    errors_Is err filestore_ErrNotExist = false /\
    errors_Is err os_ErrNotExist = true /\
    memory.Remove memory.NewFilestore absent_hash =
      (Some (Sentinel filestore_ErrNotExist), memory.NewFilestore).
Proof.
  eexists. split_and!; [vm_compute; reflexivity|reflexivity|reflexivity|reflexivity].
Qed.

(** C7, observed on the code.  On a fresh local store, Size of an absent
    hash returns the error of os.Stat unchanged:
    [errors.Is(err, filestore.ErrNotExist)] is false.  The in-memory Size
    returns [filestore.ErrNotExist]; on a stored hash both return the
    byte length. *)
Theorem C7_local_Size_absent_is_not_ErrNotExist :
  exists err,
    local.Size test_store (local.no_faults "") local.empty_fs absent_hash =
      Ret (0%Z, Some err) /\
    errors_Is err filestore_ErrNotExist = false /\
    errors_Is err os_ErrNotExist = true /\
    memory.Size memory.NewFilestore absent_hash =
      (0%Z, Some (Sentinel filestore_ErrNotExist)) /\
    local.Size test_store (local.no_faults "") one_blob_fs test_hash = Ret (12%Z, None).
Proof.
  eexists. split_and!;
    [vm_compute; reflexivity|reflexivity|reflexivity|reflexivity|vm_compute; reflexivity].
Qed.

(** ** ImgproxyURLSource *)

(** Package local: the locator fails with the invalid-hash error exactly
    when the hash is shorter than PrefixSize, and is
    [local:///<hash[0:PrefixSize]>/<hash>] otherwise. *)
Lemma local_ImgproxyURLSource_spec (f : local.Filestore) (h : string) :
  (0 <= local.PrefixSize f)%Z ->
  ((len h < local.PrefixSize f)%Z ->
     local.ImgproxyURLSource f h = Ret (EmptyString, Some local.errInvalidHash)) /\
  ((local.PrefixSize f <= len h)%Z ->
     local.ImgproxyURLSource f h =
       Ret ("local:///" +:+ substring 0 (Z.to_nat (local.PrefixSize f)) h +:+ "/" +:+ h,
            None)).
Proof.
  intros HP. unfold local.ImgproxyURLSource, local.prefixPath, slice_to. split; intros Hlen.
  - by destruct (Z.ltb_spec (len h) (local.PrefixSize f)); [|lia].
  - destruct (Z.ltb_spec (len h) (local.PrefixSize f)); [lia|].
    destruct (Z.leb_spec 0 (local.PrefixSize f)); [|lia].
    by destruct (Z.leb_spec (local.PrefixSize f) (len h)); [|lia].
Qed.

Example local_ImgproxyURLSource_test_hash :
  local.ImgproxyURLSource test_store test_hash =
  Ret ("local:///9d/9d9595c5d94fb65b824f56e9999527dba9542481580d69feb89056aabaa0aa87", None).
Proof. reflexivity. Qed.

Example root_ImgproxyURLSource_test_hash :
  filestore.ImgproxyURLSource (filestore.NewLocal "tmp" "assets") test_hash =
  Ret ("local:///9d/9d9595c5d94fb65b824f56e9999527dba9542481580d69feb89056aabaa0aa87", None).
Proof. reflexivity. Qed.

(** C8, observed on the code.  The root package's [Local.ImgproxyURLSource]
    tests the length against the constant 2, not against PrefixSize.  With
    PrefixSize 1 the one-character hash "a" is rejected although it is not
    shorter than the prefix; with PrefixSize 3 the hash "ab" passes the
    test and the slice expression panics.  Package local answers both as
    the claim says. *)
Theorem C8_root_ImgproxyURLSource_tests_constant_2 :
  filestore.ImgproxyURLSource (filestore.mk "tmp" "assets" 420 1) "a" =
    Ret (EmptyString, Some (ErrorNew "empty hash")) /\
  local.ImgproxyURLSource (local.mk "tmp" "assets" 420 1) "a" =
    Ret ("local:///a/a", None) /\
  filestore.ImgproxyURLSource (filestore.mk "tmp" "assets" 420 3) "ab" =
    Panic "slice bounds out of range" /\
  local.ImgproxyURLSource (local.mk "tmp" "assets" 420 3) "ab" =
    Ret (EmptyString, Some local.errInvalidHash).
Proof. split_and!; reflexivity. Qed.

(** ** StoreHashed *)

(** C9, counterexample to the claim as stated.  On the object store the
    hash can be present and StoreHashed still drain the reader and replace
    the content: StoreHashed takes every error of StatObject for "not
    stored", so when the existence probe itself fails (here the request is
    denied) the upload goes ahead and "Updated content" replaces
    "Test content" under the same hash. *)
Lemma C9_counterexample :
  let h := "a0b1c2d3e4f5" in
  let c2 := bytes_of "Updated content" in
  let b : gmap string (list byte) := {[ h := test_content ]} in
  let e := s3.Env (Some (ErrorResponse "AccessDenied")) None in
  b !! h = Some test_content /\
  s3.StoreHashed (s3.mk "localhost:9000" "bucket") e b (bytes_Reader c2) h =
    (None, {[ h := c2 ]}, mkReader [] None) /\
  c2 <> test_content.
Proof. split_and!; [reflexivity | vm_compute; reflexivity | discriminate]. Qed.

(** C9, amended.  When hash h is already present with content c1,
    StoreHashed with any reader returns success without reading from it,
    and the store is unchanged: h still holds c1 and every other hash is as
    before; for the object store this holds when the existence probe
    (StatObject) itself does not fail.  The supplied hash is never checked
    against the content: on an absent hash h0 the drained bytes are stored
    under h0 whatever their digest. *)
Theorem C9_StoreHashed_existing_is_noop (h : string) (c1 : list byte) (r : Reader)
    (m : memory.Filestore) (f : s3.Filestore) (e : s3.env) (b : gmap string (list byte))
    (m0 : memory.Filestore) (h0 : string) (data : list byte)
    (Hm : memory.files m !! h = Some c1)
    (Hb : b !! h = Some c1)
    (He : s3.stat_fault e = None)
    (H0 : memory.files m0 !! h0 = None) :
  memory.StoreHashed m r h = (None, m, r) /\
  memory.Fetch (memory.StoreHashed m r h).1.2 h = (Some (bytes_Reader c1), None) /\
  s3.StoreHashed f e b r h = (None, b, r) /\
  memory.StoreHashed m0 (bytes_Reader data) h0 =
    (None, memory.mk (<[h0 := data]> (memory.files m0)), mkReader [] None).
Proof.
  assert (memory.StoreHashed m r h = (None, m, r)) as Hnoop
    by (unfold memory.StoreHashed; by rewrite Hm).
  split_and!.
  - exact Hnoop.
  - rewrite Hnoop. by apply memory_Fetch_stored.
  - unfold s3.StoreHashed, s3.StatObject. by rewrite He, Hb.
  - unfold memory.StoreHashed. by rewrite H0.
Qed.

Lemma C9_StoreHashed_existing_is_noop_witness :
  let m := memory.mk {[ "a0b1c2d3e4f5" := test_content ]} in
  let b : gmap string (list byte) := {[ "a0b1c2d3e4f5" := test_content ]} in
  let r := bytes_Reader (bytes_of "Updated content") in
  memory.StoreHashed m r "a0b1c2d3e4f5" = (None, m, r) /\
  memory.Fetch (memory.StoreHashed m r "a0b1c2d3e4f5").1.2 "a0b1c2d3e4f5" =
    (Some (bytes_Reader test_content), None) /\
  s3.StoreHashed (s3.mk "localhost:9000" "bucket") (s3.Env None None) b r "a0b1c2d3e4f5" =
    (None, b, r) /\
  memory.StoreHashed memory.NewFilestore (bytes_Reader test_content) "a0b1c2d3e4f5" =
    (None, memory.mk (<["a0b1c2d3e4f5" := test_content]> (memory.files memory.NewFilestore)),
     mkReader [] None).
Proof.
  intros m b r.
  apply (C9_StoreHashed_existing_is_noop "a0b1c2d3e4f5" test_content r m
           (s3.mk "localhost:9000" "bucket") (s3.Env None None) b
           memory.NewFilestore "a0b1c2d3e4f5" test_content).
  - reflexivity.
  - reflexivity.
  - reflexivity.
  - reflexivity.
Defined.

(** ** Content addressing of the in-memory store *)

(** C10. Starting from the empty store of NewFilestore, after any finite
    sequence of Store and Remove operations every key of the in-memory map
    is the lowercase hex SHA-256 digest of the bytes stored under it; and
    Store and Remove each preserve this invariant from any state that has
    it. *)
Theorem C10_memory_content_addressed (ops : list memory.op)
    (f : memory.Filestore) (r : Reader) (h : string)
    (Hf : memory.content_addressed f) :
  memory.content_addressed (memory.run ops) /\
  memory.content_addressed (memory.Store f r).1.2 /\
  memory.content_addressed (memory.Remove f h).2.
Proof.
  split_and!.
  - apply memory_fold_preserves. intros k data. cbn. by rewrite lookup_empty.
  - by apply memory_Store_preserves.
  - by apply memory_Remove_preserves.
Qed.

Lemma C10_memory_content_addressed_witness :
  let f := memory.mk {[ test_hash := test_content ]} in
  memory.content_addressed
    (memory.run [memory.OpStore (bytes_Reader test_content);
                 memory.OpStore (bytes_Reader test_content_0);
                 memory.OpRemove test_hash]) /\
  memory.content_addressed (memory.Store f (bytes_Reader test_content_0)).1.2 /\
  memory.content_addressed (memory.Remove f test_hash).2.
Proof.
  intros f.
  apply (C10_memory_content_addressed
           [memory.OpStore (bytes_Reader test_content);
            memory.OpStore (bytes_Reader test_content_0);
            memory.OpRemove test_hash]
           f (bytes_Reader test_content_0) test_hash).
  intros k data Hk. cbn in Hk. apply lookup_singleton_Some in Hk as [<- <-].
  vm_compute. reflexivity.
Defined.

(** * Further properties of the backends *)

(** ** The in-memory backend *)

(** X1. In the in-memory store, Exists, Fetch and Size agree on which
    hashes are present: Exists answers true exactly when Fetch returns a
    reader and when Size returns no error, Size is then the number of bytes
    Fetch delivers, and in the other case both fail with ErrNotExist. *)
Theorem memory_Exists_Fetch_Size_agree (f : memory.Filestore) (hash : string) :
  ((memory.Exists f hash).1 = true /\
   exists data,
     memory.Fetch f hash = (Some (bytes_Reader data), None) /\
     memory.Size f hash = (Z.of_nat (length data), None)) \/
  ((memory.Exists f hash).1 = false /\
   memory.Fetch f hash = (None, Some (Sentinel filestore_ErrNotExist)) /\
   memory.Size f hash = (0%Z, Some (Sentinel filestore_ErrNotExist))).
Proof.
  unfold memory.Exists, memory.Fetch, memory.Size.
  destruct (memory.files f !! hash) as [data|] eqn:Hf; cbn.
  - left. split; [done|]. by exists data.
  - right. done.
Qed.

(** X2. Removing a stored hash from the in-memory store removes exactly
    that entry: the number of keys drops by one, every other hash fetches
    as before, and a second Remove of the same hash fails with ErrNotExist
    and changes nothing. *)
Theorem memory_Remove_exactly_one (f : memory.Filestore) (hash : string) (data : list byte) :
  memory.files f !! hash = Some data ->
  exists f',
    memory.Remove f hash = (None, f') /\
    (length (memory.keys f') + 1 = length (memory.keys f))%nat /\
    (forall h, h <> hash -> memory.Fetch f' h = memory.Fetch f h) /\
    memory.Remove f' hash = (Some (Sentinel filestore_ErrNotExist), f').
Proof.
  intros Hf. unfold memory.Remove at 1. rewrite Hf. eexists. split; [done|].
  split_and!.
  - unfold memory.keys. cbn [memory.files]. rewrite !length_fmap, !length_map_to_list.
    rewrite map_size_delete, Hf.
    assert (size (memory.files f) <> 0%nat); [|lia].
    intros Hz. apply map_size_empty_iff in Hz. rewrite Hz in Hf. by rewrite lookup_empty in Hf.
  - intros h Hne. unfold memory.Fetch. cbn [memory.files]. by rewrite lookup_delete_ne.
  - unfold memory.Remove. cbn [memory.files]. by rewrite lookup_delete_eq.
Qed.

Lemma memory_Remove_exactly_one_witness :
  memory.files (memory.mk {[ test_hash := test_content ]}) !! test_hash = Some test_content /\
  exists f',
    memory.Remove (memory.mk {[ test_hash := test_content ]}) test_hash = (None, f') /\
    (length (memory.keys f') + 1 =
     length (memory.keys (memory.mk {[ test_hash := test_content ]})))%nat /\
    (forall h, h <> test_hash ->
       memory.Fetch f' h = memory.Fetch (memory.mk {[ test_hash := test_content ]}) h) /\
    memory.Remove f' test_hash = (Some (Sentinel filestore_ErrNotExist), f').
Proof.
  split; [reflexivity|].
  apply (memory_Remove_exactly_one _ test_hash test_content). reflexivity.
Defined.

(** X3. Store followed by Remove of the returned hash is the identity on
    an in-memory store that did not hold the content, and storing the same
    content a second time changes nothing. *)
Theorem memory_Store_Remove_round_trip (f : memory.Filestore) (B : list byte) :
  let '(h, err, f1, _) := memory.Store f (bytes_Reader B) in
  err = None /\
  (memory.Store f1 (bytes_Reader B)).1.2 = f1 /\
  (memory.files f !! h = None -> memory.Remove f1 h = (None, f)).
Proof.
  unfold memory.Store. cbn. split_and!; [done| |].
  - by rewrite insert_insert_eq.
  - intros Hf. unfold memory.Remove. cbn. rewrite lookup_insert_eq.
    rewrite delete_insert_eq, delete_id by done. by destruct f.
Qed.

(** X4. StoreHashed trusts the hash it is given: on a content-addressed
    in-memory store, storing readable bytes under an absent hash keeps the
    store content-addressed exactly when that hash is the SHA-256 digest of
    the bytes. *)
Theorem memory_StoreHashed_content_addressed (f : memory.Filestore) (r : Reader)
    (hash : string) :
  memory.content_addressed f ->
  memory.files f !! hash = None ->
  rd_err r = None ->
  memory.content_addressed (memory.StoreHashed f r hash).1.2 <->
  hash = hashHex (rd_data r).
Proof.
  intros Hca Hf Hr. unfold memory.StoreHashed, io_ReadAll. rewrite Hf, Hr. cbn.
  unfold memory.content_addressed. cbn [memory.files]. split.
  - intros H. apply H. by rewrite lookup_insert_eq.
  - intros -> k data [[<- <-]|[_ Hk]]%lookup_insert_Some; [done|by apply Hca].
Qed.

Lemma memory_StoreHashed_content_addressed_witness :
  memory.content_addressed (memory.StoreHashed memory.NewFilestore
                              (bytes_Reader test_content) test_hash).1.2 <->
  test_hash = hashHex (rd_data (bytes_Reader test_content)).
Proof.
  apply (memory_StoreHashed_content_addressed memory.NewFilestore
           (bytes_Reader test_content) test_hash).
  - intros k data Hk. cbn in Hk. by rewrite lookup_empty in Hk.
  - reflexivity.
  - reflexivity.
Defined.

(** ** Iterate: batch sizes outside the common case, failing callbacks *)

Lemma range_loop_zero {S : Type} (cb : S -> list string -> S * option error)
    (keys hashes : list string) (s : S) :
  range_loop 0 cb keys hashes s = (hashes ++ keys, s, None).
Proof.
  revert hashes. induction keys as [|k keys IH]; intros hashes; simpl.
  - by rewrite app_nil_r.
  - destruct (Z.eqb_spec (Z.of_nat (length (hashes ++ [k]))) 0) as [Heq|_].
    + rewrite length_app in Heq. simpl in Heq. lia.
    + by rewrite IH, <- app_assoc.
Qed.

(** X5. A batch size of 0 never fills a batch: the in-memory and the s3
    Iterate then invoke the callback exactly once, after the enumeration,
    with all hashes at once, and not at all on an empty store; the result
    is what that one invocation returns. *)
Theorem Iterate_batch_size_zero {S : Type} (cb : S -> list string -> S * option error)
    (s : S) (m : memory.Filestore) (pick : list string -> list string)
    (f : s3.Filestore) (objInfos : list s3.ObjectInfo)
    (Hlist : Forall (fun o => s3.Err o = None) objInfos) :
  let once keys :=
    match keys with
    | [] => ((s, []), None)
    | _ => ((cb s keys).1, [(keys, (cb s keys).2)], (cb s keys).2)
    end in
  memory.Iterate m pick 0 (logged cb) (s, []) = once (pick (memory.keys m)) /\
  s3.Iterate 0 (logged cb) f objInfos (s, []) = once (map s3.Key objInfos).
Proof.
  intros once.
  assert (forall keys, iterate_over 0 (logged cb) keys (s, []) = once keys) as Hover.
  { intros keys. unfold iterate_over. rewrite range_loop_zero. simpl. unfold flush, once.
    destruct keys as [|k keys]; [done|].
    assert ((0 <? Z.of_nat (length (k :: keys)))%Z = true) as -> by (apply Z.ltb_lt; simpl; lia).
    destruct (cb s (k :: keys)) as [s' r] eqn:E. by rewrite (logged_eq _ _ _ _ _ _ E). }
  split; [apply Hover|].
  unfold s3.Iterate. rewrite s3_range_objInfos_eq by done. apply Hover.
Qed.

Lemma Iterate_batch_size_zero_witness :
  let cb := counting_callback in
  let once keys :=
    match keys with
    | [] => ((0%nat, []), None)
    | _ => ((cb 0%nat keys).1, [(keys, (cb 0%nat keys).2)], (cb 0%nat keys).2)
    end in
  memory.Iterate (memory.mk {[ test_hash := test_content ]}) (fun l => l) 0 (logged cb)
    (0%nat, []) = once ((fun l => l) (memory.keys (memory.mk {[ test_hash := test_content ]}))) /\
  s3.Iterate 0 (logged cb) (s3.mk "" "bucket") [s3.Obj test_hash None; s3.Obj test_hash_0 None]
    (0%nat, []) = once (map s3.Key [s3.Obj test_hash None; s3.Obj test_hash_0 None]).
Proof.
  intros cb once.
  apply (Iterate_batch_size_zero counting_callback 0%nat
           (memory.mk {[ test_hash := test_content ]}) (fun l => l) (s3.mk "" "bucket")
           [s3.Obj test_hash None; s3.Obj test_hash_0 None]).
  repeat constructor.
Defined.

(** The batches the loop hands out, whatever the callback answers: each
    holds exactly [K] hashes, and together they are a prefix of the hashes
    consumed so far. *)
Lemma range_loop_prefix {S : Type} (K : Z) (cb : S -> list string -> S * option error)
    (keys hashes : list string) (s : S) (L : list call) :
  (1 <= K)%Z -> (Z.of_nat (length hashes) < K)%Z ->
  exists hashes' s' L1 r,
    range_loop K (logged cb) keys hashes (s, L) = (hashes', (s', L ++ L1), r) /\
    Forall (fun c => Z.of_nat (length c.1) = K) L1 /\
    match r with
    | None => concat L1.*1 ++ hashes' = hashes ++ keys /\ (Z.of_nat (length hashes') < K)%Z
    | Some _ => exists rest, concat L1.*1 ++ rest = hashes ++ keys
    end.
Proof.
  intros HK. revert hashes s L. induction keys as [|k keys IH]; intros hashes s L Hlt.
  - exists hashes, s, [], None. simpl. rewrite !app_nil_r. by split_and!.
  - simpl. destruct (Z.eqb_spec (Z.of_nat (length (hashes ++ [k]))) K) as [Heq|Hne].
    + destruct (cb s (hashes ++ [k])) as [s1 [e|]] eqn:E; rewrite (logged_eq _ _ _ _ _ _ E).
      * exists (hashes ++ [k]), s1, [(hashes ++ [k], Some e)], (Some e).
        split_and!; [done|by repeat constructor|].
        exists keys. simpl. by rewrite app_nil_r, <- app_assoc.
      * destruct (IH [] s1 (L ++ [(hashes ++ [k], None)]))
          as (hashes' & s' & L1 & r & Hrun & Hall & Hr); [simpl; lia|].
        exists hashes', s', ((hashes ++ [k], None) :: L1), r. split_and!.
        -- rewrite Hrun. by rewrite <- app_assoc.
        -- by constructor.
        -- simpl in Hr. destruct r as [e|].
           ++ destruct Hr as [rest Hr]. exists rest.
              rewrite fmap_cons, concat_cons. cbn [fst].
              by rewrite <- !app_assoc, Hr.
           ++ destruct Hr as [Hr ?]. split; [|done].
              rewrite fmap_cons, concat_cons. cbn [fst].
              by rewrite <- !app_assoc, Hr.
    + destruct (IH (hashes ++ [k]) s L) as (hashes' & s' & L1 & r & Hrun & Hall & Hr).
      { rewrite length_app in *. simpl in *. lia. }
      exists hashes', s', L1, r. split_and!; [done|done|].
      by rewrite <- app_assoc in Hr.
Qed.

(** X6. Whatever the callback answers, also when it fails, the in-memory
    Iterate with a batch size of at least 1 hands it batches of at least 1
    and at most maxBatch hashes that, put together in the order of the
    invocations, are a prefix of the enumeration: no hash is handed out
    twice or out of order, and when Iterate returns nil the prefix is the
    whole enumeration. *)
Theorem memory_Iterate_batches_are_a_prefix {S : Type} (m : memory.Filestore)
    (pick : list string -> list string) (K : Z)
    (cb : S -> list string -> S * option error) (s : S)
    (HK : (1 <= K)%Z) :
  exists s' L r rest,
    memory.Iterate m pick K (logged cb) (s, []) = ((s', L), r) /\
    Forall (fun c => (1 <= Z.of_nat (length c.1) <= K)%Z) L /\
    concat L.*1 ++ rest = pick (memory.keys m) /\
    (r = None -> rest = []).
Proof.
  unfold memory.Iterate, iterate_over.
  destruct (range_loop_prefix K cb (pick (memory.keys m)) [] s [] HK)
    as (hashes' & s' & L1 & r & Hrun & Hall & Hr); [simpl; lia|].
  rewrite Hrun. simpl in *.
  assert (Forall (fun c : call => (1 <= Z.of_nat (length c.1) <= K)%Z) L1) as Hall'.
  { eapply Forall_impl; [exact Hall|]. intros c Hc. simpl in *. lia. }
  destruct r as [e|].
  - destruct Hr as [rest Hr]. exists s', L1, (Some e), rest. by split_and!.
  - destruct Hr as [Hr Hlt]. unfold flush. destruct hashes' as [|h0 hashes'].
    + simpl. exists s', L1, None, []. by split_and!.
    + assert ((0 <? Z.of_nat (length (h0 :: hashes')))%Z = true) as ->
        by (apply Z.ltb_lt; simpl; lia).
      destruct (cb s' (h0 :: hashes')) as [s2 r] eqn:E. rewrite (logged_eq _ _ _ _ _ _ E).
      exists s2, (L1 ++ [(h0 :: hashes', r)]), r, []. split_and!; [done| | |done].
      * apply Forall_app. split; [done|]. constructor; [|done]. simpl in *. lia.
      * rewrite fmap_app, concat_app. simpl. by rewrite !app_nil_r.
Qed.

Lemma memory_Iterate_batches_are_a_prefix_witness :
  exists s' L r rest,
    memory.Iterate (memory.mk {[ test_hash := test_content; test_hash_0 := test_content_0 ]})
      (fun l => l) 1 (logged skip_first_callback) (0%nat, []) = ((s', L), r) /\
    Forall (fun c => (1 <= Z.of_nat (length c.1) <= 1)%Z) L /\
    concat L.*1 ++ rest =
      (fun l => l) (memory.keys
         (memory.mk {[ test_hash := test_content; test_hash_0 := test_content_0 ]})) /\
    (r = None -> rest = []).
Proof.
  apply (memory_Iterate_batches_are_a_prefix
           (memory.mk {[ test_hash := test_content; test_hash_0 := test_content_0 ]})
           (fun l => l) 1 skip_first_callback 0%nat).
  lia.
Defined.

Lemma s3_range_objInfos_app {S : Type} (K : Z) (cb : S -> list string -> S * option error)
    (l1 l2 : list s3.ObjectInfo) (hashes : list string) (s : S) :
  s3.range_objInfos K cb (l1 ++ l2) hashes s =
  match s3.range_objInfos K cb l1 hashes s with
  | (hashes', s', None) => s3.range_objInfos K cb l2 hashes' s'
  | r => r
  end.
Proof.
  revert hashes s. induction l1 as [|o l1 IH]; intros hashes s; simpl; [done|].
  destruct (s3.Err o); [done|].
  destruct (Z.of_nat (length (hashes ++ [s3.Key o])) =? K)%Z; [|apply IH].
  destruct (cb s (hashes ++ [s3.Key o])) as [s' [err|]]; [done | apply IH].
Qed.

(** X7. When the listing of the bucket reports an error, the s3 Iterate
    returns it wrapped as "listing objects" and drops the batch it was
    filling: with a callback that does not fail, the callback has seen
    only the full batches of the keys listed before the error, and the
    fewer than maxBatch keys after the last full batch are never handed
    out. *)
Theorem s3_Iterate_listing_error_drops_partial_batch {S : Type} (K : Z)
    (cb : S -> list string -> S * option error) (f : s3.Filestore)
    (pre post : list s3.ObjectInfo) (key : string) (err : error) (s : S)
    (HK : (1 <= K)%Z)
    (Hcb : forall s b, (cb s b).2 = None)
    (Hpre : Forall (fun o => s3.Err o = None) pre) :
  exists s' bs dropped,
    s3.Iterate K (logged cb) f (pre ++ s3.Obj key (Some err) :: post) (s, []) =
      ((s', map (fun b => (b, None)) bs), Some (Errorf "listing objects" err)) /\
    Forall (fun b => Z.of_nat (length b) = K) bs /\
    concat bs ++ dropped = map s3.Key pre /\
    (Z.of_nat (length dropped) < K)%Z.
Proof.
  unfold s3.Iterate. rewrite s3_range_objInfos_app, s3_range_objInfos_eq by done.
  destruct (range_loop_batches K cb HK Hcb (map s3.Key pre) [] s [])
    as (s' & bs & hashes' & Hrun & Hcat & Hall & Hlt); [simpl; lia|].
  rewrite Hrun. simpl. by exists s', bs, hashes'.
Qed.

Lemma s3_Iterate_listing_error_drops_partial_batch_witness :
  exists s' bs dropped,
    s3.Iterate 2 (logged counting_callback) (s3.mk "" "bucket")
      ([s3.Obj test_hash None] ++ s3.Obj "" (Some (Sentinel (User 0))) :: []) (0%nat, []) =
      ((s', map (fun b => (b, None)) bs), Some (Errorf "listing objects" (Sentinel (User 0)))) /\
    Forall (fun b => Z.of_nat (length b) = 2) bs /\
    concat bs ++ dropped = map s3.Key [s3.Obj test_hash None] /\
    (Z.of_nat (length dropped) < 2)%Z.
Proof.
  apply (s3_Iterate_listing_error_drops_partial_batch 2 counting_callback (s3.mk "" "bucket")
           [s3.Obj test_hash None] [] "" (Sentinel (User 0)) 0%nat).
  - lia.
  - reflexivity.
  - repeat constructor.
Defined.

(** X8. On an asset tree of two levels (directories in the assets
    directory, plain files in these directories, whether or not a file
    lies in the shard of its name), the local Iterate with a callback that
    does not fail hands out exactly the names of the files that do not
    begin with a dot, in the order of the walk: hidden files are never
    reported, and the directories themselves are not. *)
Theorem local_Iterate_skips_hidden_files {S : Type} (f : local.Filestore) (e : local.env)
    (fs : local.fsys) (K : Z) (cb : S -> list string -> S * option error) (s : S)
    (HK : (1 <= K)%Z)
    (He : local.fault e local.SysReaddirnames = None)
    (Hcb : forall s b, (cb s b).2 = None) :
  exists s' bs,
    local.Iterate f e fs K (logged cb) (s, []) = ((s', map (fun b => (b, None)) bs), None) /\
    well_batched K (Z.of_nat (length (concat bs))) bs /\
    forall h, h ∈ concat bs <->
      local.hidden h = false /\
      exists dir d, local.assets fs !! dir = Some d /\ is_Some (d !! h).
Proof.
  rewrite local_Iterate_eq; [| |done].
  - destruct (iterate_over_batches K cb HK Hcb (local.walk_names fs) s [])
      as (s' & bs & Hrun & Hcat & Hwb).
    exists s', bs. split_and!; [done|by rewrite Hcat|].
    intros h. rewrite Hcat, elem_of_walk_names. split.
    + intros (dir & d & Hd & Hh & Hhid). split; [done|]. by exists dir, d.
    + intros (Hhid & dir & d & Hd & Hh). by exists dir, d.
  - intros st b err. rewrite logged_snd, Hcb. done.
Qed.

Lemma local_Iterate_skips_hidden_files_witness :
  let fs :=
    local.FS ∅ {[ "9d" := {[ test_hash := local.File test_content 420;
                             ".keep" := local.File [] 420 ]} ]} in
  exists s' bs,
    local.Iterate test_store (local.no_faults "") fs 1 (logged counting_callback)
      (0%nat, []) = ((s', map (fun b => (b, None)) bs), None) /\
    well_batched 1 (Z.of_nat (length (concat bs))) bs /\
    forall h, h ∈ concat bs <->
      local.hidden h = false /\
      exists dir d, local.assets fs !! dir = Some d /\ is_Some (d !! h).
Proof.
  intros fs.
  apply (local_Iterate_skips_hidden_files test_store (local.no_faults "") fs 1
           counting_callback 0%nat).
  - lia.
  - reflexivity.
  - reflexivity.
Defined.

(** ** The local backend: Remove *)

(** X9. Without injected failures, Remove of a stored hash deletes the
    file and then the shard directory if, and only if, the file was the
    last one in it; the other shard directories and the staging directory
    are not touched. *)
Theorem local_Remove_prunes_empty_shard (f : local.Filestore) (s : string) (fs : local.fsys)
    (hash p : string) (d : gmap string local.file) (fl : local.file)
    (Hp : local.prefixPath f hash = Ret (p, None))
    (Hd : local.assets fs !! p = Some d)
    (Hfl : d !! hash = Some fl) :
  local.Remove f (local.no_faults s) fs hash =
  Ret (None,
       local.FS (local.tmp fs)
         (if bool_decide (delete hash d = ∅) then delete p (local.assets fs)
          else <[p := delete hash d]> (local.assets fs))).
Proof.
  destruct fs as [t a]. cbn [local.tmp local.assets] in *.
  unfold local.Remove. rewrite Hp.
  unfold local.os_Remove_file. cbn [local.fault local.no_faults local.tmp local.assets].
  rewrite Hd. cbn -[lookup insert delete]. rewrite Hfl. cbn -[lookup insert delete].
  unfold local.os_Open_dir. cbn -[lookup insert delete]. rewrite lookup_insert_eq.
  unfold local.Readdirnames1. cbn -[lookup insert delete map_to_list].
  destruct (map_to_list (delete hash d)) as [|[n0 f0] rest] eqn:Hlist.
  - cbn -[lookup insert delete]. unfold local.os_Remove_dir.
    cbn -[lookup insert delete]. rewrite ?lookup_insert_eq.
    apply map_to_list_empty_iff in Hlist. rewrite Hlist.
    rewrite !bool_decide_eq_true_2 by done. by rewrite delete_insert_eq.
  - rewrite bool_decide_eq_false_2; [done|].
    intros Hempty. rewrite Hempty, map_to_list_empty in Hlist. done.
Qed.

Lemma local_Remove_prunes_empty_shard_witness :
  local.Remove test_store (local.no_faults "") two_blobs_fs test_hash =
  Ret (None,
       local.FS (local.tmp two_blobs_fs)
         (if bool_decide (delete test_hash
                            ({[ test_hash := local.File test_content 420 ]}
                               : gmap string local.file) = ∅)
          then delete "9d" (local.assets two_blobs_fs)
          else <["9d" := delete test_hash {[ test_hash := local.File test_content 420 ]}]>
                 (local.assets two_blobs_fs))).
Proof.
  apply (local_Remove_prunes_empty_shard test_store "" two_blobs_fs test_hash "9d"
           {[ test_hash := local.File test_content 420 ]} (local.File test_content 420)).
  - reflexivity.
  - reflexivity.
  - reflexivity.
Defined.

(** What a returning [Remove] may have done, whatever the operating
    system injected: only the file of its hash can have gone. *)
Lemma Remove_inv (f : local.Filestore) (e : local.env) (fs fs' : local.fsys)
    (hash : string) (err : option error) :
  local.Remove f e fs hash = Ret (err, fs') ->
  local.tmp fs' = local.tmp fs /\
  (forall dir n fl, local.file_at fs' dir n = Some fl -> local.file_at fs dir n = Some fl) /\
  (forall dir n, n <> hash -> local.file_at fs' dir n = local.file_at fs dir n) /\
  (fs' = fs \/ (is_Some (local.stored f fs hash) /\ local.stored f fs' hash = None)) /\
  (err = None -> is_Some (local.stored f fs hash) /\ local.stored f fs' hash = None).
Proof.
  destruct fs as [t a]. unfold local.Remove, local.stored.
  destruct (local.prefixPath f hash) as [[p [perr|]]|] eqn:Hp;
    [intros [= <- <-]; split_and!; [done|done|done|by left|done]| |done].
  unfold local.os_Remove_file. cbn [local.tmp local.assets].
  destruct (local.fault e local.SysRemove);
    [intros [= <- <-]; split_and!; [done|done|done|by left|done]|].
  destruct (a !! p) as [d0|] eqn:Hd0; cbn -[lookup insert delete];
    [|intros [= <- <-]; split_and!; [done|done|done|by left|done]].
  destruct (d0 !! hash) as [fl0|] eqn:Hfl0; cbn -[lookup insert delete];
    [|intros [= <- <-]; split_and!; [done|done|done|by left|done]].
  (* the unlink succeeded *)
  assert (local.file_at (local.FS t a) p hash = Some fl0) as Hat.
  { unfold local.file_at. cbn [local.assets]. rewrite Hd0. done. }
  rewrite !Hat.
  assert (forall dir n, n <> hash ->
            local.file_at (local.FS t (<[p := delete hash d0]> a)) dir n =
            local.file_at (local.FS t a) dir n) as Hframe1.
  { intros dir n Hn. unfold local.file_at. cbn [local.assets].
    destruct (decide (dir = p)) as [->|Hne].
    - rewrite lookup_insert_eq, Hd0. cbn. by rewrite lookup_delete_ne.
    - by rewrite lookup_insert_ne. }
  assert (forall dir n fl,
            local.file_at (local.FS t (<[p := delete hash d0]> a)) dir n = Some fl ->
            local.file_at (local.FS t a) dir n = Some fl) as Hsub1.
  { intros dir n fl. unfold local.file_at. cbn [local.assets].
    destruct (decide (dir = p)) as [->|Hne].
    - rewrite lookup_insert_eq, Hd0. cbn. by intros [_ ?]%lookup_delete_Some.
    - by rewrite lookup_insert_ne. }
  assert (local.file_at (local.FS t (<[p := delete hash d0]> a)) p hash = None) as Hgone1.
  { unfold local.file_at. cbn [local.assets]. rewrite lookup_insert_eq. cbn.
    by rewrite lookup_delete_eq. }
  assert (forall err0 : option error,
    let fs1 := local.FS t (<[p := delete hash d0]> a) in
    local.tmp fs1 = t /\
    (forall dir n fl, local.file_at fs1 dir n = Some fl ->
                      local.file_at (local.FS t a) dir n = Some fl) /\
    (forall dir n, n <> hash -> local.file_at fs1 dir n = local.file_at (local.FS t a) dir n) /\
    (fs1 = local.FS t a \/ (is_Some (Some fl0) /\ local.file_at fs1 p hash = None)) /\
    (err0 = None -> is_Some (Some fl0) /\ local.file_at fs1 p hash = None)) as Hkeep.
  { intros err0 fs1. split_and!; [done|done|done|right; by split|by split]. }
  unfold local.os_Open_dir. cbn [local.tmp local.assets].
  destruct (local.fault e local.SysOpen); [intros [= <- <-]; apply Hkeep|].
  rewrite lookup_insert_eq.
  destruct (local.Readdirnames1 e (delete hash d0)) as [err1|?];
    [|intros [= <- <-]; apply Hkeep].
  destruct (errors_Is err1 io_EOF); [|intros [= <- <-]; apply Hkeep].
  unfold local.os_Remove_dir. cbn [local.tmp local.assets].
  destruct (local.fault e local.SysRemoveDir);
    [intros [= <- <-]; apply Hkeep|].
  rewrite lookup_insert_eq.
  destruct (bool_decide (delete hash d0 = ∅)) eqn:Hempty;
    [|intros [= <- <-]; apply Hkeep].
  apply bool_decide_eq_true_1 in Hempty.
  intros [= <- <-]. cbn [local.tmp].
  assert (local.file_at (local.FS t (delete p (<[p := delete hash d0]> a))) p hash = None)
    as Hgone2.
  { unfold local.file_at. cbn [local.assets]. by rewrite lookup_delete_eq. }
  assert (forall dir n,
            local.file_at (local.FS t (delete p (<[p := delete hash d0]> a))) dir n =
            local.file_at (local.FS t (<[p := delete hash d0]> a)) dir n) as Hsame.
  { intros dir n. unfold local.file_at. cbn [local.assets].
    destruct (decide (dir = p)) as [->|Hne].
    - rewrite lookup_delete_eq, lookup_insert_eq, Hempty. cbn. by rewrite lookup_empty.
    - by rewrite lookup_delete_ne. }
  split_and!; [done| | |right; by split|by split].
  - intros dir n fl. rewrite Hsame. apply Hsub1.
  - intros dir n Hn. rewrite Hsame. by apply Hframe1.
Qed.

(** X10. Whatever the operating system injects, a local Remove that
    returns touches nothing but the file of its hash: the staging directory
    and the file of every other name are as before.  Once the unlink has
    succeeded the blob is gone, also when a later step (listing or removing
    the shard directory) fails and Remove returns that error; when Remove
    returns nil the blob was stored before and is not stored after.  (The
    file-system model covers shard prefixes of at least one character and
    hashes that are a single path component.) *)
Theorem local_Remove_frame (f : local.Filestore) (e : local.env) (fs fs' : local.fsys)
    (hash : string) (err : option error)
    (HP : (1 <= local.PrefixSize f)%Z)
    (Hplain : local.plain hash = true)
    (Hrm : local.Remove f e fs hash = Ret (err, fs')) :
  local.tmp fs' = local.tmp fs /\
  (forall dir n, n <> hash -> local.file_at fs' dir n = local.file_at fs dir n) /\
  (fs' = fs \/ (is_Some (local.stored f fs hash) /\ local.stored f fs' hash = None)) /\
  (err = None -> is_Some (local.stored f fs hash) /\ local.stored f fs' hash = None).
Proof.
  apply Remove_inv in Hrm as (Htmp & _ & Hframe & Hgone & Hok). by split_and!.
Qed.

Lemma local_Remove_frame_witness :
  let e := local.Env "" (fun c => match c with local.SysOpen => Some EACCES | _ => None end) 0 in
  let fs' := local.FS ∅ {[ "9d" := ∅ ]} in
  local.tmp fs' = local.tmp one_blob_fs /\
  (forall dir n, n <> test_hash -> local.file_at fs' dir n = local.file_at one_blob_fs dir n) /\
  (fs' = one_blob_fs \/
   (is_Some (local.stored test_store one_blob_fs test_hash) /\
    local.stored test_store fs' test_hash = None)) /\
  (Some (Errorf "opening directory"
           (PathError "open" (local.join "assets" "9d") (Errno EACCES))) = None ->
   is_Some (local.stored test_store one_blob_fs test_hash) /\
   local.stored test_store fs' test_hash = None).
Proof.
  intros e fs'.
  apply (local_Remove_frame test_store e one_blob_fs fs' test_hash
           (Some (Errorf "opening directory"
                    (PathError "open" (local.join "assets" "9d") (Errno EACCES))))).
  - unfold test_store, local.NewFilestore, local.DefaultPrefixSize. simpl. lia.
  - reflexivity.
  - vm_compute. reflexivity.
Defined.

(** ** The local backend: what Store leaves behind *)

Lemma prefixPath_returns (f : local.Filestore) (hash : string) :
  (0 <= local.PrefixSize f)%Z ->
  exists p err, local.prefixPath f hash = Ret (p, err) /\
    (err = None <-> (local.PrefixSize f <= len hash)%Z).
Proof.
  intros HP. unfold local.prefixPath, slice_to.
  destruct (Z.ltb_spec (len hash) (local.PrefixSize f)).
  - eexists _, _. split; [done|]. split; [done|lia].
  - destruct (Z.leb_spec 0 (local.PrefixSize f)); [|lia].
    destruct (Z.leb_spec (local.PrefixSize f) (len hash)); [|lia].
    eexists _, _. split; [done|]. split; [lia|done].
Qed.

(** When Close cannot fail, the body of [Store] never returns with a
    temporary file that was closed but not marked as closed. *)
Lemma Store_body_close_flags (f : local.Filestore) (e : local.env) (r : Reader)
    (name : string) (fs : local.fsys) (fr : local.frame) :
  local.fault e local.SysClose = None ->
  local.Store_body f e r name fs = Ret fr ->
  local.tmpWasClosed fr = false -> local.fr_closed fr = false.
Proof.
  intros Hclose. unfold local.Store_body.
  destruct (local.io_Copy_tee e f r name fs) as [[[err|] data] fs1];
    [by intros [= <-]|].
  destruct (local.prefixPath f (hashHex data)) as [[p [err|]]|m];
    [by intros [= <-]| |done].
  unfold local.File_Close. rewrite Hclose.
  destruct (local.os_Stat e f fs1 p (hashHex data)); [|by intros [= <-]].
  destruct (local.os_MkdirAll e f fs1 p) as [?|fs2]; [by intros [= <-]|].
  destruct (local.os_Rename e f fs2 name p (hashHex data)) as [?|fs3]; [by intros [= <-]|].
  destruct (local.os_Chmod e f fs3 p (hashHex data) (local.TargetFileMode f));
    by intros [= <-].
Qed.

(** X11. If closing and removing the temporary file cannot fail, every
    Store that returns, successfully or not and whatever else the
    operating system or the reader did, leaves the staging directory
    exactly as it found it. *)
Theorem local_Store_leaves_no_temp_file (f : local.Filestore) (e : local.env) (r : Reader)
    (fs fs' : local.fsys) (h : string) (err : option error)
    (Hclose : local.fault e local.SysClose = None)
    (Hremove : local.fault e local.SysRemove = None)
    (Hstore : local.Store f e r fs = Ret (h, err, fs')) :
  local.tmp fs' = local.tmp fs.
Proof.
  destruct fs as [t a]. revert Hstore.
  unfold local.Store, local.os_CreateTemp. cbn [local.tmp local.assets].
  generalize ("image-upload-" +:+ local.temp_suffix e). intros name.
  destruct (local.fault e local.SysCreateTemp); [by intros [= <- <- <-]|].
  destruct (t !! name) eqn:Hfresh; [by intros [= <- <- <-]|].
  destruct (local.Store_body _ _ _ _ _) as [fr|m] eqn:Hbody; [|done].
  pose proof (Store_body_close_flags _ _ _ _ _ _ Hclose Hbody) as Hflags.
  apply Store_body_inv in Hbody
    as [(Hrn & _ & [y Htmp] & _)|(Hrn & Hcl & _ & Htmp & _)].
  - unfold local.Store_deferred, local.File_Close. rewrite Hrn, Hclose.
    destruct (local.tmpWasClosed fr) eqn:Hc; [|rewrite (Hflags eq_refl)];
      unfold local.os_Remove_tmp; rewrite Hremove, Htmp, lookup_insert_eq, delete_insert_eq;
      intros [= <- <- <-]; cbn [local.tmp]; by apply delete_id.
  - unfold local.Store_deferred. rewrite Hrn, Hcl.
    intros [= <- <- <-]. rewrite Htmp. by apply delete_id.
Qed.

Lemma local_Store_leaves_no_temp_file_witness :
  local.tmp (local.FS ∅ {[ "9d" := {[ test_hash := local.File test_content 384 ]} ]}) =
  local.tmp local.empty_fs.
Proof.
  apply (local_Store_leaves_no_temp_file test_store chmod_fails (bytes_Reader test_content)
           local.empty_fs _ EmptyString
           (Some (Errorf "setting file mode"
              (PathError "chmod" (local.targetPath test_store "9d" test_hash) (Errno EPERM))))).
  - reflexivity.
  - reflexivity.
  - vm_compute. reflexivity.
Defined.

(** X12. When the reader fails and the removal of the temporary file
    fails as well, Store returns both errors in one multierror, the read
    error ("copying reader") first and the cleanup error appended;
    errors.Is finds either of them; and the temporary file stays in the
    staging directory, holding what was read, with mode 0600. *)
Theorem local_Store_appends_cleanup_error (f : local.Filestore) (e : local.env) (r : Reader)
    (fs : local.fsys) (e0 : error) (en : errno)
    (Hfresh : local.tmp fs !! ("image-upload-" +:+ local.temp_suffix e) = None)
    (Hcreate : local.fault e local.SysCreateTemp = None)
    (Hwrite : local.fault e local.SysWrite = None)
    (Hclose : local.fault e local.SysClose = None)
    (Hremove : local.fault e local.SysRemove = Some en)
    (Hr : rd_err r = Some e0) :
  let name := "image-upload-" +:+ local.temp_suffix e in
  let err :=
    Multi [Errorf "copying reader" e0;
           Errorf "removing temporary file (with previous error)"
             (PathError "remove" (local.join (local.tmpPath f) name) (Errno en))] in
  local.Store f e r fs =
    Ret (EmptyString, Some err,
         local.FS (<[name := local.File (rd_data r) 384]> (local.tmp fs)) (local.assets fs)) /\
  forall target, errors_Is err target = errors_Is e0 target || errno_Is en target.
Proof.
  cbv zeta. split.
  - destruct fs as [t a]. cbn [local.tmp local.assets] in *.
    unfold local.Store, local.os_CreateTemp. cbn [local.tmp local.assets].
    revert Hfresh. generalize ("image-upload-" +:+ local.temp_suffix e). intros name Hfresh.
    rewrite Hcreate, Hfresh.
    unfold local.Store_body, local.io_Copy_tee. rewrite Hwrite, Hr.
    replace (match rd_data r with [] | _ => _ end) with
      (Some e0, rd_data r,
       local.set_tmp_data (local.FS (<[name := local.File [] 384]> t) a) name (rd_data r))
      by (by destruct (rd_data r)).
    unfold local.Store_deferred, local.File_Close, local.os_Remove_tmp, local.set_tmp_data.
    cbn [local.tmpWasClosed local.fr_closed local.tmpWasRenamed local.fr_fs local.fr_err
         local.fr_hash local.tmp local.assets multierror_Append].
    rewrite Hclose, Hremove. by rewrite alter_insert_eq.
  - intros target. cbn. by rewrite orb_false_r.
Qed.

Lemma local_Store_appends_cleanup_error_witness :
  let e := local.Env "1"
             (fun c => match c with local.SysRemove => Some EACCES | _ => None end) 0 in
  let r := mkReader test_content (Some (Sentinel (User 0))) in
  let name := "image-upload-" +:+ local.temp_suffix e in
  let err :=
    Multi [Errorf "copying reader" (Sentinel (User 0));
           Errorf "removing temporary file (with previous error)"
             (PathError "remove" (local.join (local.tmpPath test_store) name) (Errno EACCES))] in
  local.Store test_store e r local.empty_fs =
    Ret (EmptyString, Some err,
         local.FS (<[name := local.File (rd_data r) 384]> (local.tmp local.empty_fs))
           (local.assets local.empty_fs)) /\
  forall target, errors_Is err target = errors_Is (Sentinel (User 0)) target || errno_Is EACCES target.
Proof.
  intros e r.
  apply (local_Store_appends_cleanup_error test_store e r local.empty_fs (Sentinel (User 0)) EACCES);
    reflexivity.
Defined.

(** X13. A Close that fails in the body of Store is not retried
    successfully: the deferred cleanup calls Close a second time, which
    fails with os.ErrClosed, appends that error and returns before it
    removes the temporary file.  Store then returns both close errors and
    the temporary file, holding the complete content, stays in the staging
    directory, whether or not the removal would have succeeded. *)
Theorem local_Store_failed_close_leaks_temp_file (f : local.Filestore) (e : local.env)
    (B : list byte) (fs : local.fsys) (en : errno)
    (HP : (0 <= local.PrefixSize f <= 64)%Z)
    (Hfresh : local.tmp fs !! ("image-upload-" +:+ local.temp_suffix e) = None)
    (Hcreate : local.fault e local.SysCreateTemp = None)
    (Hwrite : local.fault e local.SysWrite = None)
    (Hclose : local.fault e local.SysClose = Some en) :
  let name := "image-upload-" +:+ local.temp_suffix e in
  let path := local.join (local.tmpPath f) name in
  local.Store f e (bytes_Reader B) fs =
    Ret (EmptyString,
         Some (Multi [Errorf "closing temp file" (PathError "close" path (Errno en));
                      Errorf "closing temporary file (with previous error)"
                        (PathError "close" path (Sentinel os_ErrClosed))]),
         local.FS (<[name := local.File B 384]> (local.tmp fs)) (local.assets fs)).
Proof.
  cbv zeta. destruct fs as [t a]. cbn [local.tmp local.assets] in *.
  unfold local.Store, local.os_CreateTemp. cbn [local.tmp local.assets].
  revert Hfresh. generalize ("image-upload-" +:+ local.temp_suffix e). intros name Hfresh.
  rewrite Hcreate, Hfresh.
  unfold local.Store_body, local.io_Copy_tee. rewrite Hwrite.
  cbn [rd_data rd_err bytes_Reader].
  replace (match B with [] | _ => _ end) with
    (@None error, B,
     local.set_tmp_data (local.FS (<[name := local.File [] 384]> t) a) name B)
    by (by destruct B).
  rewrite prefixPath_hashHex by done.
  unfold local.File_Close at 1. rewrite Hclose.
  unfold local.Store_deferred, local.File_Close, local.set_tmp_data.
  cbn [local.tmpWasClosed local.fr_closed local.tmpWasRenamed local.fr_fs local.fr_err
       local.fr_hash local.tmp local.assets multierror_Append].
  by rewrite alter_insert_eq.
Qed.

Lemma local_Store_failed_close_leaks_temp_file_witness :
  let e := local.Env "1"
             (fun c => match c with local.SysClose => Some EIO | _ => None end) 0 in
  let name := "image-upload-" +:+ local.temp_suffix e in
  let path := local.join (local.tmpPath test_store) name in
  local.Store test_store e (bytes_Reader test_content) local.empty_fs =
    Ret (EmptyString,
         Some (Multi [Errorf "closing temp file" (PathError "close" path (Errno EIO));
                      Errorf "closing temporary file (with previous error)"
                        (PathError "close" path (Sentinel os_ErrClosed))]),
         local.FS (<[name := local.File test_content 384]> (local.tmp local.empty_fs))
           (local.assets local.empty_fs)).
Proof.
  intros e.
  apply (local_Store_failed_close_leaks_temp_file test_store e test_content local.empty_fs EIO).
  - unfold test_store, local.NewFilestore, local.DefaultPrefixSize. simpl. lia.
  - reflexivity.
  - reflexivity.
  - reflexivity.
  - reflexivity.
Defined.

(** X14. Without injected failures, a blob that Store promotes gets the
    store's TargetFileMode (0644 by default) in place of the 0600 of the
    temporary file, and its Size is the number of bytes stored; a blob
    that was already stored under the digest is left as it is, mode
    included. *)
Theorem local_Store_sets_target_mode (f : local.Filestore) (B : list byte) (fs : local.fsys)
    (s1 s2 : string)
    (HP : (1 <= local.PrefixSize f <= 64)%Z)
    (Hfresh : local.tmp fs !! ("image-upload-" +:+ s1) = None) :
  exists fs',
    local.Store f (local.no_faults s1) (bytes_Reader B) fs = Ret (hashHex B, None, fs') /\
    local.stored f fs' (hashHex B) =
      Some (match local.stored f fs (hashHex B) with
            | Some fl => fl
            | None => local.File B (local.TargetFileMode f)
            end) /\
    (local.stored f fs (hashHex B) = None ->
     local.Size f (local.no_faults s2) fs' (hashHex B) = Ret (Z.of_nat (length B), None)).
Proof.
  assert (local.prefixPath f (hashHex B) =
          Ret (substring 0 (Z.to_nat (local.PrefixSize f)) (hashHex B), None)) as Hp
    by (apply prefixPath_hashHex; lia).
  eexists. split; [apply Store_no_faults; [lia|done]|].
  rewrite !(stored_file_at _ _ _ _ Hp).
  destruct (local.file_at fs _ (hashHex B)) as [fl|] eqn:Hat; [by split|].
  assert (local.file_at
            (local.FS (local.tmp fs)
               (<[substring 0 (Z.to_nat (local.PrefixSize f)) (hashHex B) :=
                    <[hashHex B := local.File B (local.TargetFileMode f)]>
                      (default ∅ (local.assets fs !!
                                    substring 0 (Z.to_nat (local.PrefixSize f)) (hashHex B)))]>
                  (local.assets fs)))
            (substring 0 (Z.to_nat (local.PrefixSize f)) (hashHex B)) (hashHex B) =
          Some (local.File B (local.TargetFileMode f))) as Hnew.
  { unfold local.file_at. cbn -[lookup insert]. rewrite lookup_insert_eq.
    cbn -[lookup insert]. apply lookup_insert_eq. }
  split; [done|]. intros _. by rewrite (Size_stored _ _ _ _ _ _ Hp Hnew).
Qed.

Lemma local_Store_sets_target_mode_witness :
  exists fs',
    local.Store test_store (local.no_faults "1") (bytes_Reader test_content) local.empty_fs =
      Ret (hashHex test_content, None, fs') /\
    local.stored test_store fs' (hashHex test_content) =
      Some (match local.stored test_store local.empty_fs (hashHex test_content) with
            | Some fl => fl
            | None => local.File test_content (local.TargetFileMode test_store)
            end) /\
    (local.stored test_store local.empty_fs (hashHex test_content) = None ->
     local.Size test_store (local.no_faults "2") fs' (hashHex test_content) =
       Ret (Z.of_nat (length test_content), None)).
Proof.
  apply (local_Store_sets_target_mode test_store test_content local.empty_fs "1" "2").
  - unfold test_store, local.NewFilestore, local.DefaultPrefixSize. simpl. lia.
  - reflexivity.
Defined.

(** ** The local backend: histories *)

Lemma Store_returns (f : local.Filestore) (e : local.env) (r : Reader) (fs : local.fsys) :
  (0 <= local.PrefixSize f)%Z ->
  exists h err fs', local.Store f e r fs = Ret (h, err, fs').
Proof.
  intros HP. unfold local.Store.
  destruct (local.os_CreateTemp e f fs) as [?|[name fs0]]; [by eexists _, _, _|].
  unfold local.Store_body.
  destruct (local.io_Copy_tee e f r name fs0) as [[[err|] data] fs1].
  { unfold local.Store_deferred. cbn.
    repeat (match goal with |- context [match ?x with _ => _ end] => destruct x end);
      by eexists _, _, _. }
  destruct (prefixPath_returns f (hashHex data) HP) as (p & perr & -> & _).
  assert (forall fr, exists h err fs',
            Ret (local.Store_deferred f e name fr) = Ret (h, err, fs')) as Hdef.
  { intros fr. destruct (local.Store_deferred f e name fr) as [[h err] fs']. by exists h, err, fs'. }
  destruct perr; [apply Hdef|].
  repeat (match goal with
          | |- context [match ?x with inl _ => _ | inr _ => _ end] => destruct x
          | |- context [match ?x with Some _ => _ | None => _ end] => destruct x
          end); apply Hdef.
Qed.

Lemma Remove_returns (f : local.Filestore) (e : local.env) (fs : local.fsys) (hash : string) :
  (0 <= local.PrefixSize f)%Z ->
  exists err fs', local.Remove f e fs hash = Ret (err, fs').
Proof.
  intros HP. unfold local.Remove.
  destruct (prefixPath_returns f hash HP) as (p & perr & -> & _).
  destruct perr; [by eexists _, _|].
  repeat (match goal with
          | |- context [match ?x with inl _ => _ | inr _ => _ end] => destruct x
          | |- context [if ?x then _ else _] => destruct x
          end); by eexists _, _.
Qed.

Lemma Store_preserves_content_addressed (f : local.Filestore) (e : local.env) (r : Reader)
    (fs fs' : local.fsys) (h : string) (err : option error) :
  local.content_addressed fs ->
  local.Store f e r fs = Ret (h, err, fs') ->
  local.content_addressed fs'.
Proof.
  intros Hca Hstore dir n fl Hat.
  apply Store_inv in Hstore as [_ [Hsame|(Hr & p & mode & Hp & Hnew & Hother & _)]].
  - rewrite Hsame in Hat. by apply (Hca dir).
  - destruct (decide (dir = p /\ n = hashHex (rd_data r))) as [[-> ->]|Hne].
    + rewrite Hnew in Hat. by injection Hat as <-.
    + rewrite (Hother _ _ Hne) in Hat. by apply (Hca dir).
Qed.

Lemma run_invariant (f : local.Filestore) (ops : list local.op) (fs : local.fsys) :
  (0 <= local.PrefixSize f)%Z ->
  local.content_addressed fs -> local.sharded f fs ->
  exists fs', local.run f ops fs = Ret fs' /\
              local.content_addressed fs' /\ local.sharded f fs'.
Proof.
  intros HP. revert fs. induction ops as [|o ops IH]; intros fs Hca Hsh.
  - by exists fs.
  - simpl. destruct o as [e r|e hash]; simpl.
    + destruct (Store_returns f e r fs HP) as (h & err & fs1 & Hstore). rewrite Hstore.
      apply IH.
      * by eapply Store_preserves_content_addressed.
      * by eapply Store_preserves_sharded.
    + destruct (Remove_returns f e fs hash HP) as (err & fs1 & Hrm). rewrite Hrm.
      apply IH.
      * intros dir n fl Hat. apply Remove_inv in Hrm as (_ & Hsub & _).
        apply (Hca dir). by apply Hsub.
      * by eapply Remove_preserves_sharded.
Qed.

(** X15. The local store is content-addressed under every history: from
    the empty tree, any sequence of Store and Remove calls, each with any
    reader and any injected failure, the hashes given to Remove being
    single path components, returns (no call panics) and leaves a tree in
    which every file is named by the SHA-256 digest of its content and
    lies in the shard directory of its name.  On such a tree, whatever
    Fetch returns under a hash that is a single path component and does
    not begin with a dot is content whose digest is that hash.  (Under the
    names [.] and [..], which the tree of the model does not hold, the
    operating system opens a directory.) *)
Theorem local_history_is_content_addressed (f : local.Filestore) (ops : list local.op)
    (HP : (1 <= local.PrefixSize f)%Z)
    (Hops : Forall (fun o => match o with
                             | local.OpStore _ _ => True
                             | local.OpRemove _ hash => local.plain hash = true
                             end) ops) :
  exists fs,
    local.run f ops local.empty_fs = Ret fs /\
    local.content_addressed fs /\
    local.sharded f fs /\
    forall e hash rd,
      local.plain hash = true ->
      local.hidden hash = false ->
      local.Fetch f e fs hash = Ret (Some rd, None) ->
      hashHex (rd_data rd) = hash.
Proof.
  destruct (run_invariant f ops local.empty_fs) as (fs & Hrun & Hca & Hsh).
  - lia.
  - intros dir n fl Hat. unfold local.file_at in Hat. cbn in Hat.
    by rewrite lookup_empty in Hat.
  - apply sharded_empty.
  - exists fs. split_and!; [done|done|done|].
    intros e hash rd _ _. unfold local.Fetch.
    destruct (local.prefixPath f hash) as [[p [perr|]]|]; [done| |done].
    unfold local.os_Open. destruct (local.fault e local.SysOpen).
    { cbn. by destruct (errno_Is _ _). }
    destruct (local.file_at fs p hash) as [fl|] eqn:Hat; [|done].
    intros [= <-]. cbn. symmetry. by apply (Hca p).
Qed.

Lemma local_history_is_content_addressed_witness :
  exists fs,
    local.run test_store
      [local.OpStore chmod_fails (bytes_Reader test_content);
       local.OpStore (local.no_faults "2") (bytes_Reader test_content_0);
       local.OpRemove (local.no_faults "") test_hash] local.empty_fs = Ret fs /\
    local.content_addressed fs /\
    local.sharded test_store fs /\
    forall e hash rd,
      local.plain hash = true ->
      local.hidden hash = false ->
      local.Fetch test_store e fs hash = Ret (Some rd, None) ->
      hashHex (rd_data rd) = hash.
Proof.
  apply (local_history_is_content_addressed test_store
           [local.OpStore chmod_fails (bytes_Reader test_content);
            local.OpStore (local.no_faults "2") (bytes_Reader test_content_0);
            local.OpRemove (local.no_faults "") test_hash]).
  - unfold test_store, local.NewFilestore, local.DefaultPrefixSize. simpl. lia.
  - repeat constructor.
Defined.

(** The history of the witness leaves the blob "Test content 0", and
    Fetch reads it back under its digest. *)
Example local_history_then_Fetch :
  local.run test_store
    [local.OpStore chmod_fails (bytes_Reader test_content);
     local.OpStore (local.no_faults "2") (bytes_Reader test_content_0);
     local.OpRemove (local.no_faults "") test_hash] local.empty_fs =
    Ret (local.FS ∅ {[ "be" := {[ test_hash_0 := local.File test_content_0 420 ]} ]}) /\
  local.Fetch test_store (local.no_faults "")
    (local.FS ∅ {[ "be" := {[ test_hash_0 := local.File test_content_0 420 ]} ]}) test_hash_0 =
    Ret (Some (bytes_Reader test_content_0), None).
Proof. split; vm_compute; reflexivity. Qed.

(** ** The root package's [Local] against package local *)

(** X16. On a hash that is at least PrefixSize characters long, Fetch,
    Size and Remove of the root package's [Local] do exactly what the
    methods of package local do on the same file system. *)
Theorem root_Local_agrees_with_local (f : filestore.Local) (e : local.env) (fs : local.fsys)
    (hash : string)
    (Hlen : (0 <= filestore.PrefixSize f <= len hash)%Z) :
  filestore.Fetch f e fs hash = local.Fetch (filestore.as_local f) e fs hash /\
  filestore.Size f e fs hash = local.Size (filestore.as_local f) e fs hash /\
  filestore.Remove f e fs hash = local.Remove (filestore.as_local f) e fs hash.
Proof.
  unfold filestore.Fetch, filestore.Size, filestore.Remove, local.Fetch, local.Size,
    local.Remove, local.prefixPath, filestore.prefixPath, slice_to.
  cbn [filestore.as_local local.PrefixSize].
  destruct (Z.ltb_spec (len hash) (filestore.PrefixSize f)); [lia|].
  destruct (Z.leb_spec 0 (filestore.PrefixSize f)); [|lia].
  destruct (Z.leb_spec (filestore.PrefixSize f) (len hash)); [|lia].
  done.
Qed.

Lemma root_Local_agrees_with_local_witness :
  filestore.Fetch (filestore.NewLocal "tmp" "assets") (local.no_faults "") one_blob_fs test_hash =
    local.Fetch (filestore.as_local (filestore.NewLocal "tmp" "assets")) (local.no_faults "")
      one_blob_fs test_hash /\
  filestore.Size (filestore.NewLocal "tmp" "assets") (local.no_faults "") one_blob_fs test_hash =
    local.Size (filestore.as_local (filestore.NewLocal "tmp" "assets")) (local.no_faults "")
      one_blob_fs test_hash /\
  filestore.Remove (filestore.NewLocal "tmp" "assets") (local.no_faults "") one_blob_fs test_hash =
    local.Remove (filestore.as_local (filestore.NewLocal "tmp" "assets")) (local.no_faults "")
      one_blob_fs test_hash.
Proof.
  apply (root_Local_agrees_with_local (filestore.NewLocal "tmp" "assets") (local.no_faults "")
           one_blob_fs test_hash).
  vm_compute. split; discriminate.
Defined.

(** X17. On a hash shorter than PrefixSize (the empty hash, for one),
    Fetch, Size and Remove of the root package's [Local] panic in
    [hash[0:f.PrefixSize]], where the methods of package local return
    errInvalidHash and leave the file system alone. *)
Theorem root_Local_panics_on_short_hash (f : filestore.Local) (e : local.env) (fs : local.fsys)
    (hash : string)
    (Hshort : (len hash < filestore.PrefixSize f)%Z) :
  (exists m, filestore.Fetch f e fs hash = Panic m /\
             filestore.Size f e fs hash = Panic m /\
             filestore.Remove f e fs hash = Panic m) /\
  local.Fetch (filestore.as_local f) e fs hash = Ret (None, Some local.errInvalidHash) /\
  local.Size (filestore.as_local f) e fs hash = Ret (0%Z, Some local.errInvalidHash) /\
  local.Remove (filestore.as_local f) e fs hash = Ret (Some local.errInvalidHash, fs).
Proof.
  unfold filestore.Fetch, filestore.Size, filestore.Remove, local.Fetch, local.Size,
    local.Remove, local.prefixPath, filestore.prefixPath, slice_to.
  cbn [filestore.as_local local.PrefixSize].
  destruct (Z.ltb_spec (len hash) (filestore.PrefixSize f)); [|lia].
  destruct (Z.leb_spec (filestore.PrefixSize f) (len hash)); [lia|].
  rewrite andb_false_r. split; [by eexists|done].
Qed.

Lemma root_Local_panics_on_short_hash_witness :
  (exists m,
     filestore.Fetch (filestore.NewLocal "tmp" "assets") (local.no_faults "") one_blob_fs "" =
       Panic m /\
     filestore.Size (filestore.NewLocal "tmp" "assets") (local.no_faults "") one_blob_fs "" =
       Panic m /\
     filestore.Remove (filestore.NewLocal "tmp" "assets") (local.no_faults "") one_blob_fs "" =
       Panic m) /\
  local.Fetch (filestore.as_local (filestore.NewLocal "tmp" "assets")) (local.no_faults "")
    one_blob_fs "" = Ret (None, Some local.errInvalidHash) /\
  local.Size (filestore.as_local (filestore.NewLocal "tmp" "assets")) (local.no_faults "")
    one_blob_fs "" = Ret (0%Z, Some local.errInvalidHash) /\
  local.Remove (filestore.as_local (filestore.NewLocal "tmp" "assets")) (local.no_faults "")
    one_blob_fs "" = Ret (Some local.errInvalidHash, one_blob_fs).
Proof.
  apply (root_Local_panics_on_short_hash (filestore.NewLocal "tmp" "assets")
           (local.no_faults "") one_blob_fs "").
  vm_compute. reflexivity.
Defined.

(** ** The s3 backend *)

Lemma hashHex_not_tmp (data : list byte) (tmpID : string) :
  hashHex data <> "tmp/" +:+ tmpID.
Proof.
  intros Heq. pose proof (hashHex_lower_hex data) as Hhex. rewrite Heq in Hhex.
  discriminate Hhex.
Qed.

(** Without a failing client call, [Store] leaves the content under its
    digest and no object under the temporary name. *)
Lemma s3_Store_no_faults (f : s3.Filestore) (e : s3.env) (c : s3.client)
    (b : gmap string (list byte)) (B : list byte) (tmpID : string) :
  s3.uuid_NewV4 c = inr tmpID ->
  s3.put_fault e = None ->
  s3.copy_fault c = None ->
  s3.remove_fault c = None ->
  s3.Store f e c b (bytes_Reader B) =
    (hashHex B, None, <[hashHex B := B]> (delete ("tmp/" +:+ tmpID) b), mkReader [] None).
Proof.
  intros Hid Hput Hcopy Hremove.
  unfold s3.Store, s3.PutObject, s3.CopyObject, s3.RemoveObject, io_ReadAll.
  rewrite Hid, Hput. cbn [bytes_Reader rd_data rd_err].
  rewrite Hcopy, lookup_insert_eq, Hremove.
  rewrite delete_insert_ne by (intros Heq; symmetry in Heq; by apply hashHex_not_tmp in Heq).
  by rewrite delete_insert_eq.
Qed.

(** X18. What the s3 Store leaves in the bucket, by the step that fails,
    once the upload under the temporary name has succeeded.  If the copy
    fails, Store returns that error and the temporary object stays.  If
    the copy succeeds and the removal of the temporary object fails, Store
    returns an error and no hash although the content is stored under its
    digest, and the temporary object stays.  If neither fails, Store
    returns the digest, the content is stored under it and the temporary
    object is gone. *)
Theorem s3_Store_outcomes (f : s3.Filestore) (e : s3.env) (c : s3.client)
    (b : gmap string (list byte)) (B : list byte) (tmpID : string)
    (Hid : s3.uuid_NewV4 c = inr tmpID)
    (Hput : s3.put_fault e = None) :
  let tmp := "tmp/" +:+ tmpID in
  let r' := mkReader [] None in
  s3.Store f e c b (bytes_Reader B) =
  match s3.copy_fault c, s3.remove_fault c with
  | Some err, _ =>
      (EmptyString, Some (Errorf "copying temp object" err), <[tmp := B]> b, r')
  | None, Some err =>
      (EmptyString, Some (Errorf "removing temp object" err),
       <[hashHex B := B]> (<[tmp := B]> b), r')
  | None, None => (hashHex B, None, <[hashHex B := B]> (delete tmp b), r')
  end.
Proof.
  cbv zeta. unfold s3.Store, s3.PutObject, s3.CopyObject, s3.RemoveObject, io_ReadAll.
  rewrite Hid, Hput. cbn [bytes_Reader rd_data rd_err].
  destruct (s3.copy_fault c) as [ce|]; [done|].
  rewrite lookup_insert_eq.
  destruct (s3.remove_fault c) as [re|]; [done|].
  rewrite delete_insert_ne by (intros Heq; symmetry in Heq; by apply hashHex_not_tmp in Heq).
  by rewrite delete_insert_eq.
Qed.

Lemma s3_Store_outcomes_witness :
  let c := s3.Client (inr "0") None None (Some (ErrorResponse "AccessDenied")) in
  let tmp := "tmp/" +:+ "0" in
  let r' := mkReader [] None in
  s3.Store (s3.mk "" "bucket") (s3.Env None None) c ∅ (bytes_Reader test_content) =
  match s3.copy_fault c, s3.remove_fault c with
  | Some err, _ =>
      (EmptyString, Some (Errorf "copying temp object" err), <[tmp := test_content]> ∅, r')
  | None, Some err =>
      (EmptyString, Some (Errorf "removing temp object" err),
       <[hashHex test_content := test_content]> (<[tmp := test_content]> ∅), r')
  | None, None =>
      (hashHex test_content, None, <[hashHex test_content := test_content]> (delete tmp ∅), r')
  end.
Proof.
  intros c.
  apply (s3_Store_outcomes (s3.mk "" "bucket") (s3.Env None None) c ∅ test_content "0");
    reflexivity.
Defined.

(** X19. Store then Fetch on s3: when no call of the client fails, Store
    returns the SHA-256 digest of the content, and Fetch, Exists and Size
    of that digest then give the content back, true, and its length; the
    objects under all other keys, the temporary name apart, are as
    before. *)
Theorem s3_Store_then_Fetch (f : s3.Filestore) (e : s3.env) (c : s3.client)
    (b : gmap string (list byte)) (B : list byte) (tmpID : string)
    (Hid : s3.uuid_NewV4 c = inr tmpID)
    (Hput : s3.put_fault e = None)
    (Hstat : s3.stat_fault e = None)
    (Hget : s3.get_fault c = None)
    (Hcopy : s3.copy_fault c = None)
    (Hremove : s3.remove_fault c = None) :
  exists b' r',
    s3.Store f e c b (bytes_Reader B) = (hashHex B, None, b', r') /\
    s3.Fetch f e c b' (hashHex B) = (Some (bytes_Reader B), None) /\
    s3.Exists f e b' (hashHex B) = (true, None) /\
    s3.Size f e c b' (hashHex B) = (Z.of_nat (length B), None) /\
    b' !! ("tmp/" +:+ tmpID) = None /\
    forall k, k <> hashHex B -> k <> "tmp/" +:+ tmpID -> b' !! k = b !! k.
Proof.
  eexists _, _. split; [by apply s3_Store_no_faults|].
  unfold s3.Fetch, s3.Exists, s3.Size, s3.GetObject, s3.Object_Stat, s3.StatObject.
  rewrite Hget, Hstat, !lookup_insert_eq. split_and!; try done.
  - rewrite lookup_insert_ne by apply hashHex_not_tmp. apply lookup_delete_eq.
  - intros k Hk Htmp. by rewrite lookup_insert_ne, lookup_delete_ne.
Qed.

Lemma s3_Store_then_Fetch_witness :
  exists b' r',
    s3.Store (s3.mk "" "bucket") (s3.Env None None) (s3.Client (inr "0") None None None) ∅
      (bytes_Reader test_content) = (hashHex test_content, None, b', r') /\
    s3.Fetch (s3.mk "" "bucket") (s3.Env None None) (s3.Client (inr "0") None None None) b'
      (hashHex test_content) = (Some (bytes_Reader test_content), None) /\
    s3.Exists (s3.mk "" "bucket") (s3.Env None None) b' (hashHex test_content) = (true, None) /\
    s3.Size (s3.mk "" "bucket") (s3.Env None None) (s3.Client (inr "0") None None None) b'
      (hashHex test_content) = (Z.of_nat (length test_content), None) /\
    b' !! ("tmp/" +:+ "0") = None /\
    forall k, k <> hashHex test_content -> k <> "tmp/" +:+ "0" ->
              b' !! k = (∅ : gmap string (list byte)) !! k.
Proof.
  apply (s3_Store_then_Fetch (s3.mk "" "bucket") (s3.Env None None)
           (s3.Client (inr "0") None None None) ∅ test_content "0"); reflexivity.
Defined.

(** X20. After a Remove that the s3 client reports as done, the hash is
    absent: Fetch fails with ErrNotExist and Exists answers false without
    an error, while Size fails with the wrapped NoSuchKey response of the
    client, which is not ErrNotExist; every other key fetches as
    before. *)
Theorem s3_Remove_then_absent (f : s3.Filestore) (e : s3.env) (c : s3.client)
    (b : gmap string (list byte)) (hash : string)
    (Hstat : s3.stat_fault e = None)
    (Hget : s3.get_fault c = None)
    (Hremove : s3.remove_fault c = None) :
  exists b',
    s3.Remove f c b hash = (None, b') /\
    s3.Fetch f e c b' hash = (None, Some (Sentinel filestore_ErrNotExist)) /\
    s3.Exists f e b' hash = (false, None) /\
    s3.Size f e c b' hash = (0%Z, Some (Errorf "statting object" (ErrorResponse "NoSuchKey"))) /\
    ~ NotFound (s3.Size f e c b' hash).2 /\
    forall k, k <> hash -> s3.Fetch f e c b' k = s3.Fetch f e c b k.
Proof.
  unfold s3.Remove, s3.RemoveObject. rewrite Hremove. eexists. split; [done|].
  unfold s3.Fetch, s3.Exists, s3.Size, s3.GetObject, s3.Object_Stat, s3.StatObject.
  rewrite Hget, Hstat, !lookup_delete_eq. cbn. split_and!; try done.
  - intros (err & [= <-] & His). discriminate His.
  - intros k Hk. by rewrite lookup_delete_ne.
Qed.

Lemma s3_Remove_then_absent_witness :
  exists b',
    s3.Remove (s3.mk "" "bucket") (s3.Client (inr "0") None None None)
      {[ test_hash := test_content ]} test_hash = (None, b') /\
    s3.Fetch (s3.mk "" "bucket") (s3.Env None None) (s3.Client (inr "0") None None None) b'
      test_hash = (None, Some (Sentinel filestore_ErrNotExist)) /\
    s3.Exists (s3.mk "" "bucket") (s3.Env None None) b' test_hash = (false, None) /\
    s3.Size (s3.mk "" "bucket") (s3.Env None None) (s3.Client (inr "0") None None None) b'
      test_hash = (0%Z, Some (Errorf "statting object" (ErrorResponse "NoSuchKey"))) /\
    ~ NotFound (s3.Size (s3.mk "" "bucket") (s3.Env None None)
                  (s3.Client (inr "0") None None None) b' test_hash).2 /\
    forall k, k <> test_hash ->
      s3.Fetch (s3.mk "" "bucket") (s3.Env None None) (s3.Client (inr "0") None None None) b' k =
      s3.Fetch (s3.mk "" "bucket") (s3.Env None None) (s3.Client (inr "0") None None None)
        {[ test_hash := test_content ]} k.
Proof.
  apply (s3_Remove_then_absent (s3.mk "" "bucket") (s3.Env None None)
           (s3.Client (inr "0") None None None) {[ test_hash := test_content ]} test_hash);
    reflexivity.
Defined.

(** X21. The s3 StoreHashed takes every error of StatObject for "not
    stored": when the stat request itself fails, it uploads the reader's
    bytes under the hash also if an object is stored there, replacing it,
    where Exists reports the failure of the same request as an error. *)
Theorem s3_StoreHashed_overwrites_when_stat_fails (f : s3.Filestore) (e : s3.env)
    (b : gmap string (list byte)) (B : list byte) (hash : string) (serr : error)
    (Hstat : s3.stat_fault e = Some serr)
    (Hcode : s3.ToErrorResponse_Code serr <> "NoSuchKey")
    (Hput : s3.put_fault e = None) :
  s3.StoreHashed f e b (bytes_Reader B) hash = (None, <[hash := B]> b, mkReader [] None) /\
  s3.Exists f e b hash = (false, Some (Errorf "getting object info" serr)).
Proof.
  unfold s3.StoreHashed, s3.Exists, s3.StatObject, s3.PutObject, io_ReadAll.
  rewrite Hstat, Hput. cbn. split; [done|].
  destruct (String.eqb_spec (s3.ToErrorResponse_Code serr) "NoSuchKey"); done.
Qed.

Lemma s3_StoreHashed_overwrites_when_stat_fails_witness :
  s3.StoreHashed (s3.mk "" "bucket") (s3.Env (Some (ErrorResponse "AccessDenied")) None)
    {[ test_hash := test_content ]} (bytes_Reader test_content_0) test_hash =
    (None, <[test_hash := test_content_0]> {[ test_hash := test_content ]}, mkReader [] None) /\
  s3.Exists (s3.mk "" "bucket") (s3.Env (Some (ErrorResponse "AccessDenied")) None)
    {[ test_hash := test_content ]} test_hash =
    (false, Some (Errorf "getting object info" (ErrorResponse "AccessDenied"))).
Proof.
  apply (s3_StoreHashed_overwrites_when_stat_fails (s3.mk "" "bucket")
           (s3.Env (Some (ErrorResponse "AccessDenied")) None)
           {[ test_hash := test_content ]} test_content_0 test_hash
           (ErrorResponse "AccessDenied")).
  - reflexivity.
  - discriminate.
  - reflexivity.
Defined.

(** ** Package imgproxy *)

(** The encoders on the test vectors of RFC 4648 and RFC 4231. *)
Example base64_test_vectors :
  map (fun s => base64.EncodeToString (bytes_of s)) [""; "f"; "fo"; "foo"; "foob"; "fooba"] =
  [""; "Zg"; "Zm8"; "Zm9v"; "Zm9vYg"; "Zm9vYmE"] /\
  base64.EncodeToString [xfb; xff; xfe] = "-__-".
Proof. split; vm_compute; reflexivity. Qed.

Example hmac_test_vector :
  hex.EncodeToString (hmac.Sum (bytes_of "Jefe") (bytes_of "what do ya want for nothing?")) =
  "5bdcc146bf60754e6a042426089575c75a003f089d2739839dec58b964ec3843".
Proof. vm_compute. reflexivity. Qed.

Example hmac_long_key :
  hex.EncodeToString
    (hmac.Sum (repeat xaa 131)
       (bytes_of "Test Using Larger Than Block-Size Key - Hash Key First")) =
  "60e431591ee0b67f0d8a26aacbf5b77f8e0bc6213728c5140546040f0ee37f54".
Proof. vm_compute. reflexivity. Qed.

Lemma decode_digits (b : byte) :
  hex.fromHexChar (hex.digit (N.shiftr (Byte.to_N b) 4)) = Some (N.shiftr (Byte.to_N b) 4) /\
  hex.fromHexChar (hex.digit (N.land (Byte.to_N b) 15)) = Some (N.land (Byte.to_N b) 15) /\
  hex.N_byte (N.lor (N.shiftl (N.shiftr (Byte.to_N b) 4) 4) (N.land (Byte.to_N b) 15)) = b.
Proof. destruct b; vm_compute; split_and!; reflexivity. Qed.

(** Decoding undoes encoding. *)
Lemma DecodeString_EncodeToString (bs : list byte) :
  hex.DecodeString (hex.EncodeToString bs) = (bs, None).
Proof.
  induction bs as [|b bs IH]; [done|].
  cbn [hex.EncodeToString hex.DecodeString].
  destruct (decode_digits b) as (-> & -> & Hb). by rewrite IH, Hb.
Qed.

(** The decoder accepts exactly the strings of an even number of hex
    digits. *)
Lemma DecodeString_ok_iff (s : string) :
  (hex.DecodeString s).2 = None <->
  hex.all_hex s = true /\ Nat.even (String.length s) = true.
Proof.
  assert (forall n s, (String.length s < n)%nat ->
            ((hex.DecodeString s).2 = None <->
             hex.all_hex s = true /\ Nat.even (String.length s) = true)) as H;
    [|apply (H (Datatypes.S (String.length s))); lia].
  clear s. induction n as [|n IH]; intros s Hn; [lia|].
  destruct s as [|p [|q rest]].
  - done.
  - cbn. unfold hex.is_hex. destruct (hex.fromHexChar p); cbn; split; try done; by intros [? ?].
  - cbn [hex.DecodeString hex.all_hex String.length]. unfold hex.is_hex.
    destruct (hex.fromHexChar p); [|cbn; split; [done|by intros [? ?]]].
    destruct (hex.fromHexChar q); [|cbn; split; [done|by intros [? ?]]].
    specialize (IH rest ltac:(simpl in Hn; lia)).
    destruct (hex.DecodeString rest) as [bs err]. cbn in *. done.
Qed.

(** X22. WithHexKeyAndSalt applied to the hex encodings of a key and a
    salt is WithKeyAndSalt applied to the key and the salt themselves:
    hex.DecodeString undoes hex.EncodeToString. *)
Theorem imgproxy_WithHexKeyAndSalt_of_encoded (key salt : list byte) (o : imgproxy.options) :
  imgproxy.WithHexKeyAndSalt (hex.EncodeToString key) (hex.EncodeToString salt) o =
  imgproxy.WithKeyAndSalt key salt o.
Proof.
  unfold imgproxy.WithHexKeyAndSalt, imgproxy.WithKeyAndSalt.
  by rewrite !DecodeString_EncodeToString.
Qed.

(** X23. WithHexKeyAndSalt succeeds exactly when key and salt are both
    strings of an even number of hex digits (of either case).  When it
    fails the options are left as they were, and a bad key is reported
    ("hex decoding key") before the salt is looked at. *)
Theorem imgproxy_WithHexKeyAndSalt_valid (keyHex saltHex : string) (o : imgproxy.options) :
  let valid s := hex.all_hex s && Nat.even (String.length s) in
  ((imgproxy.WithHexKeyAndSalt keyHex saltHex o).2 = None <->
   valid keyHex = true /\ valid saltHex = true) /\
  ((imgproxy.WithHexKeyAndSalt keyHex saltHex o).2 <> None ->
   (imgproxy.WithHexKeyAndSalt keyHex saltHex o).1 = o) /\
  (valid keyHex = false ->
   exists err, (imgproxy.WithHexKeyAndSalt keyHex saltHex o).2 =
               Some (imgproxy.HexDecodingKey err)).
Proof.
  intros valid. unfold imgproxy.WithHexKeyAndSalt.
  pose proof (DecodeString_ok_iff keyHex) as Hk.
  pose proof (DecodeString_ok_iff saltHex) as Hs.
  subst valid. cbv beta. rewrite !andb_true_iff.
  destruct (hex.DecodeString keyHex) as [k [kerr|]]; cbn in *.
  - split_and!.
    + split; [done|]. intros [Hv _]. by apply Hk in Hv.
    + done.
    + intros _. by eexists.
  - destruct (hex.DecodeString saltHex) as [sl [serr|]]; cbn in *.
    + split_and!.
      * split; [done|]. intros [_ Hv]. by apply Hs in Hv.
      * done.
      * intros Hv. destruct Hk as [Hk _]. specialize (Hk eq_refl).
        apply andb_false_iff in Hv. destruct Hk as [? ?]. destruct Hv; congruence.
    + split_and!.
      * split; [|done]. intros _. split; [by apply Hk|by apply Hs].
      * done.
      * intros Hv. destruct Hk as [Hk _]. specialize (Hk eq_refl).
        apply andb_false_iff in Hv. destruct Hk as [? ?]. destruct Hv; congruence.
Qed.

(** [strings.TrimRight] removes a suffix made of characters of the cutset
    and leaves a string that does not end in one. *)
Lemma TrimRight_spec (s cutset : string) :
  exists rest,
    s = strings.TrimRight s cutset +:+ rest /\
    (forall c, In c (list_ascii_of_string rest) -> strings.contains_char cutset c = true) /\
    (forall t c, strings.TrimRight s cutset = t +:+ String c EmptyString ->
                 strings.contains_char cutset c = false).
Proof.
  induction s as [|a s (rest & Heq & Hrest & Hlast)].
  - exists EmptyString. split_and!; [done|done|]. intros [|? ?] c; discriminate.
  - cbn [strings.TrimRight].
    destruct (strings.TrimRight s cutset) as [|a' t'] eqn:Ht.
    + change (EmptyString +:+ rest) with rest in Heq. subst rest.
      destruct (strings.contains_char cutset a) eqn:Ha.
      * exists (String a s). split_and!; [done| |].
        -- intros c [<-|Hc]; [done|by apply Hrest].
        -- intros [|? ?] c; discriminate.
      * exists s. split_and!; [done|done|].
        intros t c Hc. destruct t as [|x [|y t]]; cbn in Hc.
        -- by injection Hc as <-.
        -- discriminate Hc.
        -- discriminate Hc.
    + exists rest. split_and!; [|done|].
      * change (String a (String a' t') +:+ rest) with (String a (String a' t' +:+ rest)).
        by rewrite <- Heq.
      * intros t c Hc. destruct t as [|x t]; cbn in Hc; [discriminate Hc|].
        injection Hc as _ Hc. by apply (Hlast t c).
Qed.

Lemma contains_char_slash (c : ascii) :
  strings.contains_char "/" c = bool_decide (c = "/"%char).
Proof. cbn. by rewrite orb_false_r. Qed.

(** X24. NewService removes every trailing slash from the base URL: the
    URL it was given is the service's base URL followed by slashes only,
    and the service's base URL does not end in a slash.  The rest of the
    URL, inner slashes included, is kept. *)
Theorem imgproxy_NewService_trims_trailing_slashes (baseURL : string)
    (opts : list imgproxy.Option) (svc : imgproxy.Service)
    (Hnew : imgproxy.NewService baseURL opts = (Some svc, None)) :
  exists rest,
    baseURL = imgproxy.baseURL svc +:+ rest /\
    (forall c, In c (list_ascii_of_string rest) -> c = "/"%char) /\
    (forall t, imgproxy.baseURL svc <> t +:+ "/").
Proof.
  unfold imgproxy.NewService in Hnew.
  destruct (imgproxy.apply_options opts _) as [o [err|]]; [done|].
  injection Hnew as <-. cbn [imgproxy.baseURL].
  destruct (TrimRight_spec baseURL "/") as (rest & Heq & Hrest & Hlast).
  exists rest. split_and!; [done| |].
  - intros c Hc. specialize (Hrest c Hc). rewrite contains_char_slash in Hrest.
    by apply bool_decide_eq_true_1 in Hrest.
  - intros t Ht. specialize (Hlast t _ Ht). rewrite contains_char_slash in Hlast.
    by apply bool_decide_eq_false_1 in Hlast.
Qed.

Lemma imgproxy_NewService_trims_trailing_slashes_witness :
  exists rest,
    "http://localhost:8080//" =
      imgproxy.baseURL (imgproxy.mkService "http://localhost:8080" [] []) +:+ rest /\
    (forall c, In c (list_ascii_of_string rest) -> c = "/"%char) /\
    (forall t, imgproxy.baseURL (imgproxy.mkService "http://localhost:8080" [] []) <> t +:+ "/").
Proof.
  apply (imgproxy_NewService_trims_trailing_slashes "http://localhost:8080//" []
           (imgproxy.mkService "http://localhost:8080" [] [])).
  reflexivity.
Defined.

Lemma base64_EncodeToString_length (bs : list byte) :
  String.length (base64.EncodeToString bs) = ((length bs * 4 + 2) / 3)%nat.
Proof.
  assert (forall n bs, (length bs < n)%nat ->
            String.length (base64.EncodeToString bs) = ((length bs * 4 + 2) / 3)%nat) as H;
    [|apply (H (Datatypes.S (length bs))); lia].
  clear bs. induction n as [|n IH]; intros bs Hn; [lia|].
  destruct bs as [|b0 [|b1 [|b2 rest]]]; [done|done|done|].
  cbn [base64.EncodeToString String.length length].
  rewrite IH by (simpl in Hn; lia).
  replace (Datatypes.S (Datatypes.S (Datatypes.S (length rest))) * 4 + 2)%nat
    with ((length rest * 4 + 2) + 4 * 3)%nat by lia.
  rewrite Nat.div_add by lia. lia.
Qed.

Lemma sextet_url_safe (val shift : N) : base64.is_url_safe (base64.sextet val shift) = true.
Proof.
  unfold base64.sextet. change 63%N with (N.ones 6). rewrite N.land_ones.
  assert (N.shiftr val shift mod 2 ^ 6 < 64)%N as Hlt by (apply N.mod_lt; done).
  generalize dependent (N.shiftr val shift mod 2 ^ 6)%N. intros n Hlt.
  rewrite <- (N2Nat.id n). assert (N.to_nat n < 64)%nat as Hk by lia.
  generalize dependent (N.to_nat n). clear. intros k Hk.
  do 64 (destruct k as [|k]; [reflexivity|]). lia.
Qed.

Lemma base64_EncodeToString_url_safe (bs : list byte) :
  base64.all_url_safe (base64.EncodeToString bs) = true.
Proof.
  assert (forall n bs, (length bs < n)%nat ->
            base64.all_url_safe (base64.EncodeToString bs) = true) as H;
    [|apply (H (Datatypes.S (length bs))); lia].
  clear bs. induction n as [|n IH]; intros bs Hn; [lia|].
  destruct bs as [|b0 [|b1 [|b2 rest]]]; cbn [base64.EncodeToString base64.all_url_safe];
    rewrite ?sextet_url_safe; try done.
  apply IH. simpl in Hn. lia.
Qed.

Lemma bytes_of_length (s : string) : length (bytes_of s) = String.length s.
Proof. induction s as [|c s IH]; [done|]. cbn. by rewrite <- IH. Qed.

Lemma hmac_Sum_length (key msg : list byte) : length (hmac.Sum key msg) = 32%nat.
Proof. unfold hmac.Sum. apply Sum_length. Qed.

(** X25. ImageURL never fails, and the URL it returns is the base URL, a
    slash, the signature, and the path.  The signature is the HMAC-SHA256
    under the service's key of the salt followed by the path, in unpadded
    URL-safe base64: always 43 characters of the alphabet A-Z, a-z, 0-9,
    '-' and '_', so it holds no slash.  The source URL travels in the same
    encoding, four characters for every three bytes. *)
Theorem imgproxy_ImageURL_shape (s : imgproxy.Service) (imgproxySourceURL : string)
    (params : imgproxy.Parameters) :
  exists signature encodedURL,
    imgproxy.ImageURL s imgproxySourceURL params =
      (imgproxy.baseURL s +:+ "/" +:+ signature +:+ imgproxy.path imgproxySourceURL params,
       None) /\
    signature =
      base64.EncodeToString
        (hmac.Sum (imgproxy.key s)
           (imgproxy.salt s ++ bytes_of (imgproxy.path imgproxySourceURL params))) /\
    String.length signature = 43%nat /\
    base64.all_url_safe signature = true /\
    imgproxy.path imgproxySourceURL params =
      "/" +:+ strings.Join (imgproxy.parts params) "/" +:+ "/" +:+ encodedURL +:+
      (if String.eqb (imgproxy.Format params) EmptyString then EmptyString
       else "." +:+ imgproxy.Format params) /\
    String.length encodedURL = ((String.length imgproxySourceURL * 4 + 2) / 3)%nat /\
    base64.all_url_safe encodedURL = true.
Proof.
  exists (imgproxy.signature s (imgproxy.path imgproxySourceURL params)),
         (base64.EncodeToString (bytes_of imgproxySourceURL)).
  unfold imgproxy.signature. split_and!; [done|done| | |done| |].
  - by rewrite base64_EncodeToString_length, hmac_Sum_length.
  - apply base64_EncodeToString_url_safe.
  - by rewrite base64_EncodeToString_length, bytes_of_length.
  - apply base64_EncodeToString_url_safe.
Qed.

(** X26. Without a positive width or height ImageURL emits no resize
    option: the resizing type and the enlarge flag are then ignored, and
    if no gravity is given either, the options segment is empty, so the
    path starts with two slashes. *)
Theorem imgproxy_ImageURL_without_size (s : imgproxy.Service) (imgproxySourceURL : string)
    (params : imgproxy.Parameters) (resize : string) (enlarge : bool)
    (Hw : (imgproxy.Width params <= 0)%Z)
    (Hh : (imgproxy.Height params <= 0)%Z) :
  imgproxy.ImageURL s imgproxySourceURL params =
    imgproxy.ImageURL s imgproxySourceURL
      (imgproxy.mkParameters resize (imgproxy.Width params) (imgproxy.Height params)
         (imgproxy.Gravity params) enlarge (imgproxy.Format params)) /\
  (imgproxy.Gravity params = EmptyString ->
   exists tail, imgproxy.path imgproxySourceURL params = "//" +:+ tail).
Proof.
  assert (forall p, (imgproxy.Width p <= 0)%Z -> (imgproxy.Height p <= 0)%Z ->
            imgproxy.parts p =
            if String.eqb (imgproxy.Gravity p) EmptyString then []
            else ["gravity:" +:+ imgproxy.Gravity p]) as Hparts.
  { intros p Hpw Hph. unfold imgproxy.parts.
    destruct (Z.ltb_spec 0 (imgproxy.Width p)); [lia|].
    destruct (Z.ltb_spec 0 (imgproxy.Height p)); [lia|]. done. }
  split.
  - unfold imgproxy.ImageURL, imgproxy.path.
    rewrite (Hparts params Hw Hh), (Hparts (imgproxy.mkParameters _ _ _ _ _ _)) by done.
    done.
  - intros Hg. unfold imgproxy.path. rewrite (Hparts params Hw Hh), Hg. cbn.
    by eexists.
Qed.

Lemma imgproxy_ImageURL_without_size_witness :
  let s := imgproxy.mkService "http://localhost:8080" [] [] in
  let params := imgproxy.mkParameters "fill" 0 0 "" true "" in
  imgproxy.ImageURL s "memory://abc" params =
    imgproxy.ImageURL s "memory://abc"
      (imgproxy.mkParameters "fit" (imgproxy.Width params) (imgproxy.Height params)
         (imgproxy.Gravity params) false (imgproxy.Format params)) /\
  (imgproxy.Gravity params = EmptyString ->
   exists tail, imgproxy.path "memory://abc" params = "//" +:+ tail).
Proof.
  intros s params.
  apply (imgproxy_ImageURL_without_size s "memory://abc" params "fit" false).
  - vm_compute. discriminate.
  - vm_compute. discriminate.
Defined.
